(** * SumStack: the game-state engine of SumGame

    A shallow embedding of [src/types.ts], [src/utils/gameLogic.ts] and of
    the state transitions of [src/App.tsx] ([initGame], [handleBlockClick]
    and the timer effect), followed by the properties of the engine.

    Conventions of the embedding.
    - JavaScript numbers that only ever hold integers (block values, scores,
      levels, combos, target sums) are [Z]; array indices are [nat].
    - [timeLeft] and [maxTime] are IEEE binary64 values ([PrimFloat.float]):
      the timer subtracts the double nearest to 0.1, and the rounding is
      visible in the behaviour.
    - [Math.random] is an oracle: a tape of draws read through a cursor and
      threaded through the code by a small state monad, [Rand]. The digits
      [toString(36)] prints are the runtime's as well and come with the
      oracle.
    - The interval of the timer effect is a flag: registered or not.
    - Arrays are lists, read with [!!] and written with [<[ _ := _ ]>]. *)

From Stdlib Require Import ZArith Floats Lia.
From stdpp Require Import base relations list strings.

Local Open Scope Z_scope.

(** ** types.ts *)

Inductive GameMode := classic | time.

Record Block := mkBlock {
  id : string;
  value : Z;
  row : nat;
  col : nat;
  isRemoving : option bool
}.

(** [(Block | null)[][]] *)
Abbreviation Grid := (list (list (option Block))).

Record GameState := mkGameState {
  grid : Grid;
  targetSum : Z;
  selectedIds : list string;
  score : Z;
  highScore : Z;
  isGameOver : bool;
  mode : GameMode;
  level : Z;
  combo : Z;
  timeLeft : option float;
  maxTime : option float
}.

Definition GRID_ROWS : nat := 10.
Definition GRID_COLS : nat := 6.
Definition INITIAL_ROWS : nat := 4.
Definition MAX_VALUE : Z := 9.
Definition MIN_VALUE : Z := 1.

#[global] Instance GameMode_eq_dec : EqDecision GameMode.
Proof. solve_decision. Defined.

(** ** The random oracle *)

Module Random.

(** What the code takes from the runtime and the language leaves open.
    The tape holds the successive results of [Math.random]; draw number
    [n] is the double [tape n mod 2^53 / 2^53], a multiple of [2^-53] in
    the interval from 0 (included) to 1 (excluded). [radix36 k] is the
    string [d.toString(36)] for the double [d = k / 2^53] when [0 < k]:
    ECMAScript leaves the digits of a radix other than 10 to the
    implementation, so nothing is assumed of it. *)
Record Rng := mkRng { tape : nat -> Z; cursor : nat; radix36 : Z -> string }.

Definition Rand (A : Type) : Type := Rng -> A * Rng.

Definition ret {A} (a : A) : Rand A := fun g => (a, g).

Definition bind {A B} (m : Rand A) (k : A -> Rand B) : Rand B :=
  fun g => let (a, g') := m g in k a g'.

Definition PRECISION : Z := 53.

Definition Math_random : Rand Z :=
  fun g => (tape g (cursor g) mod 2 ^ PRECISION,
            mkRng (tape g) (S (cursor g)) (radix36 g)).

(** [round53 m], for [0 <= m], is the numerator over [2^53] of the double
    nearest to [m / 2^53], ties going to the even significand: [m] itself
    when it has at most 53 bits, and otherwise [m] without its [s] lowest
    bits, rounded. *)
Definition round53 (m : Z) : Z :=
  let s := Z.log2 m - (PRECISION - 1) in
  if s <=? 0 then m
  else
    let q := m / 2 ^ s in
    let r := m mod 2 ^ s in
    let up := (2 ^ s <? 2 * r) || ((2 * r =? 2 ^ s) && Z.odd q) in
    (if up then q + 1 else q) * 2 ^ s.

(** [fl p] is the numerator over [2^53] of the binary64 result of an
    operation whose exact result is [p / 2^53] (rounding is symmetric in
    the sign). *)
Definition fl (p : Z) : Z := Z.sgn p * round53 (Z.abs p).

(** [Math.floor(d * n)] for the draw [d] of numerator [k] and an
    integer [n]. *)
Definition floor_scaled (k n : Z) : Z := fl (k * n) / 2 ^ PRECISION.

Definition digit36 (d : Z) : Ascii.ascii :=
  if d <? 10 then Ascii.ascii_of_N (Z.to_N (48 + d))
  else Ascii.ascii_of_N (Z.to_N (87 + d)).

(** The digits after the point of the base-36 expansion of [k / 2^53], at
    most [n] of them, stopping where the expansion ends. *)
Fixpoint fraction36 (n : nat) (k : Z) : string :=
  match n with
  | O => EmptyString
  | S n' =>
      if k =? 0 then EmptyString
      else String (digit36 (k * 36 / 2 ^ PRECISION))
                  (fraction36 n' (k * 36 mod 2 ^ PRECISION))
  end.

(** A runtime that prints the exact expansion, cut after eleven digits.
    It is the one of the examples. The engines print the shortest digits
    that give the double back and round the last of them, so that their
    strings can differ from this one from the last digit they print. *)
Definition exact36 (k : Z) : string :=
  String.append "0." (fraction36 11 k).

(** [d.toString(36)] for the draw [d] of numerator [k]: ["0"] for 0, as
    ECMAScript has it for every radix, and otherwise what the runtime
    prints. *)
Definition Number_toString36 (g : Rng) (k : Z) : string :=
  if k =? 0 then "0" else radix36 g k.

(** [d.toString(36).substring(2, 9)]: the characters of index 2 to 8, as
    many of them as the string has. *)
Definition toString36_substring_2_9 (g : Rng) (k : Z) : string :=
  String.substring 2 7 (Number_toString36 g k).

(** [Array.from({length: n}, (_, i) => f i)], the calls made in order. *)
Fixpoint array_from {A} (f : nat -> Rand A) (ixs : list nat) : Rand (list A) :=
  match ixs with
  | [] => ret []
  | i :: ixs' =>
      bind (f i) (fun x => bind (array_from f ixs') (fun xs => ret (x :: xs)))
  end.

End Random.
Import Random.

Notation "x <~ m ;; k" := (bind m (fun x => k))
  (at level 100, m at next level, right associativity).

(** ** utils/gameLogic.ts *)

Definition generateId : Rand string :=
  fun g => (d <~ Math_random ;; ret (toString36_substring_2_9 g d)) g.

Definition createBlock (r c : nat) (v : option Z) : Rand Block :=
  i <~ generateId ;;
  x <~ match v with
       | Some x => ret x
       | None =>
           d <~ Math_random ;;
           ret (floor_scaled d (MAX_VALUE - MIN_VALUE + 1) + MIN_VALUE)
       end ;;
  ret (mkBlock i x r c None).

Definition createEmptyGrid : Grid :=
  replicate GRID_ROWS (replicate GRID_COLS None).

Definition generateRow (rowIndex : nat) : Rand (list (option Block)) :=
  array_from (fun colIndex => b <~ createBlock rowIndex colIndex None ;; ret (Some b))
             (seq 0 GRID_COLS).

Definition getTargetSum (lvl : Z) : Rand Z :=
  let base := 10 in
  let variance := Z.min lvl 10 in
  d <~ Math_random ;; ret (base + floor_scaled d variance).

(** [grid[r][c]] read as a condition: the block of the cell, if there is
    one. The grids of the program all have [GRID_ROWS] rows of [GRID_COLS]
    cells; outside that range the source reads [undefined] for a column and
    raises a [TypeError] for a row, and the model reads an empty cell. *)
Definition cell (g : Grid) (r c : nat) : option Block :=
  match g !! r with
  | Some cells => match cells !! c with Some (Some b) => Some b | _ => None end
  | None => None
  end.

(** [newGrid[r][c] = x], for the in-range writes the program makes. *)
Definition set_cell (g : Grid) (r c : nat) (x : option Block) : Grid :=
  match g !! r with
  | Some cells => <[r := <[c := x]> cells]> g
  | None => g
  end.

(** [{ ...b, row: r, col: c }] *)
Definition restamp (b : Block) (r c : nat) : Block :=
  mkBlock (id b) (value b) r c (isRemoving b).

Definition checkGameOver (g : Grid) : bool :=
  match g !! 0%nat with
  | Some cells => existsb (fun x => bool_decide (x ≠ None)) cells
  | None => false
  end.

(** One iteration of the inner loop of [applyGravity]; the loop state is
    [newGrid] and [targetRow]. [targetRow] is decremented once per block
    found, at most [GRID_ROWS] times, and is not read after it has gone
    below 0. *)
Definition gravity_step (g : Grid) (c : nat) (acc : Grid * nat) (r : nat)
  : Grid * nat :=
  let (newGrid, targetRow) := acc in
  match cell g r c with
  | Some b =>
      (set_cell newGrid targetRow c (Some (restamp b targetRow c)),
       (targetRow - 1)%nat)
  | None => acc
  end.

(** The rows [GRID_ROWS - 1] down to 0. *)
Definition rows_bottom_up : list nat := reverse (seq 0 GRID_ROWS).

Definition gravity_col (g : Grid) (newGrid : Grid) (c : nat) : Grid :=
  fst (foldl (gravity_step g c) (newGrid, (GRID_ROWS - 1)%nat) rows_bottom_up).

Definition applyGravity (g : Grid) : Grid :=
  foldl (gravity_col g) createEmptyGrid (seq 0 GRID_COLS).

Definition shift_cell (g : Grid) (r : nat) (newGrid : Grid) (c : nat) : Grid :=
  match cell g r c with
  | Some b => set_cell newGrid (r - 1) c (Some (restamp b (r - 1) c))
  | None => newGrid
  end.

Definition shift_row (g : Grid) (newGrid : Grid) (r : nat) : Grid :=
  foldl (shift_cell g r) newGrid (seq 0 GRID_COLS).

Definition put_bottom (bottomRow : list (option Block)) (newGrid : Grid) (c : nat)
  : Grid :=
  set_cell newGrid (GRID_ROWS - 1) c (default None (bottomRow !! c)).

Definition shiftUp (g : Grid) : Rand Grid :=
  let newGrid := foldl (shift_row g) createEmptyGrid (seq 1 (GRID_ROWS - 1)) in
  bottomRow <~ generateRow (GRID_ROWS - 1) ;;
  ret (foldl (put_bottom bottomRow) newGrid (seq 0 GRID_COLS)).

(** ** App.tsx: the state machine *)

(** [Math.max(5, 10 - Math.floor(lvl / 2))], stored in [timeLeft] and
    [maxTime]; the integer is between 5 and 10 for every level from 0 on. *)
Definition nextMaxTime (lvl : Z) : float :=
  PrimFloat.of_uint63 (Uint63.of_Z (Z.max 5 (10 - lvl / 2))).

Definition TEN : float := PrimFloat.of_uint63 (Uint63.of_Z 10).

(** The double nearest to 0.1, the JavaScript literal [0.1]. *)
Definition TENTH : float := 0x1.999999999999ap-4%float.

Definition put_initial (newRow : list (option Block)) (rowIdx : nat) (g : Grid)
  (j : nat) : Grid :=
  set_cell g rowIdx j (default None (newRow !! j)).

Fixpoint fill_initial (g : Grid) (ixs : list nat) : Rand Grid :=
  match ixs with
  | [] => ret g
  | i :: ixs' =>
      let rowIdx := (GRID_ROWS - 1 - i)%nat in
      newRow <~ generateRow rowIdx ;;
      fill_initial (foldl (put_initial newRow rowIdx) g (seq 0 GRID_COLS)) ixs'
  end.

(** [savedHighScore] is what [parseInt] makes of the stored string, when
    there is one. *)
Definition initGame (m : GameMode) (savedHighScore : option Z) : Rand GameState :=
  g <~ fill_initial createEmptyGrid (seq 0 INITIAL_ROWS) ;;
  t <~ getTargetSum 1 ;;
  ret {| grid := g;
         targetSum := t;
         selectedIds := [];
         score := 0;
         highScore := default 0 savedHighScore;
         isGameOver := false;
         mode := m;
         level := 1;
         combo := 0;
         timeLeft := if decide (m = time) then Some TEN else None;
         maxTime := if decide (m = time) then Some TEN else None |}.

(** [ids.includes(x)] *)
Definition includes (ids : list string) (x : string) : bool :=
  bool_decide (x ∈ ids).

(** [cells.find(b => b?.id === i)] *)
Fixpoint row_find (cells : list (option Block)) (i : string) : option Block :=
  match cells with
  | [] => None
  | Some b :: rest => if String.eqb (id b) i then Some b else row_find rest i
  | None :: rest => row_find rest i
  end.

(** The first block with id [i], the rows searched from the top. *)
Fixpoint find_block (g : Grid) (i : string) : option Block :=
  match g with
  | [] => None
  | cells :: rest =>
      match row_find cells i with
      | Some b => Some b
      | None => find_block rest i
      end
  end.

Definition toggle (ids : list string) (i : string) : list string :=
  if includes ids i then filter (fun x => x ≠ i) ids else ids ++ [i].

Definition selectedBlocks (g : Grid) (ids : list string) : list Block :=
  omap (find_block g) ids.

Definition currentSum (g : Grid) (ids : list string) : Z :=
  foldl (fun acc b => acc + value b) 0 (selectedBlocks g ids).

(** [grid.map(row => row.map(b => b && ids.includes(b.id) ? null : b))] *)
Definition remove_selected (g : Grid) (ids : list string) : Grid :=
  map (map (fun x => match x with
                     | Some b => if includes ids (id b) then None else Some b
                     | None => None
                     end)) g.

(** The grid and the game-over flag after a match. *)
Definition settle (m : GameMode) (gravityGrid : Grid) : Rand (Grid * bool) :=
  match m with
  | classic =>
      if checkGameOver gravityGrid then ret (gravityGrid, true)
      else
        finalGrid <~ shiftUp gravityGrid ;;
        ret (finalGrid, checkGameOver finalGrid)
  | time => ret (gravityGrid, false)
  end.

Definition points (prev : GameState) (newSelectedIds : list string) : Z :=
  targetSum prev * Z.of_nat (length newSelectedIds) * (combo prev + 1).

Definition success (prev : GameState) (newSelectedIds : list string)
  : Rand GameState :=
  let newGrid := remove_selected (grid prev) newSelectedIds in
  let gravityGrid := applyGravity newGrid in
  fg <~ settle (mode prev) gravityGrid ;;
  let newScore := score prev + points prev newSelectedIds in
  let newHighScore := Z.max newScore (highScore prev) in
  t <~ getTargetSum (level prev) ;;
  ret {| grid := fst fg;
         targetSum := t;
         selectedIds := [];
         score := newScore;
         highScore := newHighScore;
         isGameOver := snd fg;
         mode := mode prev;
         level := newScore / 1000 + 1;
         combo := combo prev + 1;
         timeLeft := if decide (mode prev = time)
                     then Some (nextMaxTime (level prev)) else None;
         maxTime := if decide (mode prev = time)
                    then Some (nextMaxTime (level prev)) else None |}.

Definition exceeded (prev : GameState) : GameState :=
  {| grid := grid prev;
     targetSum := targetSum prev;
     selectedIds := [];
     score := score prev;
     highScore := highScore prev;
     isGameOver := isGameOver prev;
     mode := mode prev;
     level := level prev;
     combo := 0;
     timeLeft := timeLeft prev;
     maxTime := maxTime prev |}.

Definition select (prev : GameState) (newSelectedIds : list string) : GameState :=
  {| grid := grid prev;
     targetSum := targetSum prev;
     selectedIds := newSelectedIds;
     score := score prev;
     highScore := highScore prev;
     isGameOver := isGameOver prev;
     mode := mode prev;
     level := level prev;
     combo := combo prev;
     timeLeft := timeLeft prev;
     maxTime := maxTime prev |}.

(** [handleBlockClick], on a game in progress ([gameState] is not null);
    [isPaused] is the component's pause flag. *)
Definition handleBlockClick (isPaused : bool) (prev : GameState) (block : Block)
  : Rand GameState :=
  if isGameOver prev || isPaused then ret prev
  else
    let newSelectedIds := toggle (selectedIds prev) (id block) in
    let sum := currentSum (grid prev) newSelectedIds in
    if sum =? targetSum prev then success prev newSelectedIds
    else if targetSum prev <? sum then ret (exceeded prev)
    else ret (select prev newSelectedIds).

Definition set_game_over (prev : GameState) : GameState :=
  {| grid := grid prev;
     targetSum := targetSum prev;
     selectedIds := selectedIds prev;
     score := score prev;
     highScore := highScore prev;
     isGameOver := true;
     mode := mode prev;
     level := level prev;
     combo := combo prev;
     timeLeft := timeLeft prev;
     maxTime := maxTime prev |}.

Definition forced_row (prev : GameState) (newGrid : Grid) : GameState :=
  {| grid := newGrid;
     targetSum := targetSum prev;
     selectedIds := [];
     score := score prev;
     highScore := highScore prev;
     isGameOver := checkGameOver newGrid;
     mode := mode prev;
     level := level prev;
     combo := 0;
     timeLeft := Some (nextMaxTime (level prev));
     maxTime := Some (nextMaxTime (level prev)) |}.

Definition set_timeLeft (prev : GameState) (t : float) : GameState :=
  {| grid := grid prev;
     targetSum := targetSum prev;
     selectedIds := selectedIds prev;
     score := score prev;
     highScore := highScore prev;
     isGameOver := isGameOver prev;
     mode := mode prev;
     level := level prev;
     combo := combo prev;
     timeLeft := Some t;
     maxTime := maxTime prev |}.

(** [{ ...prev, timeLeft: t - 0.1 }] *)
Definition decay (prev : GameState) (t : float) : GameState :=
  set_timeLeft prev (PrimFloat.sub t TENTH).

(** The state update of the interval callback. *)
Definition tickUpdate (prev : GameState) : Rand GameState :=
  match timeLeft prev with
  | None => ret prev
  | Some t =>
      if PrimFloat.leb t PrimFloat.zero then
        if checkGameOver (grid prev) then ret (set_game_over prev)
        else newGrid <~ shiftUp (grid prev) ;; ret (forced_row prev newGrid)
      else ret (decay prev t)
  end.

(** The condition of the timer effect: when the effect runs it registers
    the interval if the condition holds and clears it otherwise. *)
Definition timerRunning (isPaused : bool) (st : GameState) : bool :=
  bool_decide (mode st = time) && negb (isGameOver st) && negb isPaused.

(** A tick of the 100ms clock once the effect has run for the state: the
    interval callback when the condition holds, nothing otherwise. Until the
    effect has run, the interval of the state before is the one that fires:
    that is [Timer.fire], further down. *)
Definition tick (isPaused : bool) (st : GameState) : Rand GameState :=
  if timerRunning isPaused st then tickUpdate st else ret st.

(** The tick is a forced row injection: it calls [shiftUp]. *)
Definition injects (isPaused : bool) (st : GameState) : bool :=
  timerRunning isPaused st &&
  match timeLeft st with
  | Some t => PrimFloat.leb t PrimFloat.zero && negb (checkGameOver (grid st))
  | None => false
  end.

(** [n] ticks in a row with no click in between: the final state, the
    number of forced row injections, and the oracle. *)
Fixpoint ticks (n : nat) (isPaused : bool) (st : GameState) (g : Rng)
  : GameState * nat * Rng :=
  match n with
  | O => (st, O, g)
  | S n' =>
      let inj := injects isPaused st in
      let (st', g') := tick isPaused st g in
      let '(st'', k, g'') := ticks n' isPaused st' g' in
      (st'', ((if inj then 1 else 0) + k)%nat, g'')
  end.

(** The states the game can be in: after [initGame], and after any click
    or tick from there, whatever the oracle and the pause flag. *)
Inductive reachable : GameState -> Prop :=
  | reach_init m saved g :
      reachable (fst (initGame m saved g))
  | reach_click st isPaused block g :
      reachable st -> reachable (fst (handleBlockClick isPaused st block g))
  | reach_tick st isPaused g :
      reachable st -> reachable (fst (tick isPaused st g)).

(** [timeLeft] after [n] ticks that only count down from 10. *)
Definition decayed (n : nat) : float :=
  Nat.iter n (fun t => PrimFloat.sub t TENTH) TEN.

(** ** The rounding of [Random.fl] against the machine's

    [Random.fl] is checked against the binary64 product of the kernel on
    sample draws. *)

Module Binary64.

Definition two53 : float := PrimFloat.of_uint63 (Uint63.of_Z (2 ^ 53)).

(** The double [k / 2^53], for [0 <= k < 2^53]. *)
Definition draw (k : Z) : float :=
  PrimFloat.div (PrimFloat.of_uint63 (Uint63.of_Z k)) two53.

(** [draw k * n] computed in binary64. *)
Definition product (k n : Z) : float :=
  PrimFloat.mul (draw k) (PrimFloat.of_uint63 (Uint63.of_Z n)).

(** The double that [fl (k * n)] stands for. *)
Definition modelled (k n : Z) : float :=
  PrimFloat.div (PrimFloat.of_uint63 (Uint63.of_Z (fl (k * n)))) two53.

Definition samples : list Z :=
  map (fun i => (Z.of_nat i * 6364136223846793005 + 1442695040888963407)
                mod 2 ^ 53) (seq 0 200)
  ++ map (fun i => 2 ^ 53 - 1 - Z.of_nat i) (seq 0 50)
  ++ map (fun i => 2 ^ 53 / 9 - 25 + Z.of_nat i) (seq 0 50)
  ++ map (fun i => Z.of_nat i) (seq 0 50).

End Binary64.

(** ** Blocks of a grid *)

(** The blocks of a grid, row by row from the top. *)
Definition grid_blocks (g : Grid) : list Block :=
  omap (fun x => x) (concat g).

(** What gravity and [shiftUp] keep of a block. *)
Definition label (b : Block) : string * Z := (id b, value b).

(** The blocks of column [c], from the bottom row up: the order in which
    the inner loop of [applyGravity] meets them. *)
Definition column_up (g : Grid) (c : nat) : list Block :=
  omap (fun r => cell g r c) rows_bottom_up.

(** The block in position [c] of a row. *)
Definition at_col (c : nat) (cells : list (option Block)) : option Block :=
  match cells !! c with Some (Some b) => Some b | _ => None end.

(** The blocks of column [c], from the top row down. *)
Definition column_down (g : Grid) (c : nat) : list Block :=
  omap (at_col c) g.

(** The writes of the inner loop of [applyGravity] for the blocks [bs] met
    in column [c], the first at [targetRow]. *)
Fixpoint stack (c : nat) (newGrid : Grid) (targetRow : nat) (bs : list Block)
  : Grid :=
  match bs with
  | [] => newGrid
  | b :: bs' =>
      stack c (set_cell newGrid targetRow c (Some (restamp b targetRow c)))
            (targetRow - 1) bs'
  end.

(** ** [applyGravity] on the store

    The grids above are values. In the program a grid is an array of
    references to row arrays, and [newGrid[r][c] = x] writes into a row
    array in place. The module below runs [applyGravity] on a store of row
    arrays, to tell which arrays it writes to. A row array is at the address
    that is its position in the store; the outer array of a grid is the list
    of the addresses of its rows (the function writes to no outer array);
    blocks are values (no field of a block is ever assigned: the blocks the
    function stores are the fresh objects of the spread). *)

Module Store.

Abbreviation Heap := (list (list (option Block))).
Abbreviation GridRef := (list nat).

(** The grid a reference denotes in a store. *)
Definition view (h : Heap) (g : GridRef) : Grid := omap (fun a => h !! a) g.

(** [GRID_ROWS] new row arrays, after the arrays of the store. *)
Definition createEmptyGrid (h : Heap) : GridRef * Heap :=
  (seq (length h) GRID_ROWS,
   h ++ replicate GRID_ROWS (replicate GRID_COLS None)).

(** [g[r][c]] read as a condition. *)
Definition read (h : Heap) (g : GridRef) (r c : nat) : option Block :=
  match g !! r with
  | Some a => match h !! a with Some cells => at_col c cells | None => None end
  | None => None
  end.

(** [g[r][c] = x] *)
Definition write (h : Heap) (g : GridRef) (r c : nat) (x : option Block) : Heap :=
  match g !! r with
  | Some a => alter (fun cells => <[c := x]> cells) a h
  | None => h
  end.

Definition gravity_step (g newGrid : GridRef) (c : nat) (acc : Heap * nat)
  (r : nat) : Heap * nat :=
  let (h, targetRow) := acc in
  match read h g r c with
  | Some b =>
      (write h newGrid targetRow c (Some (restamp b targetRow c)),
       (targetRow - 1)%nat)
  | None => acc
  end.

Definition gravity_col (g newGrid : GridRef) (h : Heap) (c : nat) : Heap :=
  fst (foldl (gravity_step g newGrid c) (h, (GRID_ROWS - 1)%nat) rows_bottom_up).

Definition applyGravity (g : GridRef) (h : Heap) : GridRef * Heap :=
  let (newGrid, h0) := createEmptyGrid h in
  (newGrid, foldl (gravity_col g newGrid) h0 (seq 0 GRID_COLS)).

(** Every row of the grid is an array of the store. *)
Definition valid (h : Heap) (g : GridRef) : Prop :=
  Forall (fun a => (a < length h)%nat) g.

End Store.

(** ** Invariants of play *)

Definition value_ok (b : Block) : Prop := MIN_VALUE <= value b <= MAX_VALUE.

(** Every block of the grid has a value from [MIN_VALUE] to [MAX_VALUE]. *)
Definition values_ok (g : Grid) : Prop :=
  Forall (Forall (from_option value_ok True)) g.

(** What holds of the numbers of a game in progress: the selection sums to
    less than the target, which is at least 10; the level is at least 1;
    score and combo are not negative. *)
Definition in_play (st : GameState) : Prop :=
  values_ok (grid st)
  ∧ currentSum (grid st) (selectedIds st) < targetSum st
  ∧ 10 <= targetSum st
  ∧ 1 <= level st
  ∧ 0 <= score st
  ∧ 0 <= combo st.

(** ** Shape of the grid *)

Definition grid_shape (g : Grid) : Prop :=
  length g = GRID_ROWS ∧ Forall (fun cells => length cells = GRID_COLS) g.

(** ** Example data *)

Module Examples.

Definition four : Block := mkBlock "a" 4 9 0 None.
Definition six : Block := mkBlock "b" 6 9 1 None.
Definition three : Block := mkBlock "c" 3 9 2 None.
Definition nine : Block := mkBlock "d" 9 9 3 None.

(** Four blocks on the bottom row. *)
Definition board : Grid :=
  set_cell (set_cell (set_cell (set_cell createEmptyGrid 9 0 (Some four))
                               9 1 (Some six)) 9 2 (Some three))
           9 3 (Some nine).

Definition oracle : Rng :=
  mkRng (fun n => Z.of_nat n * 1234567890123457 + 987654321987) 0 exact36.

(** Draws just above one half, no two of them equal. *)
Definition halves : Rng := mkRng (fun n => 2 ^ 52 + 1 + Z.of_nat n) 0 exact36.

(** A runtime whose [Math.random] gives one half every time. *)
Definition repeating : Rng := mkRng (fun _ => 2 ^ 52) 0 exact36.

(** A classic game with the 4 selected and 10 to reach. *)
Definition classic_game : GameState :=
  {| grid := board; targetSum := 10; selectedIds := ["a"]; score := 0;
     highScore := 0; isGameOver := false; mode := classic; level := 1;
     combo := 0; timeLeft := None; maxTime := None |}.

(** A timed game with the 4 selected, 10 to reach and 10 seconds left. *)
Definition timed_game : GameState :=
  {| grid := board; targetSum := 10; selectedIds := ["a"]; score := 990;
     highScore := 2000; isGameOver := false; mode := time; level := 1;
     combo := 3; timeLeft := Some TEN; maxTime := Some TEN |}.


(** Blocks with empty cells below them: three in column 0 and one, in the
    top row, in column 3. *)
Definition floating : Grid :=
  set_cell (set_cell (set_cell (set_cell createEmptyGrid 2 0 (Some four))
                               5 0 (Some six)) 9 0 (Some three))
           0 3 (Some nine).

(** The floating blocks in a store that also holds an unrelated row array. *)
Definition heap : Store.Heap := [None; Some four] :: floating.
Definition floating_ref : Store.GridRef := seq 1 GRID_ROWS.

End Examples.


(** ** The draws of the grid generator *)

(** The block [createBlock r c] makes when the next draw is draw number [k]
    after the cursor: draw [k] gives the id and draw [k + 1] the value. *)
Definition drawn_block (g : Rng) (k : nat) (r c : nat) : Block :=
  mkBlock (toString36_substring_2_9 g (tape g (k + cursor g) mod 2 ^ PRECISION))
          (floor_scaled (tape g (S k + cursor g) mod 2 ^ PRECISION)
                        (MAX_VALUE - MIN_VALUE + 1) + MIN_VALUE)
          r c None.

(** The row [generateRow r] makes, two draws for each column. *)
Definition drawn_row (g : Rng) (r : nat) : list (option Block) :=
  (fun c => Some (drawn_block g (2 * c) r c)) <$> seq 0 GRID_COLS.

(** The oracle after [n] draws. *)
Definition skip (n : nat) (g : Rng) : Rng :=
  mkRng (tape g) (n + cursor g) (radix36 g).

(** ** Cells of a removed selection *)

(** What [remove_selected] makes of a cell. *)
Definition unselect (ids : list string) (x : option Block) : option Block :=
  match x with
  | Some b => if includes ids (id b) then None else Some b
  | None => None
  end.

(** ** Rows moved up *)

(** The cells of a row with the blocks stamped for row [r]. *)
Definition restamp_row (r : nat) (cells : list (option Block))
  : list (option Block) :=
  imap (fun c x => (fun b => restamp b r c) <$> x) cells.

(** The rows of a grid below the top one, each moved up by one. *)
Definition shifted (g : Grid) : Grid := imap restamp_row (drop 1 g).

(** ** The sum shown under the grid *)

(** The "selected sum" indicator of the game screen:
    [selectedIds.map(id => value of the first block with that id, or 0)
       .reduce((a, b) => a + b, 0)]. *)
Definition displayedSum (st : GameState) : Z :=
  foldl (fun a b => a + b) 0
        (map (fun i => match find_block (grid st) i with
                       | Some found => value found
                       | None => 0
                       end) (selectedIds st)).

(** ** The period of the timer *)

(** [timeLeft] after [n] ticks that only count down from [t]. *)
Definition decayed_from (t : float) (n : nat) : float :=
  Nat.iter n (fun t => PrimFloat.sub t TENTH) t.

(** Counting down from [m] seconds, [timeLeft] is above 0 at each of the
    first [10 m + 1] ticks and at or below 0 at the next one. *)
Definition period_ok (m : Z) : bool :=
  forallb (fun k => negb (PrimFloat.leb
                            (decayed_from (PrimFloat.of_uint63 (Uint63.of_Z m)) k)
                            PrimFloat.zero))
          (seq 0 (Z.to_nat (10 * m) + 1))
  && PrimFloat.leb (decayed_from (PrimFloat.of_uint63 (Uint63.of_Z m))
                      (Z.to_nat (10 * m) + 1))
                   PrimFloat.zero.

(** ** More invariants of play *)

(** Every block carries the row and column of the cell it is in. *)
Definition stamped (g : Grid) : Prop :=
  ∀ r c b, cell g r c = Some b -> row b = r ∧ col b = c.

(** The level follows the score, the target is at most 19, no id is
    selected twice, and the timer fields are there in time mode only, with
    [maxTime] one of 5, ..., 10. *)
Definition consistent (st : GameState) : Prop :=
  level st = score st / 1000 + 1
  ∧ targetSum st <= 19
  ∧ NoDup (selectedIds st)
  ∧ (mode st = classic -> timeLeft st = None ∧ maxTime st = None)
  ∧ (mode st = time ->
     is_Some (timeLeft st)
     ∧ ∃ n, 5 <= n <= 10
            ∧ maxTime st = Some (PrimFloat.of_uint63 (Uint63.of_Z n))).

(** ** Steps of play *)

(** One click or one tick, whatever the block, the pause flag and the
    oracle. *)
Inductive step : GameState -> GameState -> Prop :=
  | step_click st isPaused block g :
      step st (fst (handleBlockClick isPaused st block g))
  | step_tick st isPaused g :
      step st (fst (tick isPaused st g)).

(** A click, or a run of the interval callback as such: [tickUpdate],
    whatever the state and whatever the timer effect has done. *)
Inductive raw_step : GameState -> GameState -> Prop :=
  | raw_click st isPaused block g :
      raw_step st (fst (handleBlockClick isPaused st block g))
  | raw_tick st g :
      raw_step st (fst (tickUpdate st g)).

(** ** App.tsx: the timer effect

    The effect depends on [mode], [isGameOver] and [isPaused]. When it
    runs, the cleanup of its previous run clears the interval of
    [timerRef], then its body registers a new interval if the game is a
    running, unpaused timed game, and clears otherwise. The interval calls
    the callback every 100ms for as long as it is registered. *)

Module Timer.

(** The game on screen, the pause flag, and whether an interval is
    registered. *)
Record Timer := mkTimer {
  game : GameState;
  paused : bool;
  interval : bool
}.

(** [if (timerRef.current) clearInterval(timerRef.current)] *)
Definition cleanup (s : Timer) : Timer := mkTimer (game s) (paused s) false.

(** The body of the effect. *)
Definition effect (s : Timer) : Timer :=
  if timerRunning (paused s) (game s)
  then mkTimer (game s) (paused s) true
  else mkTimer (game s) (paused s) false.

(** The effect runs again: cleanup, then body. *)
Definition rerun (s : Timer) : Timer := effect (cleanup s).

(** 100ms have passed: the callback runs if an interval is registered. It
    does not look at [isPaused], nor at [isGameOver]. *)
Definition fire (s : Timer) : Rand Timer :=
  if interval s
  then st <~ tickUpdate (game s) ;; ret (mkTimer st (paused s) true)
  else ret s.


End Timer.

(** ** App.tsx: the component

    The component holds [gameState] (null on the menu screen) and
    [isPaused]; its handlers run [initGame], [handleBlockClick] and the
    timer, and read and write the saved high score. *)

#[global] Instance Block_eq_dec : EqDecision Block.
Proof. solve_decision. Defined.

Module App.

(** The component and the browser's storage. [stored] is what is under
    [STORAGE_KEY]: the integer the stored string is the decimal writing of,
    and [None] when there is no such key. The string is only ever written
    by [newHighScore.toString()] and read by [parseInt]; these are the
    runtime's and give the integer back. *)
Record App := mkApp {
  gameState : option GameState;
  isPaused : bool;
  stored : option Z
}.

(** [initGame(mode)] as the component runs it: the saved high score is
    read, the state is set, the pause flag is reset. *)
Definition startGame (m : GameMode) (a : App) : Rand App :=
  st <~ initGame m (stored a) ;;
  ret (mkApp (Some st) false (stored a)).

(** What the success branch of [handleBlockClick] leaves in storage: the
    new high score when it is above the old one. *)
Definition saved (a : App) (prev : GameState) (block : Block) : option Z :=
  if isGameOver prev || isPaused a then stored a
  else
    let newSelectedIds := toggle (selectedIds prev) (id block) in
    if currentSum (grid prev) newSelectedIds =? targetSum prev then
      let newScore := score prev + points prev newSelectedIds in
      let newHighScore := Z.max newScore (highScore prev) in
      if highScore prev <? newHighScore then Some newHighScore else stored a
    else stored a.

(** [handleBlockClick(block)] as the component runs it. *)
Definition clickBlock (block : Block) (a : App) : Rand App :=
  match gameState a with
  | None => ret a
  | Some prev =>
      st <~ handleBlockClick (isPaused a) prev block ;;
      ret (mkApp (Some st) (isPaused a) (saved a prev block))
  end.

(** A tick of the clock. *)
Definition timerTick (a : App) : Rand App :=
  match gameState a with
  | None => ret a
  | Some prev =>
      st <~ tick (isPaused a) prev ;;
      ret (mkApp (Some st) (isPaused a) (stored a))
  end.

(** What the player and the clock can do. *)
Inductive Event :=
  | Start (m : GameMode)       (* a mode button of the menu screen *)
  | Restart                    (* [initGame(gameState.mode)] *)
  | Menu                       (* [setGameState(null)] *)
  | BlockClick (block : Block) (* the button of a block *)
  | TimerTick
  | PauseButton                (* [setIsPaused(!isPaused)] *)
  | ResumeButton.              (* [setIsPaused(false)] *)

(** The control of the event is on screen: the mode buttons on the menu
    screen ([gameState] null); the restart and pause buttons on the game
    screen; the menu button in the game-over overlay; the resume button in
    the pause overlay; a button for each block of the grid. The button of
    a block that has left the grid, on screen while its exit animation
    lasts, is not one of them. *)
Definition enabled (e : Event) (a : App) : bool :=
  match e, gameState a with
  | Start _, None => true
  | Start _, Some _ => false
  | TimerTick, _ => true
  | _, None => false
  | Restart, Some _ => true
  | Menu, Some st => isGameOver st
  | BlockClick block, Some st => bool_decide (Some block ∈ concat (grid st))
  | PauseButton, Some _ => true
  | ResumeButton, Some st => isPaused a && negb (isGameOver st)
  end.

Definition handle (e : Event) (a : App) : Rand App :=
  match e with
  | Start m => startGame m a
  | Restart =>
      match gameState a with
      | Some st => startGame (mode st) a
      | None => ret a
      end
  | Menu => ret (mkApp None (isPaused a) (stored a))
  | BlockClick block => clickBlock block a
  | TimerTick => timerTick a
  | PauseButton => ret (mkApp (gameState a) (negb (isPaused a)) (stored a))
  | ResumeButton => ret (mkApp (gameState a) false (stored a))
  end.

Definition dispatch (e : Event) (a : App) : Rand App :=
  if enabled e a then handle e a else ret a.

(** The component as it is mounted, on a storage that holds [s0]. *)
Definition mounted (s0 : option Z) : App := mkApp None false s0.

(** What the component can come to from there. *)
Inductive reached (s0 : option Z) : App -> Prop :=
  | reached_mounted : reached s0 (mounted s0)
  | reached_dispatch a e g :
      reached s0 a -> reached s0 (fst (dispatch e a g)).

(** What holds of the component with a game on: the game is one that play
    reaches, its high score is the stored one, and every selected id is the
    id of a block of the grid. *)
Definition coherent (a : App) : Prop :=
  match gameState a with
  | Some st =>
      reachable st
      ∧ highScore st = default 0 (stored a)
      ∧ Forall (fun i => is_Some (find_block (grid st) i)) (selectedIds st)
  | None => True
  end.

End App.

(** ** More example data *)

Module Samples.

(** A grid whose column 2 is full, with one more block in column 4. *)
Definition full_column : Grid :=
  set_cell
    (foldl (fun g r => set_cell g r 2 (Some (mkBlock "f" 5 r 2 None)))
           createEmptyGrid (seq 0 GRID_ROWS))
    3 4 (Some (mkBlock "g" 7 3 4 None)).

(** The block [initGame] puts in the bottom left cell on the oracle of
    the examples, the game it starts, and that game with the block
    selected. *)
Definition corner : Block := mkBlock "005467s" 2 9 0 None.
Definition started : GameState := fst (initGame classic None Examples.oracle).
Definition selecting : GameState :=
  fst (handleBlockClick false started corner Examples.oracle).

(** The 7 and the 3 of the bottom row of that game, and the game with the
    7 selected: the 3 completes the target of 10. *)
Definition seven : Block := mkBlock "jqonjsp" 7 9 2 None.
Definition last_three : Block := mkBlock "3h86xdn" 3 9 4 None.
Definition with_seven : GameState :=
  fst (handleBlockClick false started seven Examples.oracle).

(** The component after a timed game is started on a storage that holds
    40, the bottom left block clicked, and the pause button pressed. *)
Definition app : App.App :=
  fst (App.dispatch App.PauseButton
         (fst (App.dispatch (App.BlockClick corner)
                 (fst (App.dispatch (App.Start time) (App.mounted (Some 40))
                         Examples.oracle))
                 Examples.oracle))
         Examples.oracle).

(** The game on screen in that component. *)
Definition app_game : GameState :=
  select (fst (initGame time (Some 40) Examples.oracle)) [id corner].

(** The timed game started on the oracle of the examples and left alone
    for 612 ticks: six rows have come up. *)
Definition lost_game : GameState :=
  fst (fst (ticks 612 false (fst (initGame time None Examples.oracle))
              (snd (initGame time None Examples.oracle)))).

(** A timed game out of time, with a block in row 1 of column 2. *)
Definition late_game : GameState :=
  {| grid := set_cell (set_cell createEmptyGrid 9 2 (Some (mkBlock "h" 2 9 2 None)))
                      1 2 (Some (mkBlock "k" 8 1 2 None));
     targetSum := 12; selectedIds := []; score := 0; highScore := 0;
     isGameOver := false; mode := time; level := 1; combo := 2;
     timeLeft := Some (PrimFloat.opp TENTH); maxTime := Some TEN |}.

End Samples.
(** ** The branches of [handleBlockClick] *)

(** Reduce the projections of a state that is given field by field. *)
Ltac fields :=
  cbn [grid targetSum selectedIds score highScore isGameOver mode level combo
       timeLeft maxTime fst snd].

Lemma click_success prev block g :
  isGameOver prev = false ->
  currentSum (grid prev) (toggle (selectedIds prev) (id block)) = targetSum prev ->
  handleBlockClick false prev block g
  = success prev (toggle (selectedIds prev) (id block)) g.
Proof.
  intros Hrun Hsum. unfold handleBlockClick.
  rewrite Hrun, Hsum, Z.eqb_refl. reflexivity.
Qed.

Lemma click_exceeded prev block g :
  isGameOver prev = false ->
  targetSum prev < currentSum (grid prev) (toggle (selectedIds prev) (id block)) ->
  handleBlockClick false prev block g = (exceeded prev, g).
Proof.
  intros Hrun Hsum. unfold handleBlockClick. rewrite Hrun. simpl.
  destruct (Z.eqb_spec (currentSum (grid prev) (toggle (selectedIds prev) (id block)))
                       (targetSum prev)) as [E|_]; [lia|].
  destruct (Z.ltb_spec (targetSum prev)
                       (currentSum (grid prev) (toggle (selectedIds prev) (id block))));
    [reflexivity|lia].
Qed.

(** The state [success] returns, field by field. *)
Lemma success_state prev ids g :
  let fg := settle (mode prev) (applyGravity (remove_selected (grid prev) ids)) g in
  let newScore := score prev + points prev ids in
  fst (success prev ids g)
  = {| grid := fst (fst fg);
       targetSum := fst (getTargetSum (level prev) (snd fg));
       selectedIds := [];
       score := newScore;
       highScore := Z.max newScore (highScore prev);
       isGameOver := snd (fst fg);
       mode := mode prev;
       level := newScore / 1000 + 1;
       combo := combo prev + 1;
       timeLeft := if decide (mode prev = time)
                   then Some (nextMaxTime (level prev)) else None;
       maxTime := if decide (mode prev = time)
                  then Some (nextMaxTime (level prev)) else None |}.
Proof.
  unfold success, bind.
  destruct (settle _ _ g) as [[fgrid fover] g1]. reflexivity.
Qed.

Lemma toggle_selected ids i :
  i ∈ ids -> toggle ids i = filter (fun x => x ≠ i) ids.
Proof.
  intros Hin. unfold toggle, includes. rewrite bool_decide_eq_true_2; done.
Qed.


Lemma selectedBlocks_length g ids :
  Forall (fun i => is_Some (find_block g i)) ids ->
  length (selectedBlocks g ids) = length ids.
Proof.
  unfold selectedBlocks. induction 1 as [|i ids [b Hb] _ IH]; [done|].
  change (omap (find_block g) (i :: ids))
    with (match find_block g i with
          | Some b => b :: omap (find_block g) ids
          | None => omap (find_block g) ids
          end).
  rewrite Hb. simpl. by rewrite IH.
Qed.

Lemma examples_board_shape : grid_shape Examples.board.
Proof. split; [reflexivity | repeat constructor]. Qed.

(** [checkGameOver]: some cell of row 0 holds a block. *)
Lemma checkGameOver_row0 g :
  checkGameOver g = true <-> ∃ c b, cell g 0 c = Some b.
Proof.
  unfold checkGameOver, cell. destruct (g !! 0%nat) as [cells|].
  - rewrite existsb_exists. split.
    + intros (x & Hin & Hx). apply bool_decide_eq_true_1 in Hx.
      apply list_elem_of_In, list_elem_of_lookup_1 in Hin as [c Hc].
      destruct x as [b|]; [|done]. exists c, b. by rewrite Hc.
    + intros (c & b & Hb). destruct (cells !! c) as [[b'|]|] eqn:Hc; [|done..].
      exists (Some b'). split; [|by apply bool_decide_eq_true_2].
      apply list_elem_of_In. by eapply list_elem_of_lookup_2.
  - split; [done | by intros (c & b & ?)].
Qed.

(** ** Matches *)

(** What the removal of a selection leaves in each cell: the block that
    was there unless its id is selected. *)
Lemma cell_remove_selected g ids r c :
  cell (remove_selected g ids) r c
  = match cell g r c with
    | Some b => if decide (id b ∈ ids) then None else Some b
    | None => None
    end.
Proof.
  unfold remove_selected, cell. change (map ?f g) with (f <$> g).
  rewrite list_lookup_fmap. destruct (g !! r) as [cells|]; [|done].
  cbn [fmap option_fmap option_map]. change (map ?f cells) with (f <$> cells).
  rewrite list_lookup_fmap. destruct (cells !! c) as [[b|]|]; [|done..].
  cbn [fmap option_fmap option_map]. unfold includes.
  destruct (decide (id b ∈ ids)) as [Hin|Hnin].
  - by rewrite bool_decide_eq_true_2.
  - by rewrite bool_decide_eq_false_2.
Qed.

(** C1. On a running game, a click that brings the selection to the target
    sum first removes the selected blocks: each cell keeps the block it had
    unless the id of that block is selected, and is empty then. In classic
    mode the click leaves the grid gravity makes of that when it has a
    block in row 0, and sets the game over; otherwise it leaves the
    [shiftUp] of that grid, the game being over as [checkGameOver] says of
    it. In time mode the grid is the grid after gravity: no row is
    injected. *)
Theorem match_settles_grid prev block g :
  isGameOver prev = false ->
  grid_shape (grid prev) ->
  currentSum (grid prev) (toggle (selectedIds prev) (id block)) = targetSum prev ->
  let ids := toggle (selectedIds prev) (id block) in
  let removed := remove_selected (grid prev) ids in
  let gravityGrid := applyGravity removed in
  let st' := fst (handleBlockClick false prev block g) in
  (∀ r c, cell removed r c
          = match cell (grid prev) r c with
            | Some b => if decide (id b ∈ ids) then None else Some b
            | None => None
            end)
  ∧ match mode prev with
    | classic =>
        if checkGameOver gravityGrid
        then grid st' = gravityGrid ∧ isGameOver st' = true
        else grid st' = fst (shiftUp gravityGrid g)
             ∧ isGameOver st' = checkGameOver (fst (shiftUp gravityGrid g))
    | time => grid st' = gravityGrid ∧ isGameOver st' = false
    end.
Proof.
  intros Hrun _ Hsum ids removed gravityGrid st'. subst st'.
  split; [intros r c; apply cell_remove_selected|].
  rewrite click_success by done. rewrite success_state. fields.
  fold ids. fold removed. fold gravityGrid. unfold settle.
  destruct (mode prev); [|split; reflexivity].
  destruct (checkGameOver gravityGrid); [split; reflexivity|].
  unfold bind. destruct (shiftUp gravityGrid g). split; reflexivity.
Qed.

Lemma match_settles_grid_witness :
  isGameOver Examples.classic_game = false
  ∧ grid_shape (grid Examples.classic_game)
  ∧ currentSum (grid Examples.classic_game)
      (toggle (selectedIds Examples.classic_game) (id Examples.six))
    = targetSum Examples.classic_game
  ∧ cell (remove_selected Examples.board ["a"; "b"]) 9 1 = None
  ∧ cell (remove_selected Examples.board ["a"; "b"]) 9 2 = Some Examples.three
  ∧ grid (fst (handleBlockClick false Examples.classic_game Examples.six
                 Examples.oracle))
    = fst (shiftUp (applyGravity (remove_selected Examples.board ["a"; "b"]))
             Examples.oracle).
Proof.
  split; [reflexivity|]. split; [apply examples_board_shape|].
  split; [reflexivity|].
  destruct (match_settles_grid Examples.classic_game Examples.six
              Examples.oracle eq_refl examples_board_shape eq_refl)
    as [Hcell Hgrid].
  split; [exact (Hcell 9%nat 1%nat)|]. split; [exact (Hcell 9%nat 2%nat)|].
  exact (proj1 Hgrid).
Defined.

(** C4. A match adds [targetSum * (number of selected blocks) * (combo + 1)]
    points, from the target sum and the combo before the match; afterwards
    [highScore] is the larger of its old value and the new score, [combo]
    has grown by one and [selectedIds] is empty. The number of selected
    blocks is the length of the selection, which is the number of blocks it
    resolves to when every id in it is on the grid. With a target of 10,
    blocks 4 and 6 selected and no combo, 20 points are added. *)
Theorem match_scoring :
  (∀ prev block g,
     isGameOver prev = false ->
     grid_shape (grid prev) ->
     currentSum (grid prev) (toggle (selectedIds prev) (id block))
     = targetSum prev ->
     let ids := toggle (selectedIds prev) (id block) in
     let st' := fst (handleBlockClick false prev block g) in
     score st'
     = score prev + targetSum prev * Z.of_nat (length ids) * (combo prev + 1)
     ∧ (Forall (fun i => is_Some (find_block (grid prev) i)) ids ->
        length (selectedBlocks (grid prev) ids) = length ids)
     ∧ highScore st' = Z.max (highScore prev) (score st')
     ∧ combo st' = combo prev + 1
     ∧ selectedIds st' = [])
  ∧ (targetSum Examples.classic_game = 10
     ∧ combo Examples.classic_game = 0
     ∧ map value (selectedBlocks (grid Examples.classic_game)
                    (toggle (selectedIds Examples.classic_game) (id Examples.six)))
       = [4; 6]
     ∧ score (fst (handleBlockClick false Examples.classic_game Examples.six
                     Examples.oracle))
       = score Examples.classic_game + 20).
Proof.
  split.
  - intros prev block g Hrun _ Hsum ids st'. subst st'.
    rewrite click_success by done. rewrite success_state. fields. fold ids.
    repeat split; [apply selectedBlocks_length | apply Z.max_comm].
  - repeat split.
Qed.

Lemma match_scoring_witness :
  isGameOver Examples.timed_game = false
  ∧ grid_shape (grid Examples.timed_game)
  ∧ currentSum (grid Examples.timed_game)
      (toggle (selectedIds Examples.timed_game) (id Examples.six))
    = targetSum Examples.timed_game
  ∧ score (fst (handleBlockClick false Examples.timed_game Examples.six
                  Examples.oracle))
    = 990 + 10 * 2 * (3 + 1).
Proof.
  split; [reflexivity|]. split; [apply examples_board_shape|].
  split; [reflexivity|].
  exact (proj1 (proj1 match_scoring Examples.timed_game Examples.six
                  Examples.oracle eq_refl examples_board_shape eq_refl)).
Defined.

(** C6. After a match the new target sum is drawn by [getTargetSum] at the
    level of the state before the match, while the level of the new state is
    [floor(newScore / 1000) + 1]; in time mode [timeLeft] and [maxTime] are
    reset to [max(5, 10 - floor(level / 2))] at the level before the match. *)
Theorem match_next_round prev block g :
  isGameOver prev = false ->
  grid_shape (grid prev) ->
  currentSum (grid prev) (toggle (selectedIds prev) (id block)) = targetSum prev ->
  let ids := toggle (selectedIds prev) (id block) in
  let gravityGrid := applyGravity (remove_selected (grid prev) ids) in
  let st' := fst (handleBlockClick false prev block g) in
  targetSum st'
  = fst (getTargetSum (level prev) (snd (settle (mode prev) gravityGrid g)))
  ∧ score st' = score prev + points prev ids
  ∧ level st' = score st' / 1000 + 1
  ∧ (mode prev = time ->
     timeLeft st'
     = Some (PrimFloat.of_uint63 (Uint63.of_Z (Z.max 5 (10 - level prev / 2))))
     ∧ maxTime st' = timeLeft st').
Proof.
  intros Hrun _ Hsum ids gravityGrid st'. subst st'.
  rewrite click_success by done. rewrite success_state. fields.
  fold ids. fold gravityGrid.
  do 3 (split; [reflexivity|]). intros ->. split; reflexivity.
Qed.

Lemma match_next_round_witness :
  isGameOver Examples.timed_game = false
  ∧ grid_shape (grid Examples.timed_game)
  ∧ currentSum (grid Examples.timed_game)
      (toggle (selectedIds Examples.timed_game) (id Examples.six))
    = targetSum Examples.timed_game
  ∧ level Examples.timed_game = 1
  ∧ level (fst (handleBlockClick false Examples.timed_game Examples.six
                  Examples.oracle)) = 2
  ∧ targetSum (fst (handleBlockClick false Examples.timed_game Examples.six
                      Examples.oracle))
    = fst (getTargetSum 1 Examples.oracle).
Proof.
  split; [reflexivity|]. split; [apply examples_board_shape|].
  split; [reflexivity|]. split; [reflexivity|].
  pose proof (match_next_round Examples.timed_game Examples.six Examples.oracle
                eq_refl examples_board_shape eq_refl) as (Ht & Hs & Hl & _).
  split; [rewrite Hl, Hs; reflexivity | exact Ht].
Defined.

(** C5. On a running game, a click that brings the selection above the
    target sum empties the selection and resets the combo; every other
    field, the grid among them, is as before, and no random draw is made. *)
Theorem overflow_resets prev block g :
  isGameOver prev = false ->
  targetSum prev < currentSum (grid prev) (toggle (selectedIds prev) (id block)) ->
  let st' := fst (handleBlockClick false prev block g) in
  selectedIds st' = [] ∧ combo st' = 0
  ∧ grid st' = grid prev ∧ score st' = score prev
  ∧ targetSum st' = targetSum prev ∧ level st' = level prev
  ∧ highScore st' = highScore prev ∧ isGameOver st' = isGameOver prev
  ∧ mode st' = mode prev ∧ timeLeft st' = timeLeft prev
  ∧ maxTime st' = maxTime prev
  ∧ snd (handleBlockClick false prev block g) = g.
Proof.
  intros Hrun Hsum st'. subst st'.
  rewrite click_exceeded by done. repeat split.
Qed.

Lemma overflow_resets_witness :
  isGameOver Examples.timed_game = false
  ∧ targetSum Examples.timed_game
    < currentSum (grid Examples.timed_game)
        (toggle (selectedIds Examples.timed_game) (id Examples.nine))
  ∧ selectedIds (fst (handleBlockClick false Examples.timed_game Examples.nine
                        Examples.oracle)) = []
  ∧ combo (fst (handleBlockClick false Examples.timed_game Examples.nine
                  Examples.oracle)) = 0
  ∧ grid (fst (handleBlockClick false Examples.timed_game Examples.nine
                 Examples.oracle)) = Examples.board.
Proof.
  split; [reflexivity|]. split; [reflexivity|].
  destruct (overflow_resets Examples.timed_game Examples.nine Examples.oracle
              eq_refl eq_refl) as (Hsel & Hcombo & Hgrid & _).
  exact (conj Hsel (conj Hcombo Hgrid)).
Defined.

(** ** The timer *)

(** The transition [tick] is a firing of the interval once the effect has
    run for the state. *)
Lemma tick_is_fire_after_effect s g :
  Timer.game (fst (Timer.fire (Timer.rerun s) g))
  = fst (tick (Timer.paused s) (Timer.game s) g)
  ∧ snd (Timer.fire (Timer.rerun s) g)
    = snd (tick (Timer.paused s) (Timer.game s) g).
Proof.
  unfold Timer.rerun, Timer.effect, Timer.fire, Timer.cleanup, tick.
  cbn [Timer.game Timer.paused].
  destruct (timerRunning (Timer.paused s) (Timer.game s));
    cbn [Timer.interval Timer.game Timer.paused]; [|done].
  unfold bind. by destruct (tickUpdate (Timer.game s) g).
Qed.


Lemma ticks_split n m isPaused st g :
  ticks (n + m) isPaused st g
  = let '(st1, k1, g1) := ticks n isPaused st g in
    let '(st2, k2, g2) := ticks m isPaused st1 g1 in
    (st2, (k1 + k2)%nat, g2).
Proof.
  revert st g. induction n as [|n IH]; intros st g; simpl.
  - by destruct (ticks m isPaused st g) as [[st2 k2] g2].
  - destruct (tick isPaused st g) as [st' g']. rewrite IH.
    destruct (ticks n isPaused st' g') as [[st1 k1] g1].
    destruct (ticks m isPaused st1 g1) as [[st2 k2] g2].
    by rewrite Nat.add_assoc.
Qed.

(** Counting down from 10 by the double nearest to 0.1 stays above 0 for
    100 steps and is below 0 after 101. *)
Lemma decayed_positive k :
  (k <= 100)%nat -> PrimFloat.leb (decayed k) PrimFloat.zero = false.
Proof.
  intros Hk.
  assert (Hall : forallb (fun k => negb (PrimFloat.leb (decayed k) PrimFloat.zero))
                   (seq 0 101) = true) by (vm_compute; reflexivity).
  rewrite forallb_forall in Hall.
  apply negb_true_iff, Hall, in_seq. lia.
Qed.

Lemma decayed_101_negative : PrimFloat.leb (decayed 101) PrimFloat.zero = true.
Proof. vm_compute. reflexivity. Qed.

Lemma set_timeLeft_same st t : timeLeft st = Some t -> set_timeLeft st t = st.
Proof. destruct st; simpl; intros ->; reflexivity. Qed.

Lemma tick_decays k st g :
  mode st = time -> isGameOver st = false -> timeLeft st = Some (decayed k) ->
  (k <= 100)%nat ->
  injects false st = false
  ∧ tick false st g = (set_timeLeft st (decayed (S k)), g).
Proof.
  intros Hm Hrun Ht Hk.
  unfold injects, tick, tickUpdate, timerRunning.
  rewrite Hm, Hrun, Ht, (decayed_positive k Hk). split; reflexivity.
Qed.

Lemma ticks_decay n : ∀ k st g,
  mode st = time -> isGameOver st = false -> timeLeft st = Some (decayed k) ->
  (k + n <= 101)%nat ->
  ticks n false st g = (set_timeLeft st (decayed (k + n)), 0%nat, g).
Proof.
  induction n as [|n IH]; intros k st g Hm Hrun Ht Hk.
  - simpl. rewrite Nat.add_0_r, set_timeLeft_same; done.
  - destruct (tick_decays k st g Hm Hrun Ht ltac:(lia)) as [Hinj Htick].
    cbn [ticks]. rewrite Hinj, Htick.
    rewrite (IH (S k)) by (done || lia).
    by replace (S k + n)%nat with (k + S n)%nat by lia.
Qed.

Lemma tick_time_up st t g :
  mode st = time -> isGameOver st = false -> timeLeft st = Some t ->
  PrimFloat.leb t PrimFloat.zero = true ->
  injects false st = negb (checkGameOver (grid st))
  ∧ tick false st g
    = if checkGameOver (grid st) then (set_game_over st, g)
      else (forced_row st (fst (shiftUp (grid st) g)), snd (shiftUp (grid st) g)).
Proof.
  intros Hm Hrun Ht Hle.
  unfold injects, tick, tickUpdate, timerRunning.
  rewrite Hm, Hrun, Ht, Hle. split; [reflexivity|].
  change (bool_decide (time = time)) with true. cbn [negb andb].
  destruct (checkGameOver (grid st)); [reflexivity|].
  unfold bind. destruct (shiftUp (grid st) g). reflexivity.
Qed.

(** C2, as the code has it. In time mode, from a running state with 10
    seconds left, each of the first 101 ticks only subtracts 0.1 from
    [timeLeft] (in binary64, which leaves a positive rest after 100 ticks):
    no row is injected and the combo is as before. The tick that injects the
    row is tick 102, the first to find [timeLeft] at or below 0, when row 0
    is empty: it is the one injection among the 102 ticks, and it resets the
    combo to 0. When row 0 is occupied, tick 102 ends the game instead. *)
Theorem forced_row_at_tick_102 st g :
  mode st = time -> isGameOver st = false -> timeLeft st = Some TEN ->
  (∀ n, (n <= 101)%nat ->
        ticks n false st g = (set_timeLeft st (decayed n), 0%nat, g))
  ∧ PrimFloat.ltb PrimFloat.zero (decayed 100) = true
  ∧ (checkGameOver (grid st) = false ->
     ticks 102 false st g
     = (forced_row st (fst (shiftUp (grid st) g)), 1%nat,
        snd (shiftUp (grid st) g))
     ∧ combo (fst (fst (ticks 102 false st g))) = 0)
  ∧ (checkGameOver (grid st) = true ->
     ticks 102 false st g
     = (set_game_over (set_timeLeft st (decayed 101)), 0%nat, g)).
Proof.
  intros Hm Hrun Ht.
  assert (Hdecay : ∀ n, (n <= 101)%nat ->
            ticks n false st g = (set_timeLeft st (decayed n), 0%nat, g)).
  { intros n Hn. by rewrite (ticks_decay n 0 st g). }
  split; [exact Hdecay|]. split; [vm_compute; reflexivity|].
  assert (Hlast : ticks 102 false st g
                  = let '(st2, k2, g2) :=
                      ticks 1 false (set_timeLeft st (decayed 101)) g in
                    (st2, k2, g2)).
  { change 102%nat with (101 + 1)%nat. rewrite ticks_split, Hdecay by lia.
    by destruct (ticks 1 false _ g) as [[st2 k2] g2]. }
  destruct (tick_time_up (set_timeLeft st (decayed 101)) (decayed 101) g
              Hm Hrun eq_refl decayed_101_negative) as [Hinj Htick].
  rewrite Hlast. cbn [ticks]. rewrite Hinj, Htick.
  change (grid (set_timeLeft st (decayed 101))) with (grid st).
  split; intros ->; cbn [negb]; [split|]; reflexivity.
Qed.

Lemma forced_row_at_tick_102_witness :
  mode Examples.timed_game = time
  ∧ isGameOver Examples.timed_game = false
  ∧ timeLeft Examples.timed_game = Some TEN
  ∧ checkGameOver (grid Examples.timed_game) = false
  ∧ ticks 100 false Examples.timed_game Examples.oracle
    = (set_timeLeft Examples.timed_game (decayed 100), 0%nat, Examples.oracle)
  ∧ ticks 102 false Examples.timed_game Examples.oracle
    = (forced_row Examples.timed_game
         (fst (shiftUp (grid Examples.timed_game) Examples.oracle)), 1%nat,
       snd (shiftUp (grid Examples.timed_game) Examples.oracle))
  ∧ combo (fst (fst (ticks 102 false Examples.timed_game Examples.oracle))) = 0.
Proof.
  split; [reflexivity|]. split; [reflexivity|]. split; [reflexivity|].
  split; [reflexivity|].
  destruct (forced_row_at_tick_102 Examples.timed_game Examples.oracle
              eq_refl eq_refl eq_refl) as (Hdecay & _ & Hrow & _).
  split; [apply Hdecay; repeat constructor | exact (Hrow eq_refl)].
Defined.

(** C2, as the claim has it, fails: on the example of a timed game with 10
    seconds left and a combo of 3, the 100 ticks inject no row (the count of
    injections is 0, not 1), the grid and the combo are untouched, and
    [timeLeft] is still positive. *)
Lemma hundred_ticks_inject_nothing :
  mode Examples.timed_game = time
  ∧ timeLeft Examples.timed_game = Some TEN
  ∧ snd (fst (ticks 100 false Examples.timed_game Examples.oracle)) = 0%nat
  ∧ snd (fst (ticks 100 false Examples.timed_game Examples.oracle)) ≠ 1%nat
  ∧ grid (fst (fst (ticks 100 false Examples.timed_game Examples.oracle)))
    = grid Examples.timed_game
  ∧ combo (fst (fst (ticks 100 false Examples.timed_game Examples.oracle))) = 3
  ∧ timeLeft (fst (fst (ticks 100 false Examples.timed_game Examples.oracle)))
    = Some 0x1.5280000000000p-46%float.
Proof.
  vm_compute. repeat split. discriminate.
Qed.

(** ** Random draws *)

Lemma Math_random_range g :
  0 <= fst (Math_random g) < 2 ^ PRECISION.
Proof. apply Z.mod_pos_bound. reflexivity. Qed.

Lemma fl_of_nonneg p : 0 <= p -> fl p = round53 p.
Proof.
  intros Hp. unfold fl. destruct (Z.eq_dec p 0) as [->|Hne]; [reflexivity|].
  rewrite Z.sgn_pos, Z.abs_eq by lia. lia.
Qed.

Lemma fl_nonneg p : 0 <= p -> 0 <= fl p.
Proof.
  intros Hp. rewrite fl_of_nonneg by done. unfold round53.
  destruct (Z.leb_spec (Z.log2 p - (PRECISION - 1)) 0) as [_|Hs]; [done|].
  set (s := Z.log2 p - (PRECISION - 1)) in *.
  assert (0 < 2 ^ s) by (apply Z.pow_pos_nonneg; lia).
  assert (0 <= p / 2 ^ s) by (apply Z.div_pos; lia).
  destruct (_ || _); nia.
Qed.

(** The product of a draw and a positive integer [n], rounded to a double,
    is still below [n]. *)
Lemma fl_scaled_below k n :
  0 <= k < 2 ^ PRECISION -> 1 <= n -> fl (k * n) < n * 2 ^ PRECISION.
Proof.
  intros Hk Hn. rewrite fl_of_nonneg by nia. unfold round53, PRECISION in *.
  assert (Hp : 0 <= k * n <= n * 2 ^ 53 - n) by nia.
  set (p := k * n) in *.
  destruct (Z.leb_spec (Z.log2 p - (53 - 1)) 0) as [_|Hs]; [lia|].
  assert (Hpos : 0 < p).
  { destruct (Z.eq_dec p 0) as [E|]; [|lia]. rewrite E in Hs. simpl in Hs. lia. }
  set (s := Z.log2 p - (53 - 1)) in *.
  pose proof (Z.log2_spec p Hpos) as [Hlow _].
  replace (Z.log2 p) with (s + 52) in Hlow by lia.
  rewrite Z.pow_add_r in Hlow by lia.
  assert (HP : 0 < 2 ^ s) by (apply Z.pow_pos_nonneg; lia).
  pose proof (Z.div_mod p (2 ^ s) ltac:(lia)) as Hdm.
  pose proof (Z.mod_pos_bound p (2 ^ s) HP) as Hr.
  set (P := 2 ^ s) in *. set (q := p / P) in *. set (r := p mod P) in *.
  change (2 ^ 52) with 4503599627370496 in Hlow.
  change (2 ^ 53) with 9007199254740992 in *.
  destruct ((P <? 2 * r) || ((2 * r =? P) && Z.odd q)) eqn:Hup.
  - assert (P <= 2 * r).
    { apply orb_true_iff in Hup as [H%Z.ltb_lt | [H%Z.eqb_eq _]%andb_true_iff]; lia. }
    nia.
  - nia.
Qed.

Lemma floor_scaled_range k n :
  0 <= k < 2 ^ PRECISION -> 1 <= n -> 0 <= floor_scaled k n < n.
Proof.
  intros Hk Hn. unfold floor_scaled. split.
  - apply Z.div_pos; [apply fl_nonneg; nia | reflexivity].
  - apply Z.div_lt_upper_bound; [reflexivity|].
    rewrite (Z.mul_comm (2 ^ PRECISION) n). by apply fl_scaled_below.
Qed.

(** On the samples, and for every factor from 1 to 10, [fl] is the
    product the machine computes; some of the samples need rounding. *)
Lemma fl_is_binary64_on_samples :
  forallb (fun n =>
             forallb (fun k => PrimFloat.eqb (Binary64.product k n)
                                             (Binary64.modelled k n))
                     Binary64.samples)
          [1; 2; 3; 4; 5; 6; 7; 8; 9; 10] = true
  ∧ existsb (fun k => negb (fl (k * 9) =? k * 9)) Binary64.samples = true.
Proof. split; vm_compute; reflexivity. Qed.

Lemma substring_length_le n m s :
  (String.length (String.substring n m s) <= m)%nat.
Proof.
  revert n m. induction s as [|a s IH]; intros [|n] [|m]; simpl; try lia.
  - specialize (IH 0%nat m). lia.
  - apply (IH n 0%nat).
  - apply (IH n (S m)).
Qed.

(** What [createBlock] returns when the value is omitted: the first draw
    makes the id, the second the value. *)
Lemma createBlock_draws r c g :
  createBlock r c None g
  = (mkBlock (toString36_substring_2_9 g (tape g (cursor g) mod 2 ^ PRECISION))
             (floor_scaled (tape g (S (cursor g)) mod 2 ^ PRECISION)
                           (MAX_VALUE - MIN_VALUE + 1) + MIN_VALUE)
             r c None,
     mkRng (tape g) (S (S (cursor g))) (radix36 g)).
Proof. reflexivity. Qed.

Lemma createBlock_value_range r c g :
  value_ok (fst (createBlock r c None g)).
Proof.
  rewrite createBlock_draws. unfold value_ok. cbn [fst value].
  pose proof (floor_scaled_range (tape g (S (cursor g)) mod 2 ^ PRECISION)
                (MAX_VALUE - MIN_VALUE + 1)
                (Z.mod_pos_bound _ (2 ^ PRECISION) eq_refl) ltac:(done)).
  unfold MAX_VALUE, MIN_VALUE in *. lia.
Qed.

(** C7, as the code has it. The id of a block made by [createBlock] is
    the characters 2 to 8 of what the runtime prints for one random draw,
    at most seven of them, and nothing else: no record of the ids given out
    is kept, and on one runtime the blocks of two calls whose draws are
    equal have the same id. The value, when the argument is omitted, is
    between 1 and 9, and the block is at the row and column asked for. *)
Theorem createBlock_id_and_value r c g :
  let b := fst (createBlock r c None g) in
  id b = toString36_substring_2_9 g (fst (Math_random g))
  ∧ (String.length (id b) <= 7)%nat
  ∧ (∀ r' c' g',
       radix36 g' = radix36 g ->
       fst (Math_random g') = fst (Math_random g) ->
       id (fst (createBlock r' c' None g')) = id b)
  ∧ MIN_VALUE <= value b <= MAX_VALUE
  ∧ row b = r ∧ col b = c.
Proof.
  intros b. subst b. rewrite createBlock_draws. cbn [fst id value row col].
  split; [reflexivity|]. split; [apply substring_length_le|]. split.
  { intros r' c' g' Hprint Hdraw. rewrite createBlock_draws. cbn [fst id].
    cbn [Math_random fst] in Hdraw. unfold toString36_substring_2_9.
    unfold Number_toString36. by rewrite Hprint, Hdraw. }
  split; [|done].
  pose proof (createBlock_value_range r c g) as Hv.
  by rewrite createBlock_draws in Hv.
Qed.

(** C7, as the claim has it, fails: in the game started on draws that are
    all different, just above one half, and printed digit by digit, the
    blocks of the bottom row all have the id ["i000000"]. *)
Lemma initGame_ids_collide :
  tape Examples.halves 0 ≠ tape Examples.halves 2
  ∧ cell (grid (fst (initGame classic None Examples.halves))) 9 0
    = Some (mkBlock "i000000" 5 9 0 None)
  ∧ cell (grid (fst (initGame classic None Examples.halves))) 9 1
    = Some (mkBlock "i000000" 5 9 1 None).
Proof.
  split; [discriminate|]. vm_compute. split; reflexivity.
Qed.

Lemma createBlock_id_and_value_witness :
  radix36 (mkRng (tape Examples.repeating) 2 exact36) = radix36 Examples.repeating
  ∧ fst (Math_random (mkRng (tape Examples.repeating) 2 exact36))
    = fst (Math_random Examples.repeating)
  ∧ id (fst (createBlock 9 1 None (mkRng (tape Examples.repeating) 2 exact36)))
    = id (fst (createBlock 9 0 None Examples.repeating)).
Proof.
  split; [reflexivity|]. split; [reflexivity|].
  exact (proj1 (proj2 (proj2 (createBlock_id_and_value 9 0 Examples.repeating)))
           9%nat 1%nat (mkRng (tape Examples.repeating) 2 exact36)
           eq_refl eq_refl).
Defined.

(** ** The shape of the grid is kept *)

Lemma createEmptyGrid_shape : grid_shape createEmptyGrid.
Proof. split; [reflexivity | repeat constructor]. Qed.

Lemma set_cell_shape g r c x : grid_shape g -> grid_shape (set_cell g r c x).
Proof.
  intros [Hrows Hcols]. unfold set_cell.
  destruct (g !! r) as [cells|] eqn:Hr; [|done].
  split; [by rewrite length_insert|].
  apply Forall_insert; [done|]. rewrite length_insert.
  by eapply (Forall_lookup_1 _ _ _ _ Hcols).
Qed.

Lemma foldl_shape {A} (f : Grid -> A -> Grid) (l : list A) g :
  (∀ g' x, grid_shape g' -> grid_shape (f g' x)) ->
  grid_shape g -> grid_shape (foldl f g l).
Proof.
  intros Hf. revert g. induction l as [|x l IH]; intros g Hg; simpl; auto.
Qed.

Lemma gravity_col_shape g newGrid c :
  grid_shape newGrid -> grid_shape (gravity_col g newGrid c).
Proof.
  unfold gravity_col. generalize (GRID_ROWS - 1)%nat as t.
  generalize rows_bottom_up as rs. intros rs. revert newGrid.
  induction rs as [|r rs IH]; intros newGrid t Hshape; simpl; [done|].
  destruct (cell g r c); [|by apply IH].
  by apply IH, set_cell_shape.
Qed.

Lemma applyGravity_shape g : grid_shape (applyGravity g).
Proof.
  apply foldl_shape; [|apply createEmptyGrid_shape].
  intros; by apply gravity_col_shape.
Qed.

Lemma shiftUp_shape g rng : grid_shape (fst (shiftUp g rng)).
Proof.
  unfold shiftUp, bind. destruct (generateRow _ rng) as [bottomRow rng'].
  cbn [ret fst]. apply foldl_shape.
  { intros; by apply set_cell_shape. }
  apply foldl_shape; [|apply createEmptyGrid_shape].
  intros g' r Hg'. apply foldl_shape; [|done].
  intros g'' c Hg''. unfold shift_cell.
  destruct (cell g r c); [by apply set_cell_shape | done].
Qed.

Lemma fill_initial_shape ixs : ∀ g rng,
  grid_shape g -> grid_shape (fst (fill_initial g ixs rng)).
Proof.
  induction ixs as [|i ixs IH]; intros g rng Hg; [done|].
  cbn [fill_initial]. unfold bind.
  destruct (generateRow _ rng) as [newRow rng'].
  apply IH, foldl_shape; [|done].
  intros; by apply set_cell_shape.
Qed.

Lemma initGame_shape m saved rng : grid_shape (grid (fst (initGame m saved rng))).
Proof.
  unfold initGame, bind.
  pose proof (fill_initial_shape (seq 0 INITIAL_ROWS) createEmptyGrid rng
                createEmptyGrid_shape) as Hfill.
  destruct (fill_initial _ _ rng) as [g rng1].
  destruct (getTargetSum 1 rng1) as [t rng2]. exact Hfill.
Qed.

Lemma settle_shape m g rng :
  grid_shape g -> grid_shape (fst (fst (settle m g rng))).
Proof.
  intros Hg. unfold settle. destruct m; [|done].
  destruct (checkGameOver g); [done|].
  unfold bind. pose proof (shiftUp_shape g rng) as Hs.
  by destruct (shiftUp g rng).
Qed.

Lemma handleBlockClick_shape isPaused st block rng :
  grid_shape (grid st) ->
  grid_shape (grid (fst (handleBlockClick isPaused st block rng))).
Proof.
  intros Hg. unfold handleBlockClick.
  destruct (isGameOver st || isPaused); [done|].
  destruct (_ =? _); [|by destruct (_ <? _)].
  rewrite success_state. fields. apply settle_shape, applyGravity_shape.
Qed.

Lemma tick_shape isPaused st rng :
  grid_shape (grid st) -> grid_shape (grid (fst (tick isPaused st rng))).
Proof.
  intros Hg. unfold tick. destruct (timerRunning isPaused st); [|done].
  unfold tickUpdate. destruct (timeLeft st) as [t|]; [|done].
  destruct (PrimFloat.leb t PrimFloat.zero); [|done].
  destruct (checkGameOver (grid st)); [done|].
  unfold bind. pose proof (shiftUp_shape (grid st) rng) as Hs.
  by destruct (shiftUp (grid st) rng).
Qed.

(** C9. In every state reachable from [initGame] by clicks and ticks, the
    grid has 10 rows and each row has 6 cells. *)
Theorem reachable_grid_shape st :
  reachable st ->
  length (grid st) = GRID_ROWS ∧ GRID_ROWS = 10%nat
  ∧ (∀ cells, cells ∈ grid st -> length cells = GRID_COLS)
  ∧ GRID_COLS = 6%nat.
Proof.
  intros Hreach.
  assert (Hshape : grid_shape (grid st)).
  { induction Hreach;
      [apply initGame_shape | by apply handleBlockClick_shape | by apply tick_shape]. }
  destruct Hshape as [Hrows Hcols]. rewrite Forall_forall in Hcols. done.
Qed.

Lemma reachable_grid_shape_witness :
  reachable (fst (handleBlockClick false
                    (fst (tick false (fst (initGame time None Examples.oracle))
                            Examples.oracle))
                    Examples.six Examples.oracle))
  ∧ length (grid (fst (handleBlockClick false
                         (fst (tick false (fst (initGame time None Examples.oracle))
                                 Examples.oracle))
                         Examples.six Examples.oracle))) = 10%nat.
Proof.
  assert (Hreach : reachable
            (fst (handleBlockClick false
                    (fst (tick false (fst (initGame time None Examples.oracle))
                            Examples.oracle))
                    Examples.six Examples.oracle)))
    by (apply reach_click, reach_tick, reach_init).
  split; [exact Hreach|].
  exact (proj1 (reachable_grid_shape _ Hreach)).
Defined.

(** ** Reading and writing cells *)

Lemma cell_set_cell g r c x r' c' :
  grid_shape g -> (r < GRID_ROWS)%nat -> (c < GRID_COLS)%nat ->
  cell (set_cell g r c (Some x)) r' c'
  = if decide (r' = r ∧ c' = c) then Some x else cell g r' c'.
Proof.
  intros [Hrows Hcols] Hr Hc. unfold set_cell, cell.
  destruct (lookup_lt_is_Some_2 g r ltac:(lia)) as [cells Hcells].
  rewrite Hcells.
  assert (Hlen : length cells = GRID_COLS)
    by apply (Forall_lookup_1 _ _ _ _ Hcols Hcells).
  destruct (decide (r' = r)) as [->|Hne].
  - rewrite list_lookup_insert_eq by lia.
    destruct (decide (c' = c)) as [->|Hnc].
    + rewrite list_lookup_insert_eq by lia. by rewrite decide_True.
    + rewrite list_lookup_insert_ne by done. rewrite Hcells.
      rewrite decide_False; [done | tauto].
  - rewrite list_lookup_insert_ne by done.
    rewrite decide_False; [done | tauto].
Qed.

Lemma cell_createEmptyGrid r c : cell createEmptyGrid r c = None.
Proof.
  unfold cell, createEmptyGrid.
  destruct (replicate GRID_ROWS _ !! r) as [cells|] eqn:Hr; [|done].
  apply lookup_replicate in Hr as [-> _].
  destruct (replicate GRID_COLS _ !! c) as [x|] eqn:Hc; [|done].
  by apply lookup_replicate in Hc as [-> _].
Qed.

(** Two grids of the right shape with the same blocks in the same cells
    are the same grid. *)
Lemma grid_ext g h :
  grid_shape g -> grid_shape h ->
  (∀ r c, (r < GRID_ROWS)%nat -> (c < GRID_COLS)%nat -> cell g r c = cell h r c) ->
  g = h.
Proof.
  intros [Hg Hgc] [Hh Hhc] Hcell.
  apply list_eq_same_length with GRID_ROWS; [done..|].
  intros r cells cells' Hr Hcells Hcells'.
  assert (Hl : length cells = GRID_COLS)
    by apply (Forall_lookup_1 _ _ _ _ Hgc Hcells).
  assert (Hl' : length cells' = GRID_COLS)
    by apply (Forall_lookup_1 _ _ _ _ Hhc Hcells').
  apply list_eq_same_length with GRID_COLS; [done..|].
  intros c x y Hc Hx Hy.
  specialize (Hcell r c Hr Hc). unfold cell in Hcell.
  rewrite Hcells, Hcells', Hx, Hy in Hcell.
  destruct x, y; congruence.
Qed.

(** ** The loops of [applyGravity] *)

(** The inner loop writes the blocks it meets one above the other. *)
Lemma gravity_steps g c rs : ∀ newGrid t,
  foldl (gravity_step g c) (newGrid, t) rs
  = (stack c newGrid t (omap (fun r => cell g r c) rs),
     (t - length (omap (fun r => cell g r c) rs))%nat).
Proof.
  induction rs as [|r rs IH]; intros newGrid t.
  - simpl. by rewrite Nat.sub_0_r.
  - change (omap (fun r => cell g r c) (r :: rs))
      with (match cell g r c with
            | Some b => b :: omap (fun r => cell g r c) rs
            | None => omap (fun r => cell g r c) rs
            end).
    cbn [foldl gravity_step]. destruct (cell g r c) as [b|]; rewrite IH; [|done].
    cbn [stack length]. f_equal. lia.
Qed.

Lemma cell_stack c bs : ∀ newGrid t r c',
  grid_shape newGrid -> (c < GRID_COLS)%nat -> (t < GRID_ROWS)%nat ->
  (length bs <= S t)%nat ->
  cell (stack c newGrid t bs) r c'
  = match (if decide (c' = c ∧ (r <= t)%nat) then bs !! (t - r)%nat else None) with
    | Some b => Some (restamp b r c)
    | None => cell newGrid r c'
    end.
Proof.
  induction bs as [|b bs IH]; intros newGrid t r c' Hshape Hc Ht Hlen.
  - cbn [stack]. by destruct (decide _).
  - cbn [stack]. cbn [length] in Hlen. destruct t as [|t].
    + destruct bs; [|simpl in Hlen; lia]. cbn [stack].
      rewrite cell_set_cell by done.
      destruct (decide (r = 0%nat ∧ c' = c)) as [[-> ->]|Hne].
      * by rewrite decide_True.
      * destruct (decide (c' = c ∧ (r <= 0)%nat)) as [[-> Hr]|]; [|done].
        exfalso. apply Hne. split; [lia | done].
    + replace (S t - 1)%nat with t by lia.
      rewrite IH by (try apply set_cell_shape; done || lia).
      rewrite cell_set_cell by done.
      destruct (decide (c' = c ∧ (r <= S t)%nat)) as [[-> Hr]|Hout].
      * destruct (decide (r = S t)) as [->|Hlow].
        -- rewrite (decide_False (P := c = c ∧ (S t <= t)%nat)) by lia.
           rewrite (decide_True (P := S t = S t ∧ c = c)) by done.
           by rewrite Nat.sub_diag.
        -- rewrite (decide_True (P := c = c ∧ (r <= t)%nat)) by (split; [done | lia]).
           rewrite (decide_False (P := r = S t ∧ c = c)) by tauto.
           replace (S t - r)%nat with (S (t - r)) by lia.
           change ((b :: bs) !! S (t - r)) with (bs !! (t - r)%nat).
           done.
      * rewrite (decide_False (P := c' = c ∧ (r <= t)%nat))
          by (intros [? ?]; apply Hout; split; [done | lia]).
        rewrite (decide_False (P := r = S t ∧ c' = c))
          by (intros [? ?]; apply Hout; split; [done | lia]).
        done.
Qed.

Lemma omap_length_le {A B} (f : A -> option B) (l : list A) :
  (length (omap f l) <= length l)%nat.
Proof.
  induction l as [|x l IH]; [done|]. csimpl. destruct (f x); simpl; lia.
Qed.

Lemma column_up_length g c : (length (column_up g c) <= GRID_ROWS)%nat.
Proof.
  unfold column_up. etrans; [apply omap_length_le|].
  unfold rows_bottom_up. by rewrite length_reverse, length_seq.
Qed.

(** The column loop fills column [c], from the bottom, with the blocks of
    column [c], and leaves the other columns as they are. *)
Lemma cell_gravity_col g newGrid c r c' :
  grid_shape newGrid -> (c < GRID_COLS)%nat -> (r < GRID_ROWS)%nat ->
  cell (gravity_col g newGrid c) r c'
  = match (if decide (c' = c) then column_up g c !! (GRID_ROWS - 1 - r)%nat
           else None) with
    | Some b => Some (restamp b r c)
    | None => cell newGrid r c'
    end.
Proof.
  intros Hshape Hc Hr. unfold gravity_col. rewrite gravity_steps. cbn [fst].
  fold (column_up g c).
  rewrite cell_stack;
    [|done|done|unfold GRID_ROWS; lia|pose proof (column_up_length g c); unfold GRID_ROWS in *; lia].
  destruct (decide (c' = c)) as [->|Hne].
  - rewrite decide_True; [done|]. split; [done | unfold GRID_ROWS in *; lia].
  - rewrite decide_False; [done | tauto].
Qed.

Lemma cell_gravity_cols g cs : ∀ newGrid r c',
  grid_shape newGrid -> Forall (fun c => (c < GRID_COLS)%nat) cs -> NoDup cs ->
  (r < GRID_ROWS)%nat ->
  cell (foldl (gravity_col g) newGrid cs) r c'
  = match (if decide (c' ∈ cs) then column_up g c' !! (GRID_ROWS - 1 - r)%nat
           else None) with
    | Some b => Some (restamp b r c')
    | None => cell newGrid r c'
    end.
Proof.
  induction cs as [|c cs IH]; intros newGrid r c' Hshape Hcs Hnd Hr.
  - cbn [foldl]. rewrite decide_False; [done | apply not_elem_of_nil].
  - cbn [foldl]. apply Forall_cons in Hcs as [Hc Hcs].
    apply NoDup_cons in Hnd as [Hnotin Hnd].
    rewrite IH by (try apply gravity_col_shape; done).
    rewrite cell_gravity_col by done.
    destruct (decide (c' ∈ cs)) as [Hin|Hnin].
    + rewrite (decide_True (P := c' ∈ c :: cs)) by (apply elem_of_cons; by right).
      rewrite (decide_False (P := c' = c)) by (intros ->; done). done.
    + destruct (decide (c' = c)) as [->|Hne].
      * rewrite (decide_True (P := c ∈ c :: cs)) by (apply elem_of_cons; by left).
        done.
      * rewrite (decide_False (P := c' ∈ c :: cs)); [done|].
        by intros [?|?]%elem_of_cons.
Qed.

(** The cells of [applyGravity g]: row [r] of column [c] holds the block
    met in position [GRID_ROWS - 1 - r] going up column [c] of [g], with its
    row and column set to [r] and [c]. *)
Lemma cell_applyGravity g r c :
  (r < GRID_ROWS)%nat -> (c < GRID_COLS)%nat ->
  cell (applyGravity g) r c
  = (fun b => restamp b r c) <$> column_up g c !! (GRID_ROWS - 1 - r)%nat.
Proof.
  intros Hr Hc. unfold applyGravity.
  rewrite cell_gravity_cols;
    [|apply createEmptyGrid_shape
     |apply Forall_forall; intros x [_ Hx]%elem_of_seq; simpl in Hx; exact Hx
     |apply NoDup_seq|done].
  rewrite decide_True by (apply elem_of_seq; simpl; lia).
  rewrite cell_createEmptyGrid. by destruct (_ !! _).
Qed.

(** ** Lists read through their indices *)

Lemma omap_fmap_compose {A B C} (f : B -> option C) (h : A -> B) (l : list A) :
  omap f (h <$> l) = omap (fun x => f (h x)) l.
Proof.
  induction l as [|x l IH]; [done|]. csimpl. by rewrite IH.
Qed.

Lemma omap_ext_in {A B} (f h : A -> option B) (l : list A) :
  (∀ x, x ∈ l -> f x = h x) -> omap f l = omap h l.
Proof.
  intros Hfh. apply list_omap_ext, Forall2_same_length_lookup_2; [done|].
  intros i x y Hx Hy. assert (x = y) as <- by congruence.
  apply Hfh. by eapply list_elem_of_lookup_2.
Qed.

Lemma omap_lookup_seq {A B} (l : list A) : ∀ (f : nat -> A -> B) n,
  (length l <= n)%nat ->
  omap (fun i => f i <$> l !! i) (seq 0 n) = imap f l.
Proof.
  induction l as [|x l IH]; intros f n Hn.
  - clear Hn. induction (seq 0 n) as [|i is' IHs]; [done|]. by csimpl.
  - destruct n as [|n]; [simpl in Hn; lia|].
    rewrite imap_cons. cbn [seq]. csimpl. f_equal.
    rewrite <- fmap_S_seq, omap_fmap_compose.
    apply (IH (f ∘ S)). simpl in Hn. lia.
Qed.

Lemma reverse_seq_0 n : reverse (seq 0 n) = (fun i => (n - 1 - i)%nat) <$> seq 0 n.
Proof.
  apply list_eq. intros i. rewrite list_lookup_fmap.
  destruct (decide (i < n)%nat) as [Hi|Hi].
  - rewrite reverse_lookup by (by rewrite length_seq).
    rewrite length_seq, !lookup_seq_lt by lia. simpl. f_equal. lia.
  - rewrite lookup_ge_None_2 by (rewrite length_reverse, length_seq; lia).
    by rewrite lookup_seq_ge by lia.
Qed.

(** The same column read from the top, through the rows of the grid. *)
Lemma column_up_alt g c :
  column_up g c
  = omap (fun i => cell g (GRID_ROWS - 1 - i) c) (seq 0 GRID_ROWS).
Proof.
  unfold column_up, rows_bottom_up. by rewrite reverse_seq_0, omap_fmap_compose.
Qed.

(** ** Gravity *)

(** After gravity a column holds the same blocks in the same order, each
    stamped with the cell it is in. *)
Lemma column_up_applyGravity g c :
  (c < GRID_COLS)%nat ->
  column_up (applyGravity g) c
  = imap (fun i b => restamp b (GRID_ROWS - 1 - i) c) (column_up g c).
Proof.
  intros Hc. rewrite column_up_alt.
  rewrite <- (omap_lookup_seq (column_up g c) _ GRID_ROWS)
    by apply column_up_length.
  apply omap_ext_in. intros i [_ Hi]%elem_of_seq. simpl in Hi.
  rewrite cell_applyGravity by (unfold GRID_ROWS in *; lia).
  replace (GRID_ROWS - 1 - (GRID_ROWS - 1 - i))%nat with i
    by (unfold GRID_ROWS in *; lia).
  done.
Qed.

Lemma applyGravity_idempotent g : applyGravity (applyGravity g) = applyGravity g.
Proof.
  apply grid_ext; [apply applyGravity_shape..|].
  intros r c Hr Hc. rewrite !cell_applyGravity by done.
  rewrite column_up_applyGravity by done. rewrite list_lookup_imap.
  destruct (column_up g c !! (GRID_ROWS - 1 - r)%nat) as [b|]; done.
Qed.

(** ** The blocks of a grid, column by column *)

Lemma omap_seq_lookup {A B} (F : A -> option B) (l : list A) :
  omap (fun i => l !! i ≫= F) (seq 0 (length l)) = omap F l.
Proof.
  induction l as [|x l IH]; [done|].
  cbn [length seq]. rewrite <- fmap_S_seq.
  assert (Hrest : omap (fun i => (x :: l) !! i ≫= F) (S <$> seq 0 (length l))
                  = omap F l).
  { etrans; [apply omap_fmap_compose | exact IH]. }
  csimpl. rewrite Hrest. done.
Qed.

Lemma Permutation_of_eq {A} (l k : list A) : l = k -> l ≡ₚ k.
Proof. by intros ->. Qed.

Lemma cell_at_col g r c : cell g r c = g !! r ≫= at_col c.
Proof. unfold cell, at_col. by destruct (g !! r). Qed.

Lemma column_up_down g c :
  length g = GRID_ROWS -> column_up g c ≡ₚ column_down g c.
Proof.
  intros Hrows. unfold column_up, rows_bottom_up, column_down.
  rewrite reverse_Permutation, <- (omap_seq_lookup (at_col c) g), Hrows.
  apply Permutation_of_eq, omap_ext_in. intros r _. apply cell_at_col.
Qed.

Lemma concat_fmap_nil {A B} (l : list A) :
  concat ((fun _ => @nil B) <$> l) = [].
Proof. induction l as [|x l IH]; [done|]. by csimpl. Qed.

Lemma concat_fmap_app {A B} (F G : A -> list B) (l : list A) :
  concat ((fun x => F x ++ G x) <$> l) ≡ₚ concat (F <$> l) ++ concat (G <$> l).
Proof.
  induction l as [|x l IH]; [done|]. csimpl. rewrite IH.
  rewrite <- !(assoc_L (++)). f_equiv.
  rewrite !(assoc_L (++)). f_equiv. apply Permutation_app_comm.
Qed.

Lemma concat_fmap_option_list {A B} (F : A -> option B) (l : list A) :
  concat ((fun x => option_list (F x)) <$> l) = omap F l.
Proof.
  induction l as [|x l IH]; [done|]. csimpl. rewrite IH. by destruct (F x).
Qed.

Lemma concat_fmap_Permutation {A B C} (h : B -> C) (F G : A -> list B) (l : list A) :
  (∀ x, x ∈ l -> h <$> F x ≡ₚ h <$> G x) ->
  h <$> concat (F <$> l) ≡ₚ h <$> concat (G <$> l).
Proof.
  induction l as [|x l IH]; intros HFG; [done|]. csimpl.
  rewrite !fmap_app. f_equiv; [apply HFG; by left|].
  apply IH. intros y Hy. apply HFG. by right.
Qed.

(** The blocks of a grid of rows of [m] cells, read row by row, are the
    blocks of its [m] columns. *)
Lemma grid_blocks_columns (g : Grid) m :
  Forall (fun cells => length cells = m) g ->
  grid_blocks g ≡ₚ concat (column_down g <$> seq 0 m).
Proof.
  unfold grid_blocks, column_down.
  induction 1 as [|cells g Hlen _ IH].
  - csimpl. by rewrite concat_fmap_nil.
  - cbn [concat]. rewrite omap_app, IH.
    rewrite (list_fmap_ext (fun c => omap (at_col c) (cells :: g))
               (fun c => option_list (at_col c cells) ++ omap (at_col c) g))
      by (intros i c _; csimpl; by destruct (at_col c cells)).
    rewrite concat_fmap_app, concat_fmap_option_list. f_equiv.
    rewrite <- Hlen, <- (omap_seq_lookup (fun x => x) cells).
    apply Permutation_of_eq, omap_ext_in. intros c _. unfold at_col.
    by destruct (cells !! c) as [[b|]|].
Qed.

Lemma fmap_label_imap_restamp (f : nat -> nat) c (bs : list Block) :
  label <$> imap (fun i b => restamp b (f i) c) bs = label <$> bs.
Proof.
  revert f. induction bs as [|b bs IH]; intros f; [done|].
  rewrite imap_cons. csimpl. f_equal. exact (IH (f ∘ S)).
Qed.

(** Gravity keeps the ids and values of the blocks, each as many times as
    it was there. *)
Lemma applyGravity_labels g :
  grid_shape g ->
  label <$> grid_blocks (applyGravity g) ≡ₚ label <$> grid_blocks g.
Proof.
  intros [Hrows Hcols].
  destruct (applyGravity_shape g) as [Hrows' Hcols'].
  rewrite (grid_blocks_columns _ _ Hcols'), (grid_blocks_columns _ _ Hcols).
  apply concat_fmap_Permutation. intros c [_ Hc]%elem_of_seq. simpl in Hc.
  rewrite <- !column_up_down by done.
  by rewrite column_up_applyGravity, fmap_label_imap_restamp.
Qed.

(** ** Gravity writes to new row arrays only *)

Lemma set_cell_length g r c x : length (set_cell g r c x) = length g.
Proof. unfold set_cell. destruct (g !! r); [apply length_insert | done]. Qed.

Lemma set_cell_alter (g : Grid) r c x :
  set_cell g r c x = alter (fun cells => <[c := x]> cells) r g.
Proof.
  unfold set_cell. apply list_eq. intros i.
  destruct (g !! r) as [cells|] eqn:Hr.
  - destruct (decide (i = r)) as [->|Hne].
    + rewrite list_lookup_insert_eq by (by eapply lookup_lt_Some).
      by rewrite list_lookup_alter_eq, Hr.
    + by rewrite list_lookup_insert_ne, list_lookup_alter_ne.
  - destruct (decide (i = r)) as [->|Hne].
    + by rewrite list_lookup_alter_eq, Hr.
    + by rewrite list_lookup_alter_ne.
Qed.

Lemma view_lookup h g r :
  Store.valid h g -> Store.view h g !! r = g !! r ≫= (fun a => h !! a).
Proof.
  unfold Store.valid, Store.view. intros Hvalid. revert r.
  induction Hvalid as [|a g Ha _ IH]; intros r; [done|].
  destruct (lookup_lt_is_Some_2 h a Ha) as [cells Hcells].
  change (omap (fun a => h !! a) (a :: g))
    with (match h !! a with
          | Some x => x :: omap (fun a => h !! a) g
          | None => omap (fun a => h !! a) g
          end).
  rewrite Hcells. destruct r as [|r]; [|apply IH].
  symmetry. exact Hcells.
Qed.

Lemma view_of_rows (h : Store.Heap) (l : Store.GridRef) (G : Grid) :
  Forall2 (fun a cells => h !! a = Some cells) l G -> Store.view h l = G.
Proof.
  unfold Store.view. induction 1 as [|a cells l G Hhead _ IH]; [done|].
  change (omap (fun a => h !! a) (a :: l))
    with (match h !! a with
          | Some x => x :: omap (fun a => h !! a) l
          | None => omap (fun a => h !! a) l
          end).
  rewrite Hhead. by f_equal.
Qed.

(** A new grid's rows are the arrays after those of the store [h]. *)
Lemma view_fresh (h : Store.Heap) (G : Grid) :
  Store.view (h ++ G) (seq (length h) (length G)) = G.
Proof.
  apply view_of_rows, Forall2_same_length_lookup_2; [by rewrite length_seq|].
  intros j a cells Ha Hcells. apply lookup_seq in Ha as [-> _].
  by rewrite lookup_app_r, Nat.add_comm, Nat.add_sub by lia.
Qed.

Lemma read_old h (G : Grid) g r c :
  Store.valid h g -> Store.read (h ++ G) g r c = cell (Store.view h g) r c.
Proof.
  intros Hvalid. unfold Store.read.
  rewrite cell_at_col, view_lookup by done.
  destruct (g !! r) as [a|] eqn:Ha; [|done].
  assert (a < length h)%nat by apply (Forall_lookup_1 _ _ _ _ Hvalid Ha).
  rewrite lookup_app_l by done. cbn [mbind option_bind].
  by destruct (h !! a).
Qed.

Lemma write_new (h : Store.Heap) (G : Grid) n r c x :
  length G = n ->
  Store.write (h ++ G) (seq (length h) n) r c x = h ++ set_cell G r c x.
Proof.
  intros <-. unfold Store.write. rewrite set_cell_alter.
  destruct (decide (r < length G)%nat) as [Hr|Hr].
  - rewrite lookup_seq_lt by done. by rewrite alter_app_r.
  - rewrite lookup_seq_ge by lia. f_equal. apply list_eq. intros i.
    destruct (decide (i = r)) as [->|Hne].
    + rewrite list_lookup_alter_eq. by rewrite lookup_ge_None_2 by lia.
    + by rewrite list_lookup_alter_ne.
Qed.

(** On a store [h ++ G] whose new grid is [G], the loops of [applyGravity]
    leave [h] alone and do to [G] what they do to [newGrid] above. *)
Lemma store_gravity_steps h g c rs : ∀ (G : Grid) t,
  Store.valid h g -> length G = GRID_ROWS ->
  foldl (Store.gravity_step g (seq (length h) GRID_ROWS) c) (h ++ G, t) rs
  = (h ++ fst (foldl (gravity_step (Store.view h g) c) (G, t) rs),
     snd (foldl (gravity_step (Store.view h g) c) (G, t) rs)).
Proof.
  induction rs as [|r rs IH]; intros G t Hvalid HG; [done|].
  cbn [foldl Store.gravity_step gravity_step].
  rewrite read_old by done.
  destruct (cell (Store.view h g) r c) as [b|]; [|by apply IH].
  rewrite write_new by done.
  apply IH; [done|]. by rewrite set_cell_length.
Qed.

Lemma store_gravity_col h g (G : Grid) c :
  Store.valid h g -> grid_shape G ->
  Store.gravity_col g (seq (length h) GRID_ROWS) (h ++ G) c
  = h ++ gravity_col (Store.view h g) G c.
Proof.
  intros Hvalid [HG _]. unfold Store.gravity_col, gravity_col.
  by rewrite store_gravity_steps.
Qed.

Lemma store_gravity_cols h g cs : ∀ G : Grid,
  Store.valid h g -> grid_shape G ->
  foldl (Store.gravity_col g (seq (length h) GRID_ROWS)) (h ++ G) cs
  = h ++ foldl (gravity_col (Store.view h g)) G cs.
Proof.
  induction cs as [|c cs IH]; intros G Hvalid HG; [done|].
  cbn [foldl]. rewrite store_gravity_col by done.
  apply IH; [done|]. by apply gravity_col_shape.
Qed.

Lemma store_applyGravity h g :
  Store.valid h g ->
  Store.applyGravity g h
  = (seq (length h) GRID_ROWS, h ++ applyGravity (Store.view h g)).
Proof.
  intros Hvalid. unfold Store.applyGravity, Store.createEmptyGrid, applyGravity.
  f_equal. apply (store_gravity_cols h g _ createEmptyGrid Hvalid).
  apply createEmptyGrid_shape.
Qed.

Lemma examples_floating_shape : grid_shape Examples.floating.
Proof. split; [reflexivity | repeat constructor]. Qed.

Lemma examples_heap_valid : Store.valid Examples.heap Examples.floating_ref.
Proof.
  unfold Store.valid. apply Forall_forall. intros a [_ Ha]%elem_of_seq.
  change (a < 11)%nat. unfold GRID_ROWS in Ha. lia.
Qed.

(** C8. For a grid of [GRID_ROWS] rows of [GRID_COLS] cells, applying
    gravity twice gives what applying it once gives, and the ids and values
    of the blocks after gravity are those before it, each as many times.
    Gravity does not write to its input: run on a store in which the rows of
    the grid are arrays, it changes no array of that store (the rows of the
    input among them) and returns a grid of new arrays, which holds the
    result. *)
Theorem applyGravity_idempotent_conservative g :
  grid_shape g ->
  applyGravity (applyGravity g) = applyGravity g
  ∧ label <$> grid_blocks (applyGravity g) ≡ₚ label <$> grid_blocks g
  ∧ (∀ h gref,
       Store.valid h gref -> Store.view h gref = g ->
       (∀ a, (a < length h)%nat ->
             snd (Store.applyGravity gref h) !! a = h !! a)
       ∧ Store.view (snd (Store.applyGravity gref h)) gref = g
       ∧ Store.view (snd (Store.applyGravity gref h))
                    (fst (Store.applyGravity gref h))
         = applyGravity g).
Proof.
  intros Hshape. split; [apply applyGravity_idempotent|].
  split; [by apply applyGravity_labels|].
  intros h gref Hvalid <-. rewrite store_applyGravity by done. cbn [fst snd].
  split; [|split].
  - intros a Ha. by apply lookup_app_l.
  - unfold Store.view. apply omap_ext_in. intros a Ha.
    apply lookup_app_l. unfold Store.valid in Hvalid.
    rewrite Forall_forall in Hvalid. by apply Hvalid.
  - destruct (applyGravity_shape (Store.view h gref)) as [Hrows _].
    rewrite <- Hrows. apply view_fresh.
Qed.

Lemma applyGravity_idempotent_conservative_witness :
  grid_shape Examples.floating
  ∧ cell (applyGravity Examples.floating) 7 0 = Some (restamp Examples.four 7 0)
  ∧ applyGravity (applyGravity Examples.floating) = applyGravity Examples.floating
  ∧ label <$> grid_blocks (applyGravity Examples.floating)
    ≡ₚ label <$> grid_blocks Examples.floating
  ∧ Store.valid Examples.heap Examples.floating_ref
  ∧ Store.view Examples.heap Examples.floating_ref = Examples.floating
  ∧ Store.view (snd (Store.applyGravity Examples.floating_ref Examples.heap))
               Examples.floating_ref
    = Examples.floating.
Proof.
  destruct (applyGravity_idempotent_conservative Examples.floating
              examples_floating_shape) as (Hidem & Hperm & Hstore).
  destruct (Hstore Examples.heap Examples.floating_ref examples_heap_valid eq_refl)
    as (_ & Hinput & _).
  split; [apply examples_floating_shape|]. split; [reflexivity|].
  split; [exact Hidem|]. split; [exact Hperm|].
  split; [apply examples_heap_valid|]. split; [reflexivity | exact Hinput].
Defined.

(** ** The numbers of a game in progress *)

Lemma foldl_preserves {S A} (Q : S -> Prop) (f : S -> A -> S) (l : list A) s :
  (∀ s' x, Q s' -> Q (f s' x)) -> Q s -> Q (foldl f s l).
Proof.
  intros Hf. revert s. induction l as [|x l IH]; intros s Hs; simpl; auto.
Qed.

Lemma values_ok_createEmptyGrid : values_ok createEmptyGrid.
Proof. repeat constructor. Qed.

Lemma values_ok_set_cell g r c x :
  values_ok g -> from_option value_ok True x -> values_ok (set_cell g r c x).
Proof.
  intros Hg Hx. unfold set_cell.
  destruct (g !! r) as [cells|] eqn:Hr; [|done].
  apply Forall_insert; [done|]. apply Forall_insert; [|done].
  apply (Forall_lookup_1 _ _ _ _ Hg Hr).
Qed.

Lemma values_ok_cell g r c b : values_ok g -> cell g r c = Some b -> value_ok b.
Proof.
  intros Hg. unfold cell.
  destruct (g !! r) as [cells|] eqn:Hr; [|done].
  destruct (cells !! c) as [[b'|]|] eqn:Hc; [|done..].
  intros [= <-].
  pose proof (Forall_lookup_1 _ _ _ _ Hg Hr) as Hcells.
  apply (Forall_lookup_1 _ _ _ _ Hcells Hc).
Qed.

Lemma values_ok_applyGravity g : values_ok g -> values_ok (applyGravity g).
Proof.
  intros Hg. unfold applyGravity.
  apply (foldl_preserves values_ok); [|apply values_ok_createEmptyGrid].
  intros newGrid c HnewGrid. unfold gravity_col.
  generalize (GRID_ROWS - 1)%nat as t. revert newGrid HnewGrid.
  induction rows_bottom_up as [|r rs IH]; intros newGrid HnewGrid t; [done|].
  cbn [foldl gravity_step]. destruct (cell g r c) as [b|] eqn:Hb; [|by apply IH].
  apply IH, values_ok_set_cell; [done|]. apply (values_ok_cell g r c b Hg Hb).
Qed.

Lemma array_from_Forall {A} (Q : A -> Prop) (f : nat -> Rand A) ixs : ∀ rng,
  (∀ i rng', Q (fst (f i rng'))) -> Forall Q (fst (array_from f ixs rng)).
Proof.
  induction ixs as [|i ixs IH]; intros rng Hf; [by constructor|].
  cbn [array_from]. unfold bind at 1. specialize (Hf i rng) as Hhead.
  destruct (f i rng) as [x rng1]. unfold bind.
  specialize (IH rng1 Hf). destruct (array_from f ixs rng1) as [xs rng2].
  by constructor.
Qed.

Lemma generateRow_values r rng :
  Forall (from_option value_ok True) (fst (generateRow r rng)).
Proof.
  apply array_from_Forall. intros c rng'. unfold bind.
  pose proof (createBlock_value_range r c rng') as Hb.
  by destruct (createBlock r c None rng').
Qed.

Lemma values_ok_put_row (newRow : list (option Block)) r g cs :
  Forall (from_option value_ok True) newRow -> values_ok g ->
  values_ok (foldl (fun g' c => set_cell g' r c (default None (newRow !! c))) g cs).
Proof.
  intros Hrow Hg. apply (foldl_preserves values_ok); [|done].
  intros g' c Hg'. apply values_ok_set_cell; [done|].
  destruct (newRow !! c) as [x|] eqn:Hc; [|done].
  apply (Forall_lookup_1 _ _ _ _ Hrow Hc).
Qed.

Lemma values_ok_shiftUp g rng : values_ok g -> values_ok (fst (shiftUp g rng)).
Proof.
  intros Hg. unfold shiftUp, bind.
  pose proof (generateRow_values (GRID_ROWS - 1) rng) as Hrow.
  destruct (generateRow _ rng) as [bottomRow rng']. cbn [ret fst] in *.
  apply (values_ok_put_row bottomRow); [done|].
  apply (foldl_preserves values_ok); [|apply values_ok_createEmptyGrid].
  intros g' r Hg'. apply (foldl_preserves values_ok); [|done].
  intros g'' c Hg''. unfold shift_cell.
  destruct (cell g r c) as [b|] eqn:Hb; [|done].
  apply values_ok_set_cell; [done|]. apply (values_ok_cell g r c b Hg Hb).
Qed.

Lemma values_ok_fill_initial ixs : ∀ g rng,
  values_ok g -> values_ok (fst (fill_initial g ixs rng)).
Proof.
  induction ixs as [|i ixs IH]; intros g rng Hg; [done|].
  cbn [fill_initial]. unfold bind.
  pose proof (generateRow_values (GRID_ROWS - 1 - i) rng) as Hrow.
  destruct (generateRow _ rng) as [newRow rng']. cbn [fst] in Hrow.
  by apply IH, (values_ok_put_row newRow).
Qed.

Lemma values_ok_remove_selected g ids :
  values_ok g -> values_ok (remove_selected g ids).
Proof.
  intros Hg. unfold remove_selected, values_ok.
  apply Forall_fmap. eapply Forall_impl; [exact Hg|].
  intros cells Hcells. apply Forall_fmap. eapply Forall_impl; [exact Hcells|].
  intros [b|] Hb; [|done]. simpl. by destruct (includes ids (id b)).
Qed.

Lemma values_ok_settle m g rng :
  values_ok g -> values_ok (fst (fst (settle m g rng))).
Proof.
  intros Hg. unfold settle. destruct m; [|done].
  destruct (checkGameOver g); [done|].
  unfold bind. pose proof (values_ok_shiftUp g rng Hg) as Hs.
  by destruct (shiftUp g rng).
Qed.

Lemma row_find_value cells i b :
  Forall (from_option value_ok True) cells -> row_find cells i = Some b ->
  value_ok b.
Proof.
  induction 1 as [|[b'|] cells Hhead _ IH]; [done| |by apply IH].
  cbn [row_find]. destruct (String.eqb (id b') i); [|by apply IH].
  by intros [= <-].
Qed.

Lemma find_block_value g i b :
  values_ok g -> find_block g i = Some b -> value_ok b.
Proof.
  induction 1 as [|cells g Hcells _ IH]; [done|].
  cbn [find_block]. destruct (row_find cells i) as [b'|] eqn:Hrow; [|by apply IH].
  intros [= <-]. by eapply row_find_value.
Qed.

Lemma foldl_sum_shift (bs : list Block) : ∀ a,
  foldl (fun acc b => acc + value b) a bs
  = a + foldl (fun acc b => acc + value b) 0 bs.
Proof.
  induction bs as [|b bs IH]; intros a; simpl; [lia|].
  rewrite (IH (a + value b)), (IH (0 + value b)). lia.
Qed.

Lemma currentSum_cons g i ids :
  currentSum g (i :: ids)
  = from_option value 0 (find_block g i) + currentSum g ids.
Proof.
  unfold currentSum, selectedBlocks.
  change (omap (find_block g) (i :: ids))
    with (match find_block g i with
          | Some b => b :: omap (find_block g) ids
          | None => omap (find_block g) ids
          end).
  destruct (find_block g i) as [b|]; simpl; [|done].
  apply foldl_sum_shift.
Qed.

(** Taking ids out of a selection does not raise its sum. *)
Lemma currentSum_filter g (Q : string -> Prop) `{∀ x, Decision (Q x)} ids :
  values_ok g ->
  0 <= currentSum g (filter Q ids) <= currentSum g ids.
Proof.
  intros Hg. induction ids as [|i ids IH]; [done|].
  assert (Hi : 0 <= from_option value 0 (find_block g i)).
  { destruct (find_block g i) as [b|] eqn:Hb; [|done].
    pose proof (find_block_value g i b Hg Hb) as Hv.
    unfold value_ok, MIN_VALUE in Hv. simpl. lia. }
  rewrite filter_cons, currentSum_cons.
  destruct (decide (Q i)); [rewrite currentSum_cons|]; lia.
Qed.

Lemma getTargetSum_at_least_10 lvl rng :
  1 <= lvl -> 10 <= fst (getTargetSum lvl rng).
Proof.
  intros Hlvl. unfold getTargetSum, bind. cbn [Math_random ret fst].
  pose proof (floor_scaled_range (tape rng (cursor rng) mod 2 ^ PRECISION)
                (Z.min lvl 10) (Z.mod_pos_bound _ (2 ^ PRECISION) eq_refl)
                ltac:(lia)).
  lia.
Qed.

Lemma in_play_init m saved rng : in_play (fst (initGame m saved rng)).
Proof.
  unfold initGame, bind.
  pose proof (values_ok_fill_initial (seq 0 INITIAL_ROWS) createEmptyGrid rng
                values_ok_createEmptyGrid) as Hfill.
  destruct (fill_initial _ _ rng) as [g rng1].
  pose proof (getTargetSum_at_least_10 1 rng1 ltac:(done)) as Ht.
  destruct (getTargetSum 1 rng1) as [t rng2]. cbn [fst ret] in *.
  unfold in_play. fields. change (currentSum g []) with 0.
  repeat apply conj; (done || lia).
Qed.

Lemma in_play_success prev ids rng :
  in_play prev -> in_play (fst (success prev ids rng)).
Proof.
  intros (Hvalues & Hsum & Htarget & Hlevel & Hscore & Hcombo).
  rewrite success_state. unfold in_play. fields.
  set (fg := settle _ _ rng).
  pose proof (getTargetSum_at_least_10 (level prev) (snd fg) Hlevel) as Ht.
  assert (Hpoints : 0 <= points prev ids) by (unfold points; nia).
  change (currentSum (fst (fst fg)) []) with 0.
  split; [by apply values_ok_settle, values_ok_applyGravity,
             values_ok_remove_selected|].
  split; [lia|]. split; [done|].
  split; [|lia].
  assert (0 <= (score prev + points prev ids) / 1000)
    by (apply Z.div_pos; lia).
  lia.
Qed.

Lemma in_play_click isPaused st block rng :
  in_play st -> in_play (fst (handleBlockClick isPaused st block rng)).
Proof.
  intros Hst. unfold handleBlockClick.
  destruct (isGameOver st || isPaused); [done|].
  destruct (Z.eqb_spec (currentSum (grid st) (toggle (selectedIds st) (id block)))
                       (targetSum st)) as [_|Hne]; [by apply in_play_success|].
  destruct Hst as (Hvalues & Hsum & Htarget & Hlevel & Hscore & Hcombo).
  destruct (Z.ltb_spec (targetSum st)
                       (currentSum (grid st) (toggle (selectedIds st) (id block))));
    unfold in_play; cbn [fst ret]; unfold exceeded, select; fields.
  - change (currentSum (grid st) []) with 0. repeat apply conj; (done || lia).
  - repeat apply conj; (done || lia).
Qed.

Lemma in_play_tick isPaused st rng :
  in_play st -> in_play (fst (tick isPaused st rng)).
Proof.
  intros Hst. unfold tick. destruct (timerRunning isPaused st); [|done].
  unfold tickUpdate. destruct (timeLeft st) as [t|]; [|done].
  destruct (PrimFloat.leb t PrimFloat.zero); [|done].
  destruct (checkGameOver (grid st)); [done|].
  destruct Hst as (Hvalues & Hsum & Htarget & Hlevel & Hscore & Hcombo).
  unfold bind. pose proof (values_ok_shiftUp (grid st) rng Hvalues) as Hs.
  destruct (shiftUp (grid st) rng) as [newGrid rng'].
  unfold in_play. cbn [fst ret]. unfold forced_row. fields.
  change (currentSum newGrid []) with 0. repeat apply conj; (done || lia).
Qed.

Lemma reachable_in_play st : reachable st -> in_play st.
Proof.
  induction 1; [apply in_play_init | by apply in_play_click | by apply in_play_tick].
Qed.

(** In a state reached by play, the selection without one of its blocks
    sums to less than the target: there the click on a selected block never
    finds the sum at the target. *)
Lemma reachable_deselect_below_target st block :
  reachable st ->
  currentSum (grid st) (filter (fun x => x ≠ id block) (selectedIds st))
  < targetSum st.
Proof.
  intros (Hvalues & Hsum & _)%reachable_in_play.
  pose proof (currentSum_filter (grid st) (fun x => x ≠ id block)
                (selectedIds st) Hvalues).
  lia.
Qed.

(** * More of the grid generator and of the state machine *)

(** ** Cells in range *)

Lemma cell_in_cols h r c b :
  grid_shape h -> cell h r c = Some b -> (c < GRID_COLS)%nat.
Proof.
  intros [_ Hcols] Hb. unfold cell in Hb.
  destruct (h !! r) as [cells|] eqn:Hcells; [|done].
  pose proof (Forall_lookup_1 _ _ _ _ Hcols Hcells) as Hlen. simpl in Hlen.
  destruct (cells !! c) eqn:Hc; [|done].
  apply lookup_lt_Some in Hc. lia.
Qed.

Lemma cell_in_rows h r c b :
  cell h r c = Some b -> (r < length h)%nat.
Proof.
  unfold cell. destruct (h !! r) as [cells|] eqn:Hcells; [|done].
  intros _. by eapply lookup_lt_Some.
Qed.

(** ** Target sums *)

Lemma getTargetSum_draw lvl rng :
  getTargetSum lvl rng
  = (10 + floor_scaled (tape rng (cursor rng) mod 2 ^ PRECISION) (Z.min lvl 10),
     skip 1 rng).
Proof. reflexivity. Qed.

Lemma getTargetSum_at_most_19 lvl rng :
  1 <= lvl -> fst (getTargetSum lvl rng) <= 19.
Proof.
  intros Hlvl. rewrite getTargetSum_draw. cbn [fst].
  pose proof (floor_scaled_range (tape rng (cursor rng) mod 2 ^ PRECISION)
                (Z.min lvl 10) (Z.mod_pos_bound _ (2 ^ PRECISION) eq_refl)
                ltac:(lia)).
  lia.
Qed.

Lemma getTargetSum_level_1 rng : getTargetSum 1 rng = (10, skip 1 rng).
Proof.
  rewrite getTargetSum_draw. f_equal.
  pose proof (floor_scaled_range (tape rng (cursor rng) mod 2 ^ PRECISION)
                (Z.min 1 10) (Z.mod_pos_bound _ (2 ^ PRECISION) eq_refl)
                ltac:(done)).
  change (Z.min 1 10) with 1 in *. lia.
Qed.

(** X1. From level 1 on, the target sum drawn by [getTargetSum] is at least
    10 and below [10 + min(level, 10)], so never above 19; at level 1 it is
    10. One draw is made. *)
Theorem getTargetSum_range lvl rng :
  1 <= lvl ->
  10 <= fst (getTargetSum lvl rng) < 10 + Z.min lvl 10
  ∧ fst (getTargetSum lvl rng) <= 19
  ∧ (lvl = 1 -> fst (getTargetSum lvl rng) = 10)
  ∧ snd (getTargetSum lvl rng) = skip 1 rng.
Proof.
  intros Hlvl. unfold getTargetSum, bind. cbn [Math_random ret fst snd].
  pose proof (floor_scaled_range (tape rng (cursor rng) mod 2 ^ PRECISION)
                (Z.min lvl 10) (Z.mod_pos_bound _ (2 ^ PRECISION) eq_refl)
                ltac:(lia)).
  repeat apply conj; [lia | lia | lia | intros ->; simpl in *; lia | reflexivity].
Qed.

Lemma getTargetSum_range_witness :
  1 <= 7
  ∧ 10 <= fst (getTargetSum 7 Examples.oracle) < 10 + Z.min 7 10.
Proof.
  split; [lia|].
  exact (proj1 (getTargetSum_range 7 Examples.oracle ltac:(lia))).
Defined.

(** ** Rows of new blocks *)

Lemma generateRow_draws r g : generateRow r g = (drawn_row g r, skip 12 g).
Proof. reflexivity. Qed.

Lemma drawn_block_value g k r c : value_ok (drawn_block g k r c).
Proof.
  unfold value_ok, drawn_block. cbn [value].
  pose proof (floor_scaled_range (tape g (S k + cursor g) mod 2 ^ PRECISION)
                (MAX_VALUE - MIN_VALUE + 1)
                (Z.mod_pos_bound _ (2 ^ PRECISION) eq_refl) ltac:(done)).
  unfold MAX_VALUE, MIN_VALUE in *. lia.
Qed.

Lemma drawn_row_lookup g r c :
  (c < GRID_COLS)%nat -> drawn_row g r !! c = Some (Some (drawn_block g (2 * c) r c)).
Proof.
  intros Hc. unfold drawn_row. rewrite list_lookup_fmap, lookup_seq_lt by done.
  reflexivity.
Qed.

(** X2. [generateRow rowIndex] makes [GRID_COLS] blocks and no empty cell:
    the block of column [c] is at row [rowIndex] and column [c], has a value
    from 1 to 9, and takes its id from draw [2 c] and its value from draw
    [2 c + 1]; twelve draws are made. *)
Theorem generateRow_blocks rowIndex g :
  length (fst (generateRow rowIndex g)) = GRID_COLS
  ∧ (∀ c, (c < GRID_COLS)%nat ->
       ∃ b, fst (generateRow rowIndex g) !! c = Some (Some b)
            ∧ row b = rowIndex ∧ col b = c
            ∧ MIN_VALUE <= value b <= MAX_VALUE
            ∧ b = fst (createBlock rowIndex c None (skip (2 * c) g)))
  ∧ snd (generateRow rowIndex g) = skip 12 g.
Proof.
  rewrite generateRow_draws. cbn [fst snd]. split; [reflexivity|].
  split; [|reflexivity].
  intros c Hc. exists (drawn_block g (2 * c) rowIndex c).
  split; [by apply drawn_row_lookup|].
  split; [reflexivity|]. split; [reflexivity|].
  split; [apply drawn_block_value|].
  rewrite createBlock_draws. unfold drawn_block, skip. cbn [fst tape cursor].
  reflexivity.
Qed.

Lemma generateRow_blocks_witness :
  (3 < GRID_COLS)%nat
  ∧ ∃ b, fst (generateRow 9 Examples.oracle) !! 3%nat = Some (Some b)
         ∧ row b = 9%nat ∧ col b = 3%nat.
Proof.
  split; [unfold GRID_COLS; lia|].
  destruct (proj1 (proj2 (generateRow_blocks 9 Examples.oracle)) 3%nat
              ltac:(unfold GRID_COLS; lia)) as (b & Hb & Hr & Hc & _).
  exists b. exact (conj Hb (conj Hr Hc)).
Defined.

(** ** Loops that write one row *)

(** A loop over columns that writes [w c] to cell [(rr, c)] when there is
    something to write. *)
Lemma cell_foldl_writes (F : Grid -> nat -> Grid) (w : nat -> option Block) rr cs :
  (∀ g' c, (c < GRID_COLS)%nat ->
           F g' c = match w c with
                    | Some b => set_cell g' rr c (Some b)
                    | None => g'
                    end) ->
  (rr < GRID_ROWS)%nat ->
  Forall (fun c => (c < GRID_COLS)%nat) cs ->
  ∀ g0, grid_shape g0 ->
    grid_shape (foldl F g0 cs)
    ∧ ∀ r' c', cell (foldl F g0 cs) r' c'
               = match (if decide (r' = rr ∧ c' ∈ cs) then w c' else None) with
                 | Some b => Some b
                 | None => cell g0 r' c'
                 end.
Proof.
  intros HF Hrr. induction 1 as [|c cs Hc Hcs IH]; intros g0 Hg0.
  - split; [done|]. intros r' c'. cbn [foldl].
    rewrite decide_False; [done|]. intros [_ Hin]. by apply not_elem_of_nil in Hin.
  - cbn [foldl]. rewrite HF by done.
    assert (Hg1 : grid_shape (match w c with
                              | Some b => set_cell g0 rr c (Some b)
                              | None => g0
                              end))
      by (destruct (w c); [by apply set_cell_shape | done]).
    destruct (IH _ Hg1) as [Hshape Hcell]. split; [done|].
    intros r' c'. rewrite Hcell.
    destruct (decide (r' = rr ∧ c' ∈ cs)) as [[-> Hin]|Hout].
    + rewrite (decide_True (P := rr = rr ∧ c' ∈ c :: cs))
        by (split; [done | by apply elem_of_cons; right]).
      destruct (w c') as [b'|] eqn:Hw'; [done|].
      destruct (w c) as [b|] eqn:Hw; [|done].
      rewrite cell_set_cell by done.
      rewrite decide_False; [done|]. intros [_ ->]. congruence.
    + destruct (decide (r' = rr ∧ c' = c)) as [[-> ->]|Hne].
      * rewrite (decide_True (P := rr = rr ∧ c ∈ c :: cs))
          by (split; [done | by apply elem_of_cons; left]).
        destruct (w c) as [b|]; [|done].
        rewrite cell_set_cell by done. by rewrite decide_True.
      * rewrite (decide_False (P := r' = rr ∧ c' ∈ c :: cs))
          by (intros [-> [->|Hin]%elem_of_cons]; tauto).
        destruct (w c) as [b|]; [|done].
        rewrite cell_set_cell by done. by rewrite decide_False.
Qed.

Lemma seq_0_cols : Forall (fun c => (c < GRID_COLS)%nat) (seq 0 GRID_COLS).
Proof. apply Forall_forall. intros c [_ Hc]%elem_of_seq. exact Hc. Qed.

(** Copying a generated row into row [r], cell by cell. *)
Lemma cell_put_row (F : Grid -> nat -> Grid) rng k r g :
  (∀ g' j, F g' j = set_cell g' r j (default None (drawn_row rng k !! j))) ->
  grid_shape g -> (r < GRID_ROWS)%nat ->
  grid_shape (foldl F g (seq 0 GRID_COLS))
  ∧ ∀ r' c', (c' < GRID_COLS)%nat ->
      cell (foldl F g (seq 0 GRID_COLS)) r' c'
      = if decide (r' = r) then Some (drawn_block rng (2 * c') k c')
        else cell g r' c'.
Proof.
  intros HF Hshape Hr.
  destruct (cell_foldl_writes F
              (fun c => if decide (c < GRID_COLS)%nat
                        then Some (drawn_block rng (2 * c) k c) else None)
              r (seq 0 GRID_COLS)) with (g0 := g) as [Hs Hcell];
    [|done|apply seq_0_cols|done|].
  { intros g' c Hc. rewrite HF, drawn_row_lookup by done.
    by rewrite decide_True. }
  split; [done|]. intros r' c' Hc'. rewrite Hcell.
  destruct (decide (r' = r)) as [->|Hne].
  - rewrite decide_True by (split; [done | apply elem_of_seq; simpl; lia]).
    by rewrite decide_True.
  - rewrite decide_False; [done | tauto].
Qed.

(** ** The first state *)

Lemma fill_initial_rows rng :
  fill_initial createEmptyGrid (seq 0 INITIAL_ROWS) rng
  = (foldl (put_initial (drawn_row (skip 36 rng) 6) 6)
       (foldl (put_initial (drawn_row (skip 24 rng) 7) 7)
          (foldl (put_initial (drawn_row (skip 12 rng) 8) 8)
             (foldl (put_initial (drawn_row rng 9) 9) createEmptyGrid
                (seq 0 GRID_COLS))
             (seq 0 GRID_COLS))
          (seq 0 GRID_COLS))
       (seq 0 GRID_COLS),
     skip 48 rng).
Proof. reflexivity. Qed.

Lemma initGame_grid_cells m saved rng :
  grid_shape (grid (fst (initGame m saved rng)))
  ∧ ∀ r c, (c < GRID_COLS)%nat ->
      cell (grid (fst (initGame m saved rng))) r c
      = if decide (GRID_ROWS - INITIAL_ROWS <= r < GRID_ROWS)%nat
        then Some (drawn_block (skip (12 * (GRID_ROWS - 1 - r)) rng) (2 * c) r c)
        else None.
Proof.
  unfold initGame, bind. rewrite fill_initial_rows.
  destruct (getTargetSum 1 (skip 48 rng)) as [t rng'] eqn:Ht.
  cbn [ret fst grid].
  destruct (cell_put_row (put_initial (drawn_row rng 9) 9) rng 9 9
              createEmptyGrid) as [Hs9 Hc9];
    [done | apply createEmptyGrid_shape | unfold GRID_ROWS; lia |].
  destruct (cell_put_row (put_initial (drawn_row (skip 12 rng) 8) 8)
              (skip 12 rng) 8 8 _ ltac:(done) Hs9 ltac:(unfold GRID_ROWS; lia))
    as [Hs8 Hc8].
  destruct (cell_put_row (put_initial (drawn_row (skip 24 rng) 7) 7)
              (skip 24 rng) 7 7 _ ltac:(done) Hs8 ltac:(unfold GRID_ROWS; lia))
    as [Hs7 Hc7].
  destruct (cell_put_row (put_initial (drawn_row (skip 36 rng) 6) 6)
              (skip 36 rng) 6 6 _ ltac:(done) Hs7 ltac:(unfold GRID_ROWS; lia))
    as [Hs6 Hc6].
  split; [done|]. intros r c Hc.
  rewrite Hc6, Hc7, Hc8, Hc9, cell_createEmptyGrid by done.
  unfold GRID_ROWS, INITIAL_ROWS.
  destruct (decide (r = 6%nat)) as [->|?]; [reflexivity|].
  destruct (decide (r = 7%nat)) as [->|?]; [reflexivity|].
  destruct (decide (r = 8%nat)) as [->|?]; [reflexivity|].
  destruct (decide (r = 9%nat)) as [->|?]; [reflexivity|].
  rewrite decide_False; [done | lia].
Qed.

Lemma initGame_unfold m saved rng :
  initGame m saved rng
  = ({| grid := fst (fill_initial createEmptyGrid (seq 0 INITIAL_ROWS) rng);
        targetSum := 10;
        selectedIds := [];
        score := 0;
        highScore := default 0 saved;
        isGameOver := false;
        mode := m;
        level := 1;
        combo := 0;
        timeLeft := if decide (m = time) then Some TEN else None;
        maxTime := if decide (m = time) then Some TEN else None |},
     skip 49 rng).
Proof.
  unfold initGame, bind. rewrite fill_initial_rows, getTargetSum_level_1.
  reflexivity.
Qed.

Lemma initGame_top_empty m saved rng r c :
  (r < GRID_ROWS - INITIAL_ROWS)%nat ->
  cell (grid (fst (initGame m saved rng))) r c = None.
Proof.
  intros Hr. destruct (initGame_grid_cells m saved rng) as [Hshape Hcell].
  destruct (cell (grid (fst (initGame m saved rng))) r c) as [b|] eqn:Hb; [|done].
  pose proof (cell_in_cols _ _ _ _ Hshape Hb) as Hc.
  rewrite Hcell in Hb by done. rewrite decide_False in Hb; [done|].
  unfold GRID_ROWS, INITIAL_ROWS in *. lia.
Qed.

(** X3. [initGame] fills the bottom [INITIAL_ROWS] rows, every cell of
    them, with blocks that carry their own row and column and a value from 1
    to 9, and leaves the rows above empty. The target sum is 10, the score
    0, the level 1, the combo 0, nothing is selected and the game is not
    over; [highScore] is the saved one, or 0 without one; [timeLeft] and
    [maxTime] are 10 in time mode and absent in classic mode. 49 draws are
    made. *)
Theorem initGame_state m saved rng :
  let st := fst (initGame m saved rng) in
  (∀ r c, (r < GRID_ROWS - INITIAL_ROWS)%nat -> cell (grid st) r c = None)
  ∧ (∀ r c, (GRID_ROWS - INITIAL_ROWS <= r < GRID_ROWS)%nat ->
            (c < GRID_COLS)%nat ->
       ∃ b, cell (grid st) r c = Some b ∧ row b = r ∧ col b = c
            ∧ MIN_VALUE <= value b <= MAX_VALUE)
  ∧ targetSum st = 10 ∧ selectedIds st = [] ∧ score st = 0
  ∧ highScore st = default 0 saved ∧ isGameOver st = false ∧ mode st = m
  ∧ level st = 1 ∧ combo st = 0
  ∧ timeLeft st = (if decide (m = time) then Some TEN else None)
  ∧ maxTime st = timeLeft st
  ∧ snd (initGame m saved rng) = skip 49 rng.
Proof.
  intros st. destruct (initGame_grid_cells m saved rng) as [Hshape Hcell].
  fold st in Hshape, Hcell. split; [|split].
  - intros r c Hr. by apply initGame_top_empty.
  - intros r c Hr Hc. rewrite Hcell by done. rewrite decide_True by done.
    eexists. split; [reflexivity|]. split; [reflexivity|].
    split; [reflexivity | apply drawn_block_value].
  - subst st. rewrite initGame_unfold. cbn [fst snd]. fields.
    repeat apply conj; reflexivity.
Qed.

Lemma initGame_state_witness :
  (8 < GRID_ROWS)%nat ∧ (2 < GRID_COLS)%nat
  ∧ ∃ b, cell (grid (fst (initGame time (Some 40) Examples.oracle))) 8 2 = Some b
         ∧ row b = 8%nat ∧ col b = 2%nat.
Proof.
  split; [unfold GRID_ROWS; lia|]. split; [unfold GRID_COLS; lia|].
  destruct (proj1 (proj2 (initGame_state time (Some 40) Examples.oracle))
              8%nat 2%nat ltac:(unfold GRID_ROWS, INITIAL_ROWS; lia)
              ltac:(unfold GRID_COLS; lia)) as (b & Hb & Hr & Hc & _).
  exists b. exact (conj Hb (conj Hr Hc)).
Defined.

(** ** What gravity leaves *)

Lemma omap_reverse {A B} (f : A -> option B) (l : list A) :
  omap f (reverse l) = reverse (omap f l).
Proof.
  induction l as [|x l IH]; [done|].
  rewrite reverse_cons, omap_app, IH. csimpl.
  destruct (f x); rewrite ?reverse_cons, ?app_nil_r; done.
Qed.

Lemma column_up_reverse g c :
  length g = GRID_ROWS -> column_up g c = reverse (column_down g c).
Proof.
  intros Hrows. unfold column_up, rows_bottom_up, column_down.
  rewrite omap_reverse, <- (omap_seq_lookup (at_col c) g), Hrows.
  reflexivity.
Qed.

Lemma column_down_length g c :
  length g = GRID_ROWS -> length (column_down g c) = length (column_up g c).
Proof. intros Hrows. by rewrite column_up_reverse, length_reverse. Qed.

(** After gravity the cell [(r, c)] holds a block exactly when column [c]
    has more than [GRID_ROWS - 1 - r] blocks. *)
Lemma applyGravity_occupied h r c :
  grid_shape h -> (r < GRID_ROWS)%nat -> (c < GRID_COLS)%nat ->
  is_Some (cell (applyGravity h) r c)
  <-> (GRID_ROWS - 1 - r < length (column_down h c))%nat.
Proof.
  intros [Hrows _] Hr Hc. rewrite cell_applyGravity by done.
  rewrite column_down_length by done. rewrite <- lookup_lt_is_Some.
  by rewrite fmap_is_Some.
Qed.

(** A block in row 0 after gravity stands on a full column. *)
Lemma applyGravity_row0 h :
  grid_shape h -> checkGameOver (applyGravity h) = true ->
  ∃ c, (c < GRID_COLS)%nat ∧ (GRID_ROWS <= length (column_down h c))%nat.
Proof.
  intros Hshape (c & b & Hb)%checkGameOver_row0.
  pose proof (cell_in_cols _ _ _ _ (applyGravity_shape h) Hb) as Hc.
  exists c. split; [done|].
  assert (Hsome : is_Some (cell (applyGravity h) 0 c)) by (by eexists).
  apply applyGravity_occupied in Hsome; [|done|unfold GRID_ROWS; lia|done].
  unfold GRID_ROWS in *. lia.
Qed.

Lemma examples_full_column_shape : grid_shape Samples.full_column.
Proof. split; [reflexivity | repeat constructor]. Qed.

(** X4. After gravity every block carries the row and column of the cell
    it is in, and no block has an empty cell below it in its column. *)
Theorem applyGravity_compact g r c b :
  grid_shape g -> (r < GRID_ROWS)%nat -> (c < GRID_COLS)%nat ->
  cell (applyGravity g) r c = Some b ->
  row b = r ∧ col b = c
  ∧ ∀ r', (r <= r' < GRID_ROWS)%nat -> is_Some (cell (applyGravity g) r' c).
Proof.
  intros _ Hr Hc. rewrite cell_applyGravity by done.
  destruct (column_up g c !! (GRID_ROWS - 1 - r)%nat) as [b0|] eqn:Hb0; [|done].
  intros [= <-]. split; [reflexivity|]. split; [reflexivity|].
  intros r' Hr'. rewrite cell_applyGravity by lia.
  apply lookup_lt_Some in Hb0.
  destruct (lookup_lt_is_Some_2 (column_up g c) (GRID_ROWS - 1 - r')%nat
              ltac:(lia)) as [b1 Hb1].
  rewrite Hb1. by eexists.
Qed.

Lemma applyGravity_compact_witness :
  grid_shape Examples.floating ∧ (7 < GRID_ROWS)%nat ∧ (0 < GRID_COLS)%nat
  ∧ cell (applyGravity Examples.floating) 7 0 = Some (restamp Examples.four 7 0)
  ∧ (∀ r', (7 <= r' < GRID_ROWS)%nat ->
           is_Some (cell (applyGravity Examples.floating) r' 0)).
Proof.
  assert (H7 : (7 < GRID_ROWS)%nat) by (unfold GRID_ROWS; lia).
  assert (H0 : (0 < GRID_COLS)%nat) by (unfold GRID_COLS; lia).
  split; [apply examples_floating_shape|]. split; [exact H7|].
  split; [exact H0|]. split; [reflexivity|].
  exact (proj2 (proj2 (applyGravity_compact Examples.floating 7 0
                         (restamp Examples.four 7 0) examples_floating_shape
                         H7 H0 eq_refl))).
Defined.

(** X5. Gravity keeps each column's blocks in their order from top to
    bottom: the ids and values read down column [c] are the same list before
    and after. *)
Theorem applyGravity_column_order g c :
  grid_shape g -> (c < GRID_COLS)%nat ->
  label <$> column_down (applyGravity g) c = label <$> column_down g c.
Proof.
  intros [Hrows _] Hc. destruct (applyGravity_shape g) as [Hrows' _].
  rewrite <- (reverse_involutive (column_down (applyGravity g) c)).
  rewrite <- (reverse_involutive (column_down g c)).
  rewrite <- !column_up_reverse by done.
  rewrite column_up_applyGravity by done.
  by rewrite !fmap_reverse, fmap_label_imap_restamp.
Qed.

Lemma applyGravity_column_order_witness :
  grid_shape Examples.floating ∧ (0 < GRID_COLS)%nat
  ∧ label <$> column_down (applyGravity Examples.floating) 0
    = [("a", 4); ("b", 6); ("c", 3)].
Proof.
  assert (H0 : (0 < GRID_COLS)%nat) by (unfold GRID_COLS; lia).
  split; [apply examples_floating_shape|]. split; [exact H0|].
  exact (applyGravity_column_order Examples.floating 0
           examples_floating_shape H0).
Defined.

(** X6. The grid after gravity has a block in row 0 exactly when some
    column of the grid holds [GRID_ROWS] blocks: gravity alone ends no game
    that has room in every column. *)
Theorem applyGravity_gameOver g :
  grid_shape g ->
  checkGameOver (applyGravity g) = true
  <-> ∃ c, (c < GRID_COLS)%nat ∧ length (column_down g c) = GRID_ROWS.
Proof.
  intros [Hrows Hcols]. rewrite checkGameOver_row0. split.
  - intros (c & b & Hb).
    assert (Hc : (c < GRID_COLS)%nat).
    { destruct (decide (c < GRID_COLS)%nat) as [|Hge]; [done|]. exfalso.
      destruct (applyGravity_shape g) as [_ Hcols'].
      unfold cell in Hb.
      destruct (applyGravity g !! 0%nat) as [cells|] eqn:Hcells; [|done].
      pose proof (Forall_lookup_1 _ _ _ _ Hcols' Hcells) as Hlen.
      simpl in Hlen. rewrite lookup_ge_None_2 in Hb; [done | lia]. }
    exists c. split; [done|].
    rewrite cell_applyGravity in Hb by (done || unfold GRID_ROWS; lia).
    destruct (column_up g c !! (GRID_ROWS - 1 - 0)%nat) as [b0|] eqn:Hb0; [|done].
    apply lookup_lt_Some in Hb0. pose proof (column_up_length g c).
    rewrite column_down_length by done. unfold GRID_ROWS in *. lia.
  - intros (c & Hc & Hfull). rewrite column_down_length in Hfull by done.
    destruct (lookup_lt_is_Some_2 (column_up g c) (GRID_ROWS - 1 - 0)%nat
                ltac:(unfold GRID_ROWS in *; lia)) as [b0 Hb0].
    exists c, (restamp b0 0 c).
    rewrite cell_applyGravity by (done || unfold GRID_ROWS; lia).
    by rewrite Hb0.
Qed.

Lemma applyGravity_gameOver_witness :
  grid_shape Samples.full_column
  ∧ (∃ c, (c < GRID_COLS)%nat ∧ length (column_down Samples.full_column c) = GRID_ROWS)
  ∧ checkGameOver (applyGravity Samples.full_column) = true.
Proof.
  assert (Hfull : ∃ c, (c < GRID_COLS)%nat
                       ∧ length (column_down Samples.full_column c) = GRID_ROWS).
  { exists 2%nat. split; [unfold GRID_COLS; lia | reflexivity]. }
  split; [apply examples_full_column_shape|]. split; [exact Hfull|].
  exact (proj2 (applyGravity_gameOver Samples.full_column
                  examples_full_column_shape) Hfull).
Defined.

(** ** What [shiftUp] leaves *)

Lemma cell_shift_row g r newGrid :
  grid_shape newGrid -> (1 <= r < GRID_ROWS)%nat ->
  grid_shape (shift_row g newGrid r)
  ∧ ∀ r' c', (c' < GRID_COLS)%nat ->
      cell (shift_row g newGrid r) r' c'
      = match (if decide (S r' = r)
               then (fun b => restamp b r' c') <$> cell g r c' else None) with
        | Some b => Some b
        | None => cell newGrid r' c'
        end.
Proof.
  intros Hshape Hr. unfold shift_row.
  destruct (cell_foldl_writes (shift_cell g r)
              (fun c => (fun b => restamp b (r - 1) c) <$> cell g r c)
              (r - 1) (seq 0 GRID_COLS)) with (g0 := newGrid) as [Hs Hcell];
    [|lia|apply seq_0_cols|done|].
  { intros g' c _. unfold shift_cell. by destruct (cell g r c). }
  split; [done|]. intros r' c' Hc'. rewrite Hcell.
  destruct (decide (S r' = r)) as [<-|Hne].
  - rewrite decide_True by (split; [lia | apply elem_of_seq; simpl; lia]).
    by replace (S r' - 1)%nat with r' by lia.
  - rewrite decide_False; [done|]. intros [-> _]. lia.
Qed.

Lemma cell_shift_rows g rs : ∀ newGrid,
  grid_shape newGrid -> Forall (fun r => (1 <= r < GRID_ROWS)%nat) rs ->
  grid_shape (foldl (shift_row g) newGrid rs)
  ∧ ∀ r' c', (c' < GRID_COLS)%nat ->
      cell (foldl (shift_row g) newGrid rs) r' c'
      = match (if decide (S r' ∈ rs)
               then (fun b => restamp b r' c') <$> cell g (S r') c' else None) with
        | Some b => Some b
        | None => cell newGrid r' c'
        end.
Proof.
  induction rs as [|r rs IH]; intros newGrid Hshape Hrs.
  - split; [done|]. intros r' c' _. cbn [foldl].
    rewrite decide_False; [done | apply not_elem_of_nil].
  - apply Forall_cons in Hrs as [Hr Hrs]. cbn [foldl].
    destruct (cell_shift_row g r newGrid Hshape Hr) as [Hs1 Hc1].
    destruct (IH _ Hs1 Hrs) as [Hs Hc]. split; [done|].
    intros r' c' Hc'. rewrite Hc, Hc1 by done.
    destruct (decide (S r' ∈ rs)) as [Hin|Hnin].
    + rewrite (decide_True (P := S r' ∈ r :: rs)) by (apply elem_of_cons; by right).
      destruct (cell g (S r') c') as [b|] eqn:Hb; [done|]. cbn [fmap option_fmap option_map].
      destruct (decide (S r' = r)) as [<-|]; [by rewrite Hb | done].
    + destruct (decide (S r' = r)) as [<-|Hne].
      * rewrite (decide_True (P := S r' ∈ S r' :: rs)) by (apply elem_of_cons; by left).
        done.
      * rewrite (decide_False (P := S r' ∈ r :: rs)); [done|].
        by intros [?|?]%elem_of_cons.
Qed.

(** The cells of [shiftUp g]. *)
Lemma cell_shiftUp g rng :
  grid_shape (fst (shiftUp g rng))
  ∧ snd (shiftUp g rng) = skip 12 rng
  ∧ ∀ r c, (r < GRID_ROWS)%nat -> (c < GRID_COLS)%nat ->
      cell (fst (shiftUp g rng)) r c
      = if decide (r = GRID_ROWS - 1)%nat
        then Some (drawn_block rng (2 * c) (GRID_ROWS - 1) c)
        else (fun b => restamp b r c) <$> cell g (S r) c.
Proof.
  unfold shiftUp, bind. rewrite generateRow_draws. cbn [ret fst snd].
  destruct (cell_shift_rows g (seq 1 (GRID_ROWS - 1)) createEmptyGrid
              createEmptyGrid_shape) as [Hs Hc].
  { apply Forall_forall. intros r [? ?]%elem_of_seq. unfold GRID_ROWS in *. lia. }
  destruct (cell_put_row (put_bottom (drawn_row rng (GRID_ROWS - 1))) rng
              (GRID_ROWS - 1) (GRID_ROWS - 1) _ ltac:(done) Hs
              ltac:(unfold GRID_ROWS; lia)) as [Hs' Hc'].
  split; [done|]. split; [reflexivity|].
  intros r c Hr Hcol. rewrite Hc', Hc by done.
  destruct (decide (r = GRID_ROWS - 1)%nat) as [->|Hne]; [done|].
  rewrite decide_True by (apply elem_of_seq; unfold GRID_ROWS in *; lia).
  rewrite cell_createEmptyGrid. by destruct (cell g (S r) c).
Qed.

Lemma shifted_shape g row9 :
  grid_shape g -> length row9 = GRID_COLS -> grid_shape (shifted g ++ [row9]).
Proof.
  intros [Hrows Hcols] Hlen. unfold shifted. split.
  - rewrite length_app, length_imap, length_drop, Hrows. reflexivity.
  - apply Forall_app. split; [|by repeat constructor].
    apply Forall_forall. intros cells [r [cells0 [-> Hcells0]]]%elem_of_lookup_imap.
    unfold restamp_row. rewrite length_imap.
    rewrite lookup_drop in Hcells0.
    apply (Forall_lookup_1 _ _ _ _ Hcols Hcells0).
Qed.

Lemma cell_shifted g row9 r c :
  grid_shape g -> (r < GRID_ROWS - 1)%nat ->
  cell (shifted g ++ [row9]) r c = (fun b => restamp b r c) <$> cell g (S r) c.
Proof.
  intros [Hrows _] Hr. unfold cell at 1, shifted.
  rewrite lookup_app_l by (rewrite length_imap, length_drop; lia).
  rewrite list_lookup_imap, lookup_drop. unfold cell.
  change (1 + r)%nat with (S r).
  destruct (g !! S r) as [cells|]; [|done]. cbn [fmap option_fmap option_map].
  unfold restamp_row. rewrite list_lookup_imap.
  by destruct (cells !! c) as [[b|]|].
Qed.

Lemma shiftUp_grid g rng :
  grid_shape g ->
  fst (shiftUp g rng) = shifted g ++ [drawn_row rng (GRID_ROWS - 1)].
Proof.
  intros Hshape. destruct (cell_shiftUp g rng) as (Hs & _ & Hcell).
  apply grid_ext; [done | by apply shifted_shape |].
  intros r c Hr Hc. rewrite Hcell by done.
  destruct (decide (r = GRID_ROWS - 1)%nat) as [->|Hne].
  - unfold cell, shifted.
    rewrite lookup_app_r
      by (destruct Hshape as [Hrows _];
          rewrite length_imap, length_drop, Hrows; reflexivity).
    destruct Hshape as [Hrows _].
    rewrite length_imap, length_drop, Hrows.
    change (GRID_ROWS - 1 - (GRID_ROWS - 1))%nat with 0%nat. cbn [lookup list_lookup].
    change (list_lookup c (drawn_row rng (GRID_ROWS - 1)))
      with (drawn_row rng (GRID_ROWS - 1) !! c).
    by rewrite drawn_row_lookup.
  - rewrite cell_shifted by (done || unfold GRID_ROWS in *; lia). done.
Qed.

(** X7. On a grid of the right shape, [shiftUp] returns the rows 1 and
    below of the grid, each one row higher with its blocks stamped for their
    new cells, followed by the row [generateRow] makes for the bottom: the
    blocks of row 0 are dropped, every other block keeps its id, its value
    and its column. Twelve draws are made. *)
Theorem shiftUp_rows g rng :
  grid_shape g ->
  fst (shiftUp g rng) = shifted g ++ [fst (generateRow (GRID_ROWS - 1) rng)]
  ∧ snd (shiftUp g rng) = snd (generateRow (GRID_ROWS - 1) rng).
Proof.
  intros Hshape. rewrite generateRow_draws. cbn [fst snd].
  split; [by apply shiftUp_grid | apply cell_shiftUp].
Qed.

Lemma shiftUp_rows_witness :
  grid_shape Examples.floating
  ∧ fst (shiftUp Examples.floating Examples.oracle)
    = shifted Examples.floating
      ++ [fst (generateRow (GRID_ROWS - 1) Examples.oracle)]
  ∧ cell (fst (shiftUp Examples.floating Examples.oracle)) 4 0
    = Some (restamp Examples.six 4 0)
  ∧ cell (fst (shiftUp Examples.floating Examples.oracle)) 0 3 = None.
Proof.
  split; [apply examples_floating_shape|].
  pose proof (proj1 (shiftUp_rows Examples.floating Examples.oracle
                       examples_floating_shape)) as Hrows.
  split; [exact Hrows|]. rewrite Hrows. split; reflexivity.
Defined.

Lemma checkGameOver_shiftUp g rng :
  grid_shape g ->
  checkGameOver (fst (shiftUp g rng)) = true <-> ∃ c b, cell g 1 c = Some b.
Proof.
  intros Hshape. destruct (cell_shiftUp g rng) as (Hs & _ & Hcell).
  rewrite checkGameOver_row0. split.
  - intros (c & b & Hb). pose proof (cell_in_cols _ _ _ _ Hs Hb) as Hc.
    rewrite Hcell in Hb by (done || unfold GRID_ROWS; lia).
    rewrite decide_False in Hb by (unfold GRID_ROWS; lia).
    destruct (cell g 1 c) as [b1|] eqn:Hb1; [by exists c, b1 | done].
  - intros (c & b & Hb). pose proof (cell_in_cols _ _ _ _ Hshape Hb) as Hc.
    exists c, (restamp b 0 c).
    rewrite Hcell by (done || unfold GRID_ROWS; lia).
    rewrite decide_False by (unfold GRID_ROWS; lia). by rewrite Hb.
Qed.

(** X8. Row 0 of the grid [shiftUp] returns is row 1 of the grid, its
    blocks stamped for row 0. So the returned grid has a block in row 0
    exactly when the grid had one in row 1: a forced row ends the game of a
    grid whose row 1 is occupied, and no other. *)
Theorem shiftUp_gameOver g rng :
  grid_shape g ->
  (∀ c, (c < GRID_COLS)%nat ->
        cell (fst (shiftUp g rng)) 0 c
        = (fun b => restamp b 0 c) <$> cell g 1 c)
  ∧ (checkGameOver (fst (shiftUp g rng)) = true
     <-> ∃ c b, cell g 1 c = Some b).
Proof.
  intros Hshape. split; [|by apply checkGameOver_shiftUp].
  intros c Hc. destruct (cell_shiftUp g rng) as (_ & _ & Hcell).
  rewrite Hcell by (done || unfold GRID_ROWS; lia).
  by rewrite decide_False by (unfold GRID_ROWS; lia).
Qed.

Lemma shiftUp_gameOver_witness :
  grid_shape Samples.full_column
  ∧ (∃ c b, cell Samples.full_column 1 c = Some b)
  ∧ checkGameOver (fst (shiftUp Samples.full_column Examples.oracle)) = true.
Proof.
  assert (Hrow1 : ∃ c b, cell Samples.full_column 1 c = Some b)
    by (exists 2%nat; eexists; reflexivity).
  split; [apply examples_full_column_shape|]. split; [exact Hrow1|].
  exact (proj2 (proj2 (shiftUp_gameOver Samples.full_column Examples.oracle
                         examples_full_column_shape)) Hrow1).
Defined.

(** ** Ids and values through [shiftUp] and the removal of a selection *)

Lemma grid_blocks_app (g h : Grid) :
  grid_blocks (g ++ h) = grid_blocks g ++ grid_blocks h.
Proof. unfold grid_blocks. by rewrite concat_app, omap_app. Qed.

Lemma grid_blocks_cons cells (g : Grid) :
  grid_blocks (cells :: g) = omap (fun x => x) cells ++ grid_blocks g.
Proof. unfold grid_blocks. cbn [concat]. by rewrite omap_app. Qed.

Lemma labels_imap_cells (F : nat -> option Block -> option Block) cells :
  (∀ c x, label <$> F c x = label <$> x) ->
  label <$> omap (fun x => x) (imap F cells) = label <$> omap (fun x => x) cells.
Proof.
  revert F. induction cells as [|x cells IH]; intros F HF; [done|].
  rewrite imap_cons.
  pose proof (HF 0%nat x) as Hx.
  pose proof (IH (F ∘ S) (fun c y => HF (S c) y)) as Hrest.
  change (omap (fun x => x) (F 0%nat x :: imap (F ∘ S) cells))
    with (match F 0%nat x with
          | Some b => b :: omap (fun x => x) (imap (F ∘ S) cells)
          | None => omap (fun x => x) (imap (F ∘ S) cells)
          end).
  change (omap (fun x => x) (x :: cells))
    with (match x with
          | Some b => b :: omap (fun x => x) cells
          | None => omap (fun x => x) cells
          end).
  destruct (F 0%nat x) as [b'|], x as [b|]; simpl in Hx; try discriminate.
  - injection Hx as Hid Hval. rewrite !fmap_cons, Hrest.
    unfold label. by rewrite Hid, Hval.
  - exact Hrest.
Qed.

Lemma labels_imap_rows (R : nat -> list (option Block) -> list (option Block))
  (g : Grid) :
  (∀ r cells, label <$> omap (fun x => x) (R r cells)
              = label <$> omap (fun x => x) cells) ->
  label <$> grid_blocks (imap R g) = label <$> grid_blocks g.
Proof.
  revert R. induction g as [|cells g IH]; intros R HR; [done|].
  rewrite imap_cons, !grid_blocks_cons, !fmap_app, HR.
  by rewrite (IH (R ∘ S)) by (intros r cells'; apply HR).
Qed.

Lemma checkGameOver_false_drop g :
  checkGameOver g = false -> grid_blocks (drop 1 g) = grid_blocks g.
Proof.
  destruct g as [|cells g]; [done|]. unfold checkGameOver. cbn [lookup list_lookup drop].
  intros Hnone. rewrite grid_blocks_cons.
  assert (Hrow : omap (fun x => x) cells = []).
  { induction cells as [|[b|] cells IH]; [done|done|].
    cbn [existsb] in Hnone. apply orb_false_iff in Hnone as [_ Hrest].
    exact (IH Hrest). }
  by rewrite Hrow.
Qed.

Lemma shifted_labels g :
  label <$> grid_blocks (shifted g) = label <$> grid_blocks (drop 1 g).
Proof.
  unfold shifted. apply labels_imap_rows.
  intros r cells. unfold restamp_row. apply labels_imap_cells. by intros c [b|].
Qed.

Lemma grid_blocks_singleton cells :
  grid_blocks [cells] = omap (fun x => x) cells.
Proof. unfold grid_blocks. cbn [concat]. by rewrite app_nil_r. Qed.

(** X9. The ids and values of the blocks after [shiftUp], read row by row,
    are those of the rows 1 and below of the grid, followed by those of the
    new bottom row; on a grid with no block in row 0 they are those of the
    whole grid followed by those of the new row, so that the shift drops no
    block and adds [GRID_COLS] of them. *)
Theorem shiftUp_labels g rng :
  grid_shape g ->
  label <$> grid_blocks (fst (shiftUp g rng))
  = (label <$> grid_blocks (drop 1 g))
    ++ (label <$> omap (fun x => x) (fst (generateRow (GRID_ROWS - 1) rng)))
  ∧ (checkGameOver g = false ->
     length (grid_blocks (fst (shiftUp g rng)))
     = (length (grid_blocks g) + GRID_COLS)%nat).
Proof.
  intros Hshape. rewrite shiftUp_grid by done.
  rewrite grid_blocks_app, fmap_app, grid_blocks_singleton, shifted_labels.
  split; [reflexivity|]. intros Hrow0.
  rewrite length_app, <- (length_fmap label), shifted_labels, length_fmap.
  by rewrite checkGameOver_false_drop.
Qed.

Lemma shiftUp_labels_witness :
  grid_shape Examples.floating
  ∧ take 2 (label <$> grid_blocks (fst (shiftUp Examples.floating Examples.oracle)))
    = [("a", 4); ("b", 6)]
  ∧ length (grid_blocks (fst (shiftUp Examples.floating Examples.oracle)))
    = 9%nat.
Proof.
  split; [apply examples_floating_shape|].
  pose proof (proj1 (shiftUp_labels Examples.floating Examples.oracle
                       examples_floating_shape)) as Hlabels.
  split; [rewrite Hlabels; reflexivity|].
  rewrite <- (length_fmap label), Hlabels. reflexivity.
Defined.

Lemma remove_selected_unselect g ids :
  remove_selected g ids = map (map (unselect ids)) g.
Proof. reflexivity. Qed.

Lemma unselect_row_labels ids cells :
  label <$> omap (fun x => x) (map (unselect ids) cells)
  = filter (fun l => l.1 ∉ ids) (label <$> omap (fun x => x) cells).
Proof.
  induction cells as [|[b|] cells IH]; [done| |exact IH].
  change (omap (fun x => x) (Some b :: cells))
    with (b :: omap (fun x => x) cells).
  rewrite !fmap_cons, filter_cons. cbn [unselect label fst].
  unfold includes. destruct (decide (id b ∈ ids)) as [Hin|Hnin].
  - rewrite bool_decide_eq_true_2 by done.
    rewrite decide_False by (intros Hn; by apply Hn). exact IH.
  - rewrite bool_decide_eq_false_2 by done. rewrite decide_True by done.
    change (omap (fun x => x) (Some b :: (unselect ids <$> cells)))
      with (b :: omap (fun x => x) (unselect ids <$> cells)).
    rewrite fmap_cons. by rewrite <- IH.
Qed.

Lemma unselect_row_find ids cells i :
  i ∈ ids -> row_find (map (unselect ids) cells) i = None.
Proof.
  intros Hin. induction cells as [|[b|] cells IH]; [done| |exact IH].
  cbn [map unselect]. unfold includes.
  destruct (decide (id b ∈ ids)) as [Hb|Hb].
  - rewrite bool_decide_eq_true_2 by done. exact IH.
  - rewrite bool_decide_eq_false_2 by done. cbn [row_find].
    destruct (String.eqb_spec (id b) i) as [<-|_]; [done | exact IH].
Qed.

Lemma remove_selected_shape g ids :
  grid_shape g -> grid_shape (remove_selected g ids).
Proof.
  rewrite remove_selected_unselect. intros [Hrows Hcols]. split.
  - by rewrite length_map.
  - apply Forall_fmap. eapply Forall_impl; [exact Hcols|].
    intros cells Hlen. simpl. by rewrite length_map.
Qed.

Lemma remove_selected_kept g ids :
  label <$> grid_blocks (remove_selected g ids)
  = filter (fun l => l.1 ∉ ids) (label <$> grid_blocks g).
Proof.
  rewrite remove_selected_unselect.
  induction g as [|cells g IH]; [done|].
  cbn [map]. rewrite !grid_blocks_cons, !fmap_app, filter_app, IH.
  by rewrite unselect_row_labels.
Qed.

(** X10. Removing a selection from a grid removes every block whose id is
    selected and no other: the ids and values left, read row by row, are
    those that were there with the selected ids filtered out; the shape of
    the grid is kept, and no selected id is found on it afterwards. *)
Theorem remove_selected_labels g ids :
  label <$> grid_blocks (remove_selected g ids)
  = filter (fun l => l.1 ∉ ids) (label <$> grid_blocks g)
  ∧ (grid_shape g -> grid_shape (remove_selected g ids))
  ∧ (∀ i, i ∈ ids -> find_block (remove_selected g ids) i = None).
Proof.
  split; [apply remove_selected_kept|]. split; [apply remove_selected_shape|].
  rewrite remove_selected_unselect.
  intros i Hin. induction g as [|cells g IH]; [done|].
  cbn [map find_block]. by rewrite unselect_row_find.
Qed.

Lemma remove_selected_labels_witness :
  grid_shape Examples.board
  ∧ "a" ∈ ["a"; "b"]
  ∧ grid_shape (remove_selected Examples.board ["a"; "b"])
  ∧ find_block (remove_selected Examples.board ["a"; "b"]) "a" = None
  ∧ label <$> grid_blocks (remove_selected Examples.board ["a"; "b"])
    = [("c", 3); ("d", 9)].
Proof.
  assert (Hin : "a" ∈ ["a"; "b"]) by (apply elem_of_cons; by left).
  destruct (remove_selected_labels Examples.board ["a"; "b"])
    as (Hlabels & Hshape & Hnone).
  split; [apply examples_board_shape|]. split; [exact Hin|].
  split; [exact (Hshape examples_board_shape)|].
  split; [exact (Hnone "a" Hin)|].
  rewrite Hlabels. reflexivity.
Defined.

(** ** The blocks after a match *)

Lemma match_settles_grid_cases prev block g :
  isGameOver prev = false ->
  currentSum (grid prev) (toggle (selectedIds prev) (id block)) = targetSum prev ->
  let ids := toggle (selectedIds prev) (id block) in
  let gravityGrid := applyGravity (remove_selected (grid prev) ids) in
  grid (fst (handleBlockClick false prev block g))
  = match mode prev with
    | classic => if checkGameOver gravityGrid then gravityGrid
                 else fst (shiftUp gravityGrid g)
    | time => gravityGrid
    end.
Proof.
  intros Hrun Hsum ids gravityGrid.
  rewrite click_success by done. rewrite success_state. fields.
  fold ids. fold gravityGrid. unfold settle.
  destruct (mode prev); [|reflexivity].
  destruct (checkGameOver gravityGrid); [reflexivity|].
  unfold bind. by destruct (shiftUp gravityGrid g).
Qed.

(** X11. After a match the blocks of the grid are the blocks that were
    there and whose id is not selected, with their ids and values, each as
    many times: in time mode, and in classic mode when gravity has left a
    block in row 0, nothing else; otherwise in classic mode together with
    the blocks of the new bottom row, the shift dropping none. *)
Theorem match_blocks prev block g :
  isGameOver prev = false ->
  grid_shape (grid prev) ->
  currentSum (grid prev) (toggle (selectedIds prev) (id block)) = targetSum prev ->
  let ids := toggle (selectedIds prev) (id block) in
  let gravityGrid := applyGravity (remove_selected (grid prev) ids) in
  let kept := filter (fun l => l.1 ∉ ids) (label <$> grid_blocks (grid prev)) in
  let st' := fst (handleBlockClick false prev block g) in
  label <$> grid_blocks (grid st')
  ≡ₚ if bool_decide (mode prev = classic) && negb (checkGameOver gravityGrid)
     then kept ++ (label <$> omap (fun x => x)
                               (fst (generateRow (GRID_ROWS - 1) g)))
     else kept.
Proof.
  intros Hrun Hshape Hsum ids gravityGrid kept st'.
  assert (Hkept : label <$> grid_blocks gravityGrid ≡ₚ kept).
  { subst gravityGrid kept.
    rewrite applyGravity_labels by (by apply remove_selected_shape).
    by rewrite remove_selected_kept. }
  pose proof (match_settles_grid_cases prev block g Hrun Hsum) as Hgrid.
  cbv zeta in Hgrid. fold ids in Hgrid. fold gravityGrid in Hgrid.
  fold st' in Hgrid.
  destruct (mode prev).
  - change (bool_decide (classic = classic)) with true. cbn [andb].
    destruct (checkGameOver gravityGrid) eqn:Hover; cbn [negb].
    + rewrite Hgrid. exact Hkept.
    + rewrite Hgrid, shiftUp_grid by apply applyGravity_shape.
      rewrite grid_blocks_app, fmap_app, grid_blocks_singleton, shifted_labels.
      by rewrite checkGameOver_false_drop, Hkept.
  - change (bool_decide (time = classic)) with false. cbn [andb].
    rewrite Hgrid. exact Hkept.
Qed.

Lemma match_blocks_witness :
  isGameOver Examples.classic_game = false
  ∧ grid_shape (grid Examples.classic_game)
  ∧ currentSum (grid Examples.classic_game)
      (toggle (selectedIds Examples.classic_game) (id Examples.six))
    = targetSum Examples.classic_game
  ∧ label <$> grid_blocks
                (grid (fst (handleBlockClick false Examples.classic_game
                              Examples.six Examples.oracle)))
    ≡ₚ [("c", 3); ("d", 9)]
       ++ (label <$> omap (fun x => x)
                       (fst (generateRow (GRID_ROWS - 1) Examples.oracle))).
Proof.
  split; [reflexivity|]. split; [apply examples_board_shape|].
  split; [reflexivity|].
  exact (match_blocks Examples.classic_game Examples.six Examples.oracle
           eq_refl examples_board_shape eq_refl).
Defined.

(** X12. A match ends the game in classic mode only, and there exactly
    when, the selected blocks removed, some column still holds at least
    [GRID_ROWS - 1] blocks: the new row then reaches row 0, or gravity has
    already left a block there. *)
Theorem match_gameOver prev block g :
  isGameOver prev = false ->
  grid_shape (grid prev) ->
  currentSum (grid prev) (toggle (selectedIds prev) (id block)) = targetSum prev ->
  let ids := toggle (selectedIds prev) (id block) in
  let st' := fst (handleBlockClick false prev block g) in
  isGameOver st' = true
  <-> mode prev = classic
      ∧ ∃ c, (c < GRID_COLS)%nat
             ∧ (GRID_ROWS - 1
                <= length (column_down (remove_selected (grid prev) ids) c))%nat.
Proof.
  intros Hrun Hshape Hsum ids st'. subst st'.
  rewrite click_success by done. rewrite success_state. fields. fold ids.
  set (h := remove_selected (grid prev) ids).
  assert (Hh : grid_shape h) by (by apply remove_selected_shape).
  pose proof (applyGravity_shape h) as HG.
  unfold settle. destruct (mode prev); [|cbn [ret fst snd]; split; [done | by intros [? _]]].
  assert (Hrow : ∀ r, (r < 2)%nat ->
            (∃ c b, cell (applyGravity h) r c = Some b)
            <-> ∃ c, (c < GRID_COLS)%nat
                     ∧ (GRID_ROWS - 1 - r < length (column_down h c))%nat).
  { intros r Hr. split.
    - intros (c & b & Hb). pose proof (cell_in_cols _ _ _ _ HG Hb) as Hc.
      exists c. split; [done|].
      apply applyGravity_occupied; [done | unfold GRID_ROWS; lia | done |].
      by rewrite Hb.
    - intros (c & Hc & Hlen).
      apply applyGravity_occupied in Hlen as [b Hb];
        [by exists c, b | done | unfold GRID_ROWS; lia | done]. }
  destruct (checkGameOver (applyGravity h)) eqn:Hover.
  - cbn [ret fst snd]. split; [intros _ | done]. split; [done|].
    apply checkGameOver_row0, (Hrow 0%nat) in Hover as (c & Hc & Hlen); [|lia].
    exists c. split; [done | lia].
  - unfold bind.
    pose proof (checkGameOver_shiftUp (applyGravity h) g HG) as Hshift.
    destruct (shiftUp (applyGravity h) g) as [finalGrid g']. cbn [ret fst snd] in *.
    rewrite Hshift, (Hrow 1%nat) by lia. split.
    + intros (c & Hc & Hlen). split; [done|]. exists c. split; [done | lia].
    + intros [_ (c & Hc & Hlen)].
      destruct (decide (length (column_down h c) = GRID_ROWS)) as [Hfull|Hnot].
      * exfalso. assert (checkGameOver (applyGravity h) = true) as Htrue; [|congruence].
        apply checkGameOver_row0, (Hrow 0%nat); [lia|].
        exists c. split; [done | unfold GRID_ROWS in *; lia].
      * exists c. split; [done | unfold GRID_ROWS in *; lia].
Qed.

Lemma match_gameOver_witness :
  isGameOver Examples.classic_game = false
  ∧ grid_shape (grid Examples.classic_game)
  ∧ currentSum (grid Examples.classic_game)
      (toggle (selectedIds Examples.classic_game) (id Examples.six))
    = targetSum Examples.classic_game
  ∧ (isGameOver (fst (handleBlockClick false Examples.classic_game Examples.six
                        Examples.oracle)) = true
     <-> mode Examples.classic_game = classic
         ∧ ∃ c, (c < GRID_COLS)%nat
                ∧ (GRID_ROWS - 1
                   <= length (column_down
                                (remove_selected (grid Examples.classic_game)
                                   ["a"; "b"]) c))%nat).
Proof.
  split; [reflexivity|]. split; [apply examples_board_shape|].
  split; [reflexivity|].
  exact (match_gameOver Examples.classic_game Examples.six Examples.oracle
           eq_refl examples_board_shape eq_refl).
Defined.

(** ** The tick that finds no time left *)

(** X13. On a running timed game with no time left, the tick ends the game
    exactly when row 0 or row 1 of the grid holds a block. With a block in
    row 0 nothing else changes; otherwise the grid is shifted up,
    [timeLeft] and [maxTime] are both set to
    [max(5, 10 - floor(level / 2))], the selection is emptied and the combo
    is 0. *)
Theorem tick_time_up_gameOver st t rng :
  mode st = time -> isGameOver st = false -> grid_shape (grid st) ->
  timeLeft st = Some t -> PrimFloat.leb t PrimFloat.zero = true ->
  let st' := fst (tick false st rng) in
  (isGameOver st' = true
   <-> (∃ c b, cell (grid st) 0 c = Some b) ∨ (∃ c b, cell (grid st) 1 c = Some b))
  ∧ ((∃ c b, cell (grid st) 0 c = Some b) ->
     tick false st rng = (set_game_over st, rng))
  ∧ ((∀ c, cell (grid st) 0 c = None) ->
     grid st' = fst (shiftUp (grid st) rng)
     ∧ selectedIds st' = [] ∧ combo st' = 0
     ∧ timeLeft st' = Some (nextMaxTime (level st))
     ∧ maxTime st' = timeLeft st').
Proof.
  intros Hm Hrun Hshape Ht Hle st'. subst st'.
  destruct (tick_time_up st t rng Hm Hrun Ht Hle) as [_ Htick]. rewrite Htick.
  pose proof (checkGameOver_row0 (grid st)) as Hrow0.
  pose proof (checkGameOver_shiftUp (grid st) rng Hshape) as Hrow1.
  destruct (checkGameOver (grid st)) eqn:Hover.
  - cbn [fst]. split; [|split].
    + split; [intros _; left; by apply Hrow0 | done].
    + done.
    + intros Hempty. destruct (proj1 Hrow0 eq_refl) as (c & b & Hb).
      by rewrite Hempty in Hb.
  - cbn [fst forced_row]. fields. split; [|split].
    + rewrite Hrow1. split; [by right|].
      intros [Habs%Hrow0|?]; [done | done].
    + intros Habs%Hrow0. done.
    + done.
Qed.

Lemma tick_time_up_gameOver_witness :
  mode Samples.late_game = time ∧ isGameOver Samples.late_game = false
  ∧ grid_shape (grid Samples.late_game)
  ∧ timeLeft Samples.late_game = Some (PrimFloat.opp TENTH)
  ∧ PrimFloat.leb (PrimFloat.opp TENTH) PrimFloat.zero = true
  ∧ (∃ c b, cell (grid Samples.late_game) 1 c = Some b)
  ∧ isGameOver (fst (tick false Samples.late_game Examples.oracle)) = true.
Proof.
  assert (Hshape : grid_shape (grid Samples.late_game))
    by (split; [reflexivity | repeat constructor]).
  assert (Hrow1 : ∃ c b, cell (grid Samples.late_game) 1 c = Some b)
    by (exists 2%nat; eexists; reflexivity).
  split; [reflexivity|]. split; [reflexivity|]. split; [exact Hshape|].
  split; [reflexivity|]. split; [reflexivity|]. split; [exact Hrow1|].
  exact (proj2 (proj1 (tick_time_up_gameOver Samples.late_game
                         (PrimFloat.opp TENTH) Examples.oracle
                         eq_refl eq_refl Hshape eq_refl eq_refl))
           (or_intror Hrow1)).
Defined.

(** ** The sum on screen *)

Lemma foldl_add_shift (xs : list Z) : ∀ a,
  foldl (fun a b => a + b) a xs = a + foldl (fun a b => a + b) 0 xs.
Proof.
  induction xs as [|x xs IH]; intros a; simpl; [lia|].
  rewrite (IH (a + x)), (IH (0 + x)). lia.
Qed.

(** X14. The sum shown under the grid is the sum [handleBlockClick]
    compares with the target: an id that is on no block counts for 0 in the
    one and is left out of the other. *)
Theorem displayedSum_currentSum st :
  displayedSum st = currentSum (grid st) (selectedIds st).
Proof.
  unfold displayedSum. induction (selectedIds st) as [|i ids IH]; [done|].
  rewrite currentSum_cons. cbn [map foldl].
  rewrite foldl_add_shift, IH. by destruct (find_block (grid st) i).
Qed.

(** ** More of what holds during play *)

Lemma nextMaxTime_range lvl :
  0 <= lvl ->
  ∃ n, 5 <= n <= 10 ∧ nextMaxTime lvl = PrimFloat.of_uint63 (Uint63.of_Z n).
Proof.
  intros Hlvl. exists (Z.max 5 (10 - lvl / 2)). split; [|reflexivity].
  assert (0 <= lvl / 2) by (apply Z.div_pos; lia). lia.
Qed.

Lemma toggle_NoDup ids i : NoDup ids -> NoDup (toggle ids i).
Proof.
  intros Hnd. unfold toggle, includes.
  destruct (decide (i ∈ ids)) as [Hin|Hnin].
  - rewrite bool_decide_eq_true_2 by done. by apply NoDup_filter.
  - rewrite bool_decide_eq_false_2 by done. apply NoDup_app.
    split; [done|]. split; [|apply NoDup_singleton].
    intros x Hx ->%list_elem_of_singleton. done.
Qed.

Lemma consistent_init m saved rng : consistent (fst (initGame m saved rng)).
Proof.
  rewrite initGame_unfold. unfold consistent. cbn [fst]. fields.
  split; [reflexivity|]. split; [lia|]. split; [apply NoDup_nil_2|].
  split; intros ->.
  - rewrite (decide_False (P := classic = time)) by discriminate. by split.
  - rewrite (decide_True (P := time = time)) by reflexivity.
    split; [by eexists|]. exists 10. split; [lia | reflexivity].
Qed.

Lemma consistent_success prev ids rng :
  in_play prev -> consistent prev -> consistent (fst (success prev ids rng)).
Proof.
  intros (_ & _ & _ & Hlevel & _ & _) (_ & _ & _ & Hclassic & Htime).
  rewrite success_state. unfold consistent. fields.
  split; [reflexivity|].
  split; [by apply getTargetSum_at_most_19|]. split; [apply NoDup_nil_2|].
  split; intros Hm; rewrite Hm.
  - rewrite (decide_False (P := classic = time)) by discriminate. by split.
  - rewrite (decide_True (P := time = time)) by reflexivity.
    split; [by eexists|].
    destruct (nextMaxTime_range (level prev)) as (n & Hn & ->); [lia|].
    by exists n.
Qed.

Lemma consistent_click isPaused st block rng :
  in_play st -> consistent st ->
  consistent (fst (handleBlockClick isPaused st block rng)).
Proof.
  intros Hplay Hst. unfold handleBlockClick.
  destruct (isGameOver st || isPaused); [done|].
  destruct (_ =? _); [by apply consistent_success|].
  destruct Hst as (Hlevel & Htarget & Hnd & Hclassic & Htime).
  destruct (_ <? _); cbn [fst ret]; unfold consistent, exceeded, select; fields.
  - repeat apply conj; (done || apply NoDup_nil_2).
  - repeat apply conj; (done || by apply toggle_NoDup).
Qed.

Lemma consistent_tick isPaused st rng :
  in_play st -> consistent st -> consistent (fst (tick isPaused st rng)).
Proof.
  intros (_ & _ & _ & Hlvl & _ & _) Hst. unfold tick, timerRunning.
  destruct (decide (mode st = time)) as [Hm|Hm];
    [rewrite bool_decide_eq_true_2 by done
    |rewrite bool_decide_eq_false_2 by done; done].
  cbn [andb]. destruct (negb (isGameOver st) && negb isPaused); [|done].
  unfold tickUpdate. destruct (timeLeft st) as [t|]; [|done].
  destruct Hst as (Hlevel & Htarget & Hnd & Hclassic & Htime).
  destruct (Htime Hm) as [_ Hmax].
  destruct (PrimFloat.leb t PrimFloat.zero).
  - destruct (checkGameOver (grid st)).
    + cbn [fst ret]. unfold consistent, set_game_over. fields.
      repeat apply conj; done.
    + unfold bind. destruct (shiftUp (grid st) rng) as [newGrid rng'].
      cbn [fst ret]. unfold consistent, forced_row. fields.
      repeat apply conj; try done; [apply NoDup_nil_2 | congruence |].
      intros _. split; [by eexists|].
      destruct (nextMaxTime_range (level st)) as (n & Hn & ->); [lia|].
      by exists n.
  - cbn [fst ret]. unfold consistent, decay, set_timeLeft. fields.
    repeat apply conj; try done. congruence.
Qed.

Lemma reachable_consistent st : reachable st -> in_play st ∧ consistent st.
Proof.
  induction 1 as [m saved g|st isPaused block g _ [Hplay Hcons]
                  |st isPaused g _ [Hplay Hcons]].
  - split; [apply in_play_init | apply consistent_init].
  - split; [by apply in_play_click | by apply consistent_click].
  - split; [by apply in_play_tick | by apply consistent_tick].
Qed.

Lemma examples_reachable :
  reachable (fst (handleBlockClick false
                    (fst (tick false (fst (initGame time None Examples.oracle))
                            Examples.oracle))
                    Examples.six Examples.oracle)).
Proof. apply reach_click, reach_tick, reach_init. Qed.

(** X15. In every state reached by play, the blocks have values from 1 to
    9, the target sum is from 10 to 19, the selected blocks sum to less than
    the target, the level is [floor(score / 1000) + 1], and score and combo
    are not negative. *)
Theorem reachable_numbers st :
  reachable st ->
  (∀ r c b, cell (grid st) r c = Some b -> MIN_VALUE <= value b <= MAX_VALUE)
  ∧ 10 <= targetSum st <= 19
  ∧ currentSum (grid st) (selectedIds st) < targetSum st
  ∧ level st = score st / 1000 + 1
  ∧ 0 <= score st ∧ 0 <= combo st.
Proof.
  intros [(Hvalues & Hsum & Htarget & _ & Hscore & Hcombo)
          (Hlevel & Hmax & _)]%reachable_consistent.
  repeat apply conj; try done.
  intros r c b Hb. apply (values_ok_cell _ _ _ _ Hvalues Hb).
Qed.

Lemma reachable_numbers_witness :
  reachable (fst (handleBlockClick false
                    (fst (tick false (fst (initGame time None Examples.oracle))
                            Examples.oracle))
                    Examples.six Examples.oracle))
  ∧ 10 <= targetSum (fst (handleBlockClick false
                            (fst (tick false
                                    (fst (initGame time None Examples.oracle))
                                    Examples.oracle))
                            Examples.six Examples.oracle)) <= 19.
Proof.
  split; [exact examples_reachable|].
  exact (proj1 (proj2 (reachable_numbers _ examples_reachable))).
Defined.

(** X16. In every state reached by play no id is selected twice, and the
    timer fields go with the mode: in classic mode [timeLeft] and [maxTime]
    are absent; in time mode both are there and [maxTime] is one of the
    integers from 5 to 10. *)
Theorem reachable_selection_and_timer st :
  reachable st ->
  NoDup (selectedIds st)
  ∧ (mode st = classic -> timeLeft st = None ∧ maxTime st = None)
  ∧ (mode st = time ->
     is_Some (timeLeft st)
     ∧ ∃ n, 5 <= n <= 10
            ∧ maxTime st = Some (PrimFloat.of_uint63 (Uint63.of_Z n))).
Proof.
  intros [_ (_ & _ & Hnd & Hclassic & Htime)]%reachable_consistent. done.
Qed.

Lemma reachable_selection_and_timer_witness :
  reachable (fst (handleBlockClick false
                    (fst (tick false (fst (initGame time None Examples.oracle))
                            Examples.oracle))
                    Examples.six Examples.oracle))
  ∧ NoDup (selectedIds
             (fst (handleBlockClick false
                     (fst (tick false (fst (initGame time None Examples.oracle))
                             Examples.oracle))
                     Examples.six Examples.oracle))).
Proof.
  split; [exact examples_reachable|].
  exact (proj1 (reachable_selection_and_timer _ examples_reachable)).
Defined.

Lemma stamped_applyGravity g : stamped (applyGravity g).
Proof.
  intros r c b Hb. pose proof (applyGravity_shape g) as Hshape.
  pose proof (cell_in_cols _ _ _ _ Hshape Hb) as Hc.
  pose proof (cell_in_rows _ _ _ _ Hb) as Hr.
  rewrite (proj1 Hshape) in Hr. rewrite cell_applyGravity in Hb by done.
  destruct (column_up g c !! (GRID_ROWS - 1 - r)%nat); [|done].
  by injection Hb as <-.
Qed.

Lemma stamped_shiftUp g rng : stamped (fst (shiftUp g rng)).
Proof.
  intros r c b Hb. destruct (cell_shiftUp g rng) as (Hshape & _ & Hcell).
  pose proof (cell_in_cols _ _ _ _ Hshape Hb) as Hc.
  pose proof (cell_in_rows _ _ _ _ Hb) as Hr.
  rewrite (proj1 Hshape) in Hr. rewrite Hcell in Hb by done.
  destruct (decide (r = GRID_ROWS - 1)%nat) as [->|_].
  - by injection Hb as <-.
  - destruct (cell g (S r) c); [|done]. by injection Hb as <-.
Qed.

Lemma stamped_initGame m saved rng : stamped (grid (fst (initGame m saved rng))).
Proof.
  intros r c b Hb. destruct (initGame_grid_cells m saved rng) as [Hshape Hcell].
  pose proof (cell_in_cols _ _ _ _ Hshape Hb) as Hc.
  rewrite Hcell in Hb by done. destruct (decide _); [|done].
  by injection Hb as <-.
Qed.

Lemma stamped_settle m g rng :
  stamped g -> stamped (fst (fst (settle m g rng))).
Proof.
  intros Hg. unfold settle. destruct m; [|done].
  destruct (checkGameOver g); [done|].
  unfold bind. pose proof (stamped_shiftUp g rng) as Hs.
  by destruct (shiftUp g rng).
Qed.

(** X17. In every state reached by play each block carries, in its [row]
    and [col] fields, the row and the column of the cell it is in. *)
Theorem reachable_stamped st r c b :
  reachable st -> cell (grid st) r c = Some b -> row b = r ∧ col b = c.
Proof.
  intros Hreach. revert r c b. change (stamped (grid st)).
  induction Hreach as [m saved g|st isPaused block g _ IH|st isPaused g _ IH].
  - apply stamped_initGame.
  - unfold handleBlockClick. destruct (isGameOver st || isPaused); [done|].
    destruct (_ =? _); [|by destruct (_ <? _)].
    rewrite success_state. fields. apply stamped_settle, stamped_applyGravity.
  - unfold tick. destruct (timerRunning isPaused st); [|done].
    unfold tickUpdate. destruct (timeLeft st) as [t|]; [|done].
    destruct (PrimFloat.leb t PrimFloat.zero); [|done].
    destruct (checkGameOver (grid st)); [done|].
    unfold bind. pose proof (stamped_shiftUp (grid st) g) as Hs.
    by destruct (shiftUp (grid st) g).
Qed.

Lemma reachable_stamped_witness :
  reachable (fst (initGame classic None Examples.oracle))
  ∧ (∃ b, cell (grid (fst (initGame classic None Examples.oracle))) 7 3 = Some b
          ∧ row b = 7%nat ∧ col b = 3%nat).
Proof.
  split; [apply reach_init|].
  assert (Hcell : cell (grid (fst (initGame classic None Examples.oracle))) 7 3
                  = Some (drawn_block (skip 24 Examples.oracle) 6 7 3)).
  { rewrite (proj2 (initGame_grid_cells classic None Examples.oracle))
      by (unfold GRID_COLS; lia).
    reflexivity. }
  eexists. split; [exact Hcell|].
  exact (reachable_stamped (fst (initGame classic None Examples.oracle)) 7 3 _
           (reach_init classic None Examples.oracle) Hcell).
Defined.

Lemma toggle_unselected ids i : i ∉ ids -> toggle ids i = ids ++ [i].
Proof. intros Hnin. unfold toggle, includes. by rewrite bool_decide_eq_false_2. Qed.

Lemma filter_ne_fresh (ids : list string) i :
  i ∉ ids -> filter (fun x => x ≠ i) ids = ids.
Proof.
  induction ids as [|x ids IH]; [done|].
  intros [Hne Hnin]%not_elem_of_cons. rewrite filter_cons.
  rewrite decide_True by (intros ->; done). by rewrite IH.
Qed.

(** The branch of [handleBlockClick] that only stores the new selection. *)
Lemma click_select st block rng :
  isGameOver st = false ->
  currentSum (grid st) (toggle (selectedIds st) (id block)) < targetSum st ->
  handleBlockClick false st block rng
  = (select st (toggle (selectedIds st) (id block)), rng).
Proof.
  intros Hrun Hbelow. unfold handleBlockClick. rewrite Hrun. cbn [orb].
  destruct (Z.eqb_spec (currentSum (grid st)
                          (toggle (selectedIds st) (id block)))
                       (targetSum st)); [lia|].
  destruct (Z.ltb_spec (targetSum st)
                       (currentSum (grid st)
                          (toggle (selectedIds st) (id block))));
    [lia | reflexivity].
Qed.

(** X18. In a running state reached by play, a click on a selected block
    takes it out of the selection and does nothing else: no match, no reset,
    no draw. *)
Theorem reachable_deselect st block rng :
  reachable st -> isGameOver st = false -> id block ∈ selectedIds st ->
  handleBlockClick false st block rng
  = (select st (filter (fun x => x ≠ id block) (selectedIds st)), rng).
Proof.
  intros Hreach Hrun Hin.
  pose proof (reachable_deselect_below_target st block Hreach) as Hbelow.
  rewrite <- (toggle_selected _ _ Hin) in *. by apply click_select.
Qed.



(** X19. In a running state reached by play, a click on a block that is
    not selected and does not bring the sum to the target or above, followed
    by a second click on it, gives the state back: the selection is the
    same list, and no draw is made. *)
Theorem click_twice_restores st block rng :
  reachable st -> isGameOver st = false -> id block ∉ selectedIds st ->
  currentSum (grid st) (selectedIds st ++ [id block]) < targetSum st ->
  let (st1, rng1) := handleBlockClick false st block rng in
  handleBlockClick false st1 block rng1 = (st, rng).
Proof.
  intros Hreach Hrun Hnin Hbelow.
  rewrite click_select by (by rewrite ?toggle_unselected).
  rewrite toggle_unselected by done.
  pose proof (reachable_deselect_below_target st block Hreach) as Hback.
  rewrite filter_ne_fresh in Hback by done.
  assert (Hin : id block ∈ selectedIds st ++ [id block])
    by (apply elem_of_app; right; by apply list_elem_of_singleton).
  assert (Hoff : toggle (selectedIds st ++ [id block]) (id block)
                 = selectedIds st).
  { rewrite (toggle_selected _ _ Hin).
    rewrite filter_app, filter_cons, decide_False, filter_nil, app_nil_r
      by (intros Hne; by apply Hne).
    by apply filter_ne_fresh. }
  rewrite click_select; unfold select; fields; rewrite ?Hoff;
    [by destruct st | done | done].
Qed.

Lemma samples_started_reachable : reachable Samples.started.
Proof. apply reach_init. Qed.

Lemma samples_selecting_reachable : reachable Samples.selecting.
Proof. apply reach_click, reach_init. Qed.

Lemma samples_corner_selected : id Samples.corner ∈ selectedIds Samples.selecting.
Proof.
  assert (Hsel : selectedIds Samples.selecting = ["005467s"]) by reflexivity.
  rewrite Hsel. apply elem_of_cons. by left.
Qed.

Lemma reachable_deselect_witness :
  reachable Samples.selecting ∧ isGameOver Samples.selecting = false
  ∧ id Samples.corner ∈ selectedIds Samples.selecting
  ∧ handleBlockClick false Samples.selecting Samples.corner Examples.oracle
    = (select Samples.selecting
         (filter (fun x => x ≠ id Samples.corner) (selectedIds Samples.selecting)),
       Examples.oracle).
Proof.
  split; [exact samples_selecting_reachable|]. split; [reflexivity|].
  split; [exact samples_corner_selected|].
  exact (reachable_deselect Samples.selecting Samples.corner Examples.oracle
           samples_selecting_reachable eq_refl samples_corner_selected).
Defined.


Lemma click_twice_restores_witness :
  reachable Samples.started ∧ isGameOver Samples.started = false
  ∧ (id Samples.corner ∉ selectedIds Samples.started)
  ∧ currentSum (grid Samples.started)
      (selectedIds Samples.started ++ [id Samples.corner])
    < targetSum Samples.started
  ∧ (let (st1, rng1) :=
       handleBlockClick false Samples.started Samples.corner Examples.oracle in
     handleBlockClick false st1 Samples.corner rng1
     = (Samples.started, Examples.oracle)).
Proof.
  assert (Hnin : id Samples.corner ∉ selectedIds Samples.started)
    by apply not_elem_of_nil.
  split; [exact samples_started_reachable|]. split; [reflexivity|].
  split; [exact Hnin|]. split; [reflexivity|].
  exact (click_twice_restores Samples.started Samples.corner Examples.oracle
           samples_started_reachable eq_refl Hnin eq_refl).
Defined.

(** ** Steps *)

Lemma step_reachable st st' : reachable st -> step st st' -> reachable st'.
Proof.
  intros Hreach Hstep. destruct Hstep; [by apply reach_click | by apply reach_tick].
Qed.

(** X20. Over a click or a tick of play, the score, the level and the high
    score do not go down and the mode does not change; a score that is not
    above the high score stays so. *)
Theorem step_never_loses st st' :
  reachable st -> step st st' ->
  score st <= score st' ∧ level st <= level st'
  ∧ highScore st <= highScore st' ∧ mode st' = mode st
  ∧ (score st <= highScore st -> score st' <= highScore st').
Proof.
  intros Hreach Hstep.
  destruct (reachable_consistent st Hreach)
    as [(_ & _ & Htarget & _ & Hscore & Hcombo) (Hlevel & _)].
  assert (Hsame : st' = st
                  ∨ (score st' = score st ∧ level st' = level st
                     ∧ highScore st' = highScore st ∧ mode st' = mode st)
                  ∨ ∃ ids rng, st' = fst (success st ids rng)).
  { destruct Hstep as [st isPaused block g|st isPaused g].
    - unfold handleBlockClick. destruct (isGameOver st || isPaused); [by left|].
      destruct (_ =? _); [right; right; by eexists _, _|].
      right; left. by destruct (_ <? _).
    - unfold tick. destruct (timerRunning isPaused st); [|by left].
      unfold tickUpdate. destruct (timeLeft st) as [t|]; [|by left].
      right; left. destruct (PrimFloat.leb t PrimFloat.zero); [|done].
      destruct (checkGameOver (grid st)); [done|].
      unfold bind. by destruct (shiftUp (grid st) g). }
  destruct Hsame as [->|[(Hs & Hl & Hh & Hm)|(ids & rng & ->)]].
  - repeat apply conj; (done || lia).
  - rewrite Hs, Hl, Hh, Hm. repeat apply conj; (done || lia).
  - rewrite success_state. fields.
    assert (Hpoints : 0 <= points st ids) by (unfold points; nia).
    rewrite Hlevel.
    pose proof (Z.div_le_mono (score st) (score st + points st ids) 1000
                  ltac:(lia) ltac:(lia)).
    repeat apply conj; (done || lia).
Qed.

Lemma step_never_loses_witness :
  reachable Samples.started ∧ step Samples.started Samples.selecting
  ∧ score Samples.started <= score Samples.selecting
  ∧ level Samples.started <= level Samples.selecting.
Proof.
  assert (Hstep : step Samples.started Samples.selecting)
    by apply step_click.
  split; [exact samples_started_reachable|]. split; [exact Hstep|].
  destruct (step_never_loses Samples.started Samples.selecting
              samples_started_reachable Hstep) as (Hs & Hl & _).
  exact (conj Hs Hl).
Defined.

(** ** Game over and row 0 *)

Lemma reachable_grid_shape_holds st : reachable st -> grid_shape (grid st).
Proof.
  induction 1;
    [apply initGame_shape | by apply handleBlockClick_shape | by apply tick_shape].
Qed.

Lemma omap_full {A B} (f : A -> option B) (l : list A) :
  length (omap f l) = length l -> Forall (fun x => is_Some (f x)) l.
Proof.
  induction l as [|x l IH]; [by constructor|].
  change (omap f (x :: l))
    with (match f x with Some y => y :: omap f l | None => omap f l end).
  pose proof (omap_length_le f l) as Hle.
  destruct (f x) as [y|] eqn:Hx; simpl; intros Hlen; [|lia].
  constructor; [by rewrite Hx | apply IH; lia].
Qed.

(** A grid left by the removal of blocks and gravity has a block in row 0
    only if the grid had one. *)
Lemma checkGameOver_after_removal g ids :
  grid_shape g ->
  checkGameOver (applyGravity (remove_selected g ids)) = true ->
  checkGameOver g = true.
Proof.
  intros Hshape Hover.
  pose proof (remove_selected_shape g ids Hshape) as Hh.
  apply (applyGravity_row0 _ Hh) in Hover as (c & Hc & Hfull).
  pose proof (omap_length_le (at_col c) (remove_selected g ids)) as Hle.
  rewrite <- (proj1 Hh) in Hfull.
  assert (Hall : Forall (fun cells => is_Some (at_col c cells))
                   (remove_selected g ids))
    by (apply omap_full; unfold column_down in Hfull; lia).
  destruct Hshape as [Hrows Hcols].
  destruct (lookup_lt_is_Some_2 g 0%nat ltac:(rewrite Hrows; unfold GRID_ROWS; lia))
    as [cells Hcells].
  rewrite remove_selected_unselect in Hall.
  assert (Hrow0 : map (map (unselect ids)) g !! 0%nat = Some (map (unselect ids) cells))
    by (by rewrite list_lookup_fmap, Hcells).
  destruct (Forall_lookup_1 _ _ _ _ Hall Hrow0) as [b Hb].
  unfold at_col in Hb. rewrite list_lookup_fmap in Hb.
  apply checkGameOver_row0. unfold cell. rewrite Hcells.
  destruct (cells !! c) as [[b'|]|] eqn:Hc'; [|done|done].
  exists c, b'. by rewrite Hc'.
Qed.

Lemma reachable_flag st :
  reachable st -> isGameOver st = checkGameOver (grid st).
Proof.
  induction 1 as [m saved g|st isPaused block g Hreach IH
                  |st isPaused g Hreach IH].
  - assert (Hrun : isGameOver (fst (initGame m saved g)) = false)
      by (by rewrite initGame_unfold).
    rewrite Hrun. symmetry. apply not_true_is_false.
    intros (c & b & Hb)%checkGameOver_row0.
    rewrite initGame_top_empty in Hb by (unfold GRID_ROWS, INITIAL_ROWS; lia).
    done.
  - unfold handleBlockClick.
    destruct (isGameOver st || isPaused) eqn:Hstop; [exact IH|].
    apply orb_false_iff in Hstop as [Hover _].
    destruct (_ =? _); [|destruct (_ <? _); exact IH].
    rewrite success_state. fields. unfold settle.
    set (G := applyGravity _).
    destruct (mode st).
    + destruct (checkGameOver G) eqn:HG.
      * change (true = checkGameOver G). by rewrite HG.
      * unfold bind. by destruct (shiftUp G g).
    + change (false = checkGameOver G). symmetry.
      apply not_true_is_false. intros HG.
      apply checkGameOver_after_removal in HG;
        [congruence | by apply reachable_grid_shape_holds].
  - unfold tick. destruct (timerRunning isPaused st); [|exact IH].
    unfold tickUpdate. destruct (timeLeft st) as [t|]; [|exact IH].
    destruct (PrimFloat.leb t PrimFloat.zero); [|exact IH].
    destruct (checkGameOver (grid st)) eqn:Hover.
    + change (true = checkGameOver (grid st)). by rewrite Hover.
    + unfold bind. by destruct (shiftUp (grid st) g).
Qed.

(** X22. In every state reached by play the game is over exactly when a
    block is in row 0 of the grid. *)
Theorem reachable_gameOver_row0 st :
  reachable st ->
  isGameOver st = checkGameOver (grid st)
  ∧ (isGameOver st = true <-> ∃ c b, cell (grid st) 0 c = Some b).
Proof.
  intros Hflag%reachable_flag.
  split; [exact Hflag|]. rewrite Hflag. apply checkGameOver_row0.
Qed.

Lemma reachable_gameOver_row0_witness :
  reachable Samples.selecting
  ∧ isGameOver Samples.selecting = checkGameOver (grid Samples.selecting).
Proof.
  split; [exact samples_selecting_reachable|].
  exact (proj1 (reachable_gameOver_row0 _ samples_selecting_reachable)).
Defined.

(** ** Ticks the effect has not stopped yet *)

Lemma reachable_ticks n : ∀ st g,
  reachable st -> reachable (fst (fst (ticks n false st g))).
Proof.
  induction n as [|n IH]; intros st g Hreach; [done|].
  cbn [ticks]. pose proof (reach_tick st false g Hreach) as Hnext.
  destruct (tick false st g) as [st1 g1]. specialize (IH st1 g1 Hnext).
  by destruct (ticks n false st1 g1) as [[st2 k] g2].
Qed.

Lemma samples_lost_game_reachable : reachable Samples.lost_game.
Proof. apply reachable_ticks, reach_init. Qed.

Lemma samples_lost_game_over :
  isGameOver Samples.lost_game = true ∧ timeLeft Samples.lost_game = Some TEN.
Proof. split; vm_compute; reflexivity. Qed.

Lemma set_game_over_same st : isGameOver st = true -> set_game_over st = st.
Proof. destruct st; simpl; intros ->; reflexivity. Qed.




(** X21. Once a game reached by play is over, no click changes anything,
    and no run of the interval callback changes anything but [timeLeft],
    however many of them follow and whether or not the timer effect has
    cleared the interval: the grid, the score and the selection stay, and
    the game stays over. *)
Theorem game_over_is_final st st' :
  reachable st -> isGameOver st = true -> rtc raw_step st st' ->
  (st' = st ∨ ∃ t, st' = set_timeLeft st t)
  ∧ isGameOver st' = true ∧ grid st' = grid st ∧ score st' = score st
  ∧ selectedIds st' = selectedIds st.
Proof.
  intros Hflag%reachable_flag Hover Hsteps.
  assert (Hrow0 : checkGameOver (grid st) = true) by congruence.
  assert (Hfinal : st' = st ∨ ∃ t, st' = set_timeLeft st t).
  { apply (rtc_ind_r (R := raw_step)
             (fun z => z = st ∨ ∃ t, z = set_timeLeft st t) st);
      [by left | | exact Hsteps].
    clear st' Hsteps. intros st1 st2 _ Hstep IH.
    assert (Hover1 : isGameOver st1 = true)
      by (destruct IH as [->|[t ->]]; done).
    assert (Hgrid1 : grid st1 = grid st)
      by (destruct IH as [->|[t ->]]; done).
    destruct Hstep as [st1 isPaused block g|st1 g].
    - unfold handleBlockClick. by rewrite Hover1.
    - unfold tickUpdate. destruct (timeLeft st1) as [t1|]; [|exact IH].
      destruct (PrimFloat.leb t1 PrimFloat.zero).
      + rewrite Hgrid1, Hrow0. cbn [fst ret].
        by rewrite set_game_over_same.
      + cbn [fst ret]. right. exists (PrimFloat.sub t1 TENTH).
        destruct IH as [->|[t ->]]; reflexivity. }
  split; [exact Hfinal|]. by destruct Hfinal as [->|[t ->]].
Qed.

Lemma game_over_is_final_witness :
  reachable Samples.lost_game ∧ isGameOver Samples.lost_game = true
  ∧ rtc raw_step Samples.lost_game
      (fst (tickUpdate Samples.lost_game Examples.oracle))
  ∧ grid (fst (tickUpdate Samples.lost_game Examples.oracle))
    = grid Samples.lost_game
  ∧ isGameOver (fst (tickUpdate Samples.lost_game Examples.oracle)) = true.
Proof.
  assert (Hsteps : rtc raw_step Samples.lost_game
                     (fst (tickUpdate Samples.lost_game Examples.oracle)))
    by (apply rtc_once, raw_tick).
  split; [exact samples_lost_game_reachable|].
  split; [exact (proj1 samples_lost_game_over)|]. split; [exact Hsteps|].
  destruct (game_over_is_final Samples.lost_game _
              samples_lost_game_reachable (proj1 samples_lost_game_over)
              Hsteps) as (_ & Hover & Hgrid & _).
  exact (conj Hgrid Hover).
Defined.

(** ** The component *)

Lemma row_find_displayed cells b :
  Some b ∈ cells -> ∃ b', row_find cells (id b) = Some b'.
Proof.
  induction cells as [|[b0|] cells IH]; intros Hin.
  - by apply not_elem_of_nil in Hin.
  - cbn [row_find]. destruct (String.eqb_spec (id b0) (id b)) as [_|Hne];
      [by eexists|].
    apply IH. apply elem_of_cons in Hin as [[= <-]|Hin]; [done | exact Hin].
  - cbn [row_find]. apply IH.
    apply elem_of_cons in Hin as [?|Hin]; [done | exact Hin].
Qed.

(** The id of a block of the grid is found on the grid. *)
Lemma find_block_displayed (g : Grid) b :
  Some b ∈ concat g -> is_Some (find_block g (id b)).
Proof.
  induction g as [|cells g IH]; intros Hin.
  - by apply not_elem_of_nil in Hin.
  - cbn [concat] in Hin. cbn [find_block].
    destruct (row_find cells (id b)) as [b'|] eqn:Hrow; [by eexists|].
    apply elem_of_app in Hin as [Hin|Hin]; [|by apply IH].
    destruct (row_find_displayed cells b Hin) as [b' Hb']. congruence.
Qed.

Lemma toggle_on_grid (g : Grid) ids b :
  Some b ∈ concat g ->
  Forall (fun i => is_Some (find_block g i)) ids ->
  Forall (fun i => is_Some (find_block g i)) (toggle ids (id b)).
Proof.
  intros Hb Hids. unfold toggle. destruct (includes ids (id b)).
  - apply Forall_forall. intros i [_ Hi]%list_elem_of_filter.
    by apply (proj1 (Forall_forall _ _) Hids).
  - apply Forall_app. split; [done|].
    constructor; [by apply find_block_displayed | constructor].
Qed.

(** What a tick can make of a state. *)
Lemma tick_cases isPaused st rng :
  fst (tick isPaused st rng) = st
  ∨ fst (tick isPaused st rng) = set_game_over st
  ∨ (∃ t, fst (tick isPaused st rng) = decay st t)
  ∨ fst (tick isPaused st rng) = forced_row st (fst (shiftUp (grid st) rng)).
Proof.
  unfold tick. destruct (timerRunning isPaused st); [|by left].
  unfold tickUpdate. destruct (timeLeft st) as [t|]; [|by left].
  destruct (PrimFloat.leb t PrimFloat.zero); [|right; right; left; by exists t].
  destruct (checkGameOver (grid st)); [right; by left|].
  right; right; right. unfold bind. by destruct (shiftUp (grid st) rng).
Qed.

Lemma coherent_start m a rng : App.coherent (fst (App.startGame m a rng)).
Proof.
  unfold App.startGame, bind.
  pose proof (reach_init m (App.stored a) rng) as Hreach.
  rewrite initGame_unfold in *.
  cbn [fst ret] in *. unfold App.coherent. cbn [App.gameState App.stored].
  fields. split; [done|]. split; [done | constructor].
Qed.

Lemma coherent_click block a rng :
  App.enabled (App.BlockClick block) a = true ->
  App.coherent a -> App.coherent (fst (App.clickBlock block a rng)).
Proof.
  unfold App.enabled, App.clickBlock, App.coherent.
  destruct (App.gameState a) as [prev|]; [|done].
  intros Hshown%bool_decide_eq_true_1 (Hreach & Hhigh & Hsel).
  pose proof (reach_click prev (App.isPaused a) block rng Hreach) as Hreach'.
  unfold bind.
  destruct (handleBlockClick (App.isPaused a) prev block rng) as [st rng']
    eqn:Hclick.
  cbn [fst ret App.gameState App.stored] in *. split; [done|].
  assert (Hst : st = fst (handleBlockClick (App.isPaused a) prev block rng))
    by (by rewrite Hclick).
  clear Hclick Hreach'. subst st. unfold App.saved, handleBlockClick.
  destruct (isGameOver prev || App.isPaused a); [done|].
  destruct (_ =? _).
  - rewrite success_state. fields. split; [|constructor].
    destruct (Z.ltb_spec (highScore prev)
                (Z.max (score prev + points prev
                          (toggle (selectedIds prev) (id block)))
                       (highScore prev))); [done | lia].
  - destruct (_ <? _); cbn [fst ret]; unfold exceeded, select; fields.
    + split; [done | constructor].
    + split; [done | by apply toggle_on_grid].
Qed.

Lemma coherent_tick a rng :
  App.coherent a -> App.coherent (fst (App.timerTick a rng)).
Proof.
  intros Ha. unfold App.timerTick.
  destruct (App.gameState a) as [prev|] eqn:Hgs; [|exact Ha].
  unfold App.coherent in *. rewrite Hgs in Ha.
  destruct Ha as (Hreach & Hhigh & Hsel).
  pose proof (reach_tick prev (App.isPaused a) rng Hreach) as Hreach'.
  pose proof (tick_cases (App.isPaused a) prev rng) as Hcases.
  unfold bind. destruct (tick (App.isPaused a) prev rng) as [st rng'].
  cbn [fst ret App.gameState App.stored] in *.
  split; [done|].
  destruct Hcases as [-> | [-> | [[t ->] | ->]]]; done.
Qed.

Lemma coherent_dispatch e a rng :
  App.coherent a -> App.coherent (fst (App.dispatch e a rng)).
Proof.
  intros Ha. unfold App.dispatch.
  destruct (App.enabled e a) eqn:Hon; [|done].
  destruct e; cbn [App.handle].
  - apply coherent_start.
  - destruct (App.gameState a); [apply coherent_start | done].
  - done.
  - by apply coherent_click.
  - by apply coherent_tick.
  - exact Ha.
  - exact Ha.
Qed.

Lemma reached_coherent s0 a : App.reached s0 a -> App.coherent a.
Proof.
  induction 1 as [|a e g _ IH]; [done | by apply coherent_dispatch].
Qed.

Lemma samples_app_reached : App.reached (Some 40) Samples.app.
Proof. do 3 apply App.reached_dispatch. apply App.reached_mounted. Qed.

Lemma samples_app_game : App.gameState Samples.app = Some Samples.app_game.
Proof. vm_compute. reflexivity. Qed.

(** X23. Whatever the player and the clock do after the component is
    mounted, the game on screen is one that play reaches from [initGame],
    and its high score is the one in storage (0 when the storage has none):
    a raise is written when it happens, and a new game reads it back. *)
Theorem reached_high_score s0 a st :
  App.reached s0 a -> App.gameState a = Some st ->
  reachable st ∧ highScore st = default 0 (App.stored a).
Proof.
  intros Ha%reached_coherent Hst. unfold App.coherent in Ha.
  rewrite Hst in Ha. by destruct Ha as (? & ? & _).
Qed.

Lemma reached_high_score_witness :
  App.reached (Some 40) Samples.app
  ∧ App.gameState Samples.app = Some Samples.app_game
  ∧ highScore Samples.app_game = default 0 (App.stored Samples.app).
Proof.
  split; [exact samples_app_reached|]. split; [exact samples_app_game|].
  exact (proj2 (reached_high_score (Some 40) Samples.app Samples.app_game
                  samples_app_reached samples_app_game)).
Defined.

(** X24. Whatever the player and the clock do, the clicks being on blocks
    that are on the grid when they are clicked, every selected id is the id
    of a block of the grid, so the blocks the selection resolves to are as
    many as the selected ids: the count the score of a match is computed
    from. *)
Theorem reached_selection_on_grid s0 a st :
  App.reached s0 a -> App.gameState a = Some st ->
  Forall (fun i => is_Some (find_block (grid st) i)) (selectedIds st)
  ∧ length (selectedBlocks (grid st) (selectedIds st)) = length (selectedIds st).
Proof.
  intros Ha%reached_coherent Hst. unfold App.coherent in Ha.
  rewrite Hst in Ha. destruct Ha as (_ & _ & Hsel).
  split; [done | by apply selectedBlocks_length].
Qed.

Lemma reached_selection_on_grid_witness :
  App.reached (Some 40) Samples.app
  ∧ App.gameState Samples.app = Some Samples.app_game
  ∧ selectedIds Samples.app_game = ["005467s"]
  ∧ length (selectedBlocks (grid Samples.app_game)
              (selectedIds Samples.app_game))
    = length (selectedIds Samples.app_game).
Proof.
  split; [exact samples_app_reached|]. split; [exact samples_app_game|].
  split; [reflexivity|].
  exact (proj2 (reached_selection_on_grid (Some 40) Samples.app
                  Samples.app_game samples_app_reached samples_app_game)).
Defined.

(** X25. The restart button starts a game in the mode of the game on
    screen, not paused, with score 0 and with the high score that game had;
    the menu button, there once the game is over, leaves no game and keeps
    the storage. *)
Theorem restart_keeps_high_score s0 a st rng :
  App.reached s0 a -> App.gameState a = Some st ->
  (∃ st', App.gameState (fst (App.dispatch App.Restart a rng)) = Some st'
          ∧ st' = fst (initGame (mode st) (App.stored a) rng)
          ∧ mode st' = mode st ∧ highScore st' = highScore st
          ∧ score st' = 0 ∧ isGameOver st' = false)
  ∧ App.isPaused (fst (App.dispatch App.Restart a rng)) = false
  ∧ (isGameOver st = true ->
     fst (App.dispatch App.Menu a rng) = App.mkApp None (App.isPaused a) (App.stored a)).
Proof.
  intros Ha%reached_coherent Hst. unfold App.coherent in Ha.
  rewrite Hst in Ha. destruct Ha as (_ & Hhigh & _).
  unfold App.dispatch, App.enabled, App.handle. rewrite Hst.
  unfold App.startGame, bind. rewrite initGame_unfold.
  cbn [fst ret App.gameState App.isPaused].
  split; [|split; [reflexivity | by intros ->]].
  eexists. split; [reflexivity|]. fields. by rewrite Hhigh.
Qed.

Lemma restart_keeps_high_score_witness :
  App.reached (Some 40) Samples.app
  ∧ App.gameState Samples.app = Some Samples.app_game
  ∧ ∃ st', App.gameState (fst (App.dispatch App.Restart Samples.app
                                 Examples.oracle)) = Some st'
           ∧ highScore st' = highScore Samples.app_game.
Proof.
  split; [exact samples_app_reached|]. split; [exact samples_app_game|].
  destruct (proj1 (restart_keeps_high_score (Some 40) Samples.app
                     Samples.app_game Examples.oracle samples_app_reached
                     samples_app_game))
    as (st' & Hst' & _ & _ & Hhigh & _).
  exists st'. exact (conj Hst' Hhigh).
Defined.

(** ** Ids *)

(** X26. The id [generateId] makes has at most seven characters, and is
    the empty string when the draw is 0. One draw is made. *)
Theorem generateId_length g :
  (String.length (fst (generateId g)) <= 7)%nat
  ∧ (fst (Math_random g) = 0 -> fst (generateId g) = EmptyString)
  ∧ snd (generateId g) = skip 1 g.
Proof.
  unfold generateId, bind. cbn [Math_random ret fst snd].
  split; [apply substring_length_le|]. split; [|reflexivity].
  intros Hzero. unfold toString36_substring_2_9, Number_toString36.
  by rewrite Hzero.
Qed.

Lemma generateId_length_witness :
  fst (Math_random (mkRng (fun _ => 0) 0 exact36)) = 0
  ∧ fst (generateId (mkRng (fun _ => 0) 0 exact36)) = EmptyString.
Proof.
  split; [reflexivity|].
  exact (proj1 (proj2 (generateId_length (mkRng (fun _ => 0) 0 exact36)))
           eq_refl).
Defined.

(** ** The size of a match *)

Lemma currentSum_at_most g ids :
  values_ok g -> currentSum g ids <= MAX_VALUE * Z.of_nat (length ids).
Proof.
  intros Hg. induction ids as [|i ids IH]; [done|].
  rewrite currentSum_cons. cbn [length]. rewrite Nat2Z.inj_succ.
  assert (from_option value 0 (find_block g i) <= MAX_VALUE).
  { destruct (find_block g i) as [b|] eqn:Hb; [|done].
    pose proof (find_block_value g i b Hg Hb) as Hv.
    unfold value_ok in Hv. simpl. lia. }
  unfold MAX_VALUE in *. lia.
Qed.

(** X27. In a running state reached by play, a click that completes a
    match has at least two ids in its selection, and the match scores at
    least twice the target: 20 points or more. *)
Theorem match_takes_two_blocks st block rng :
  reachable st -> isGameOver st = false ->
  currentSum (grid st) (toggle (selectedIds st) (id block)) = targetSum st ->
  (2 <= length (toggle (selectedIds st) (id block)))%nat
  ∧ score st + 2 * targetSum st
    <= score (fst (handleBlockClick false st block rng))
  ∧ score st + 20 <= score (fst (handleBlockClick false st block rng)).
Proof.
  intros Hreach Hrun Hsum.
  destruct (reachable_consistent st Hreach)
    as [(Hvalues & _ & Htarget & _ & _ & Hcombo) _].
  pose proof (currentSum_at_most (grid st) (toggle (selectedIds st) (id block))
                Hvalues) as Hmost.
  rewrite Hsum in Hmost. unfold MAX_VALUE in Hmost.
  assert (Hlen : (2 <= length (toggle (selectedIds st) (id block)))%nat) by lia.
  rewrite click_success by done. rewrite success_state. fields.
  unfold points. split; [exact Hlen|]. split; nia.
Qed.

Lemma match_takes_two_blocks_witness :
  reachable Samples.with_seven ∧ isGameOver Samples.with_seven = false
  ∧ currentSum (grid Samples.with_seven)
      (toggle (selectedIds Samples.with_seven) (id Samples.last_three))
    = targetSum Samples.with_seven
  ∧ toggle (selectedIds Samples.with_seven) (id Samples.last_three)
    = ["jqonjsp"; "3h86xdn"]
  ∧ score Samples.with_seven + 20
    <= score (fst (handleBlockClick false Samples.with_seven Samples.last_three
                     Examples.oracle)).
Proof.
  assert (Hreach : reachable Samples.with_seven)
    by apply reach_click, reach_init.
  split; [exact Hreach|]. split; [reflexivity|]. split; [reflexivity|].
  split; [reflexivity|].
  exact (proj2 (proj2 (match_takes_two_blocks Samples.with_seven
                         Samples.last_three Examples.oracle Hreach
                         eq_refl eq_refl))).
Defined.

(** ** The period of the timer *)

Lemma period_ok_all : forallb period_ok [5; 6; 7; 8; 9; 10] = true.
Proof. vm_compute. reflexivity. Qed.

Lemma period_ok_range m : 5 <= m <= 10 -> period_ok m = true.
Proof.
  intros Hm. pose proof period_ok_all as Hall. rewrite forallb_forall in Hall.
  apply Hall.
  assert (Hcases : m = 5 ∨ m = 6 ∨ m = 7 ∨ m = 8 ∨ m = 9 ∨ m = 10) by lia.
  destruct Hcases as [->|[->|[->|[->|[->| ->]]]]]; simpl; tauto.
Qed.

Lemma ticks_decay_from t0 N n : ∀ k st g,
  (∀ j, (j <= N)%nat -> PrimFloat.leb (decayed_from t0 j) PrimFloat.zero = false) ->
  mode st = time -> isGameOver st = false ->
  timeLeft st = Some (decayed_from t0 k) ->
  (k + n <= N + 1)%nat ->
  ticks n false st g = (set_timeLeft st (decayed_from t0 (k + n)), 0%nat, g).
Proof.
  induction n as [|n IH]; intros k st g Hpos Hm Hrun Ht Hk.
  - simpl. rewrite Nat.add_0_r, set_timeLeft_same; done.
  - assert (Hinj : injects false st = false)
      by (unfold injects, timerRunning;
          rewrite Hm, Hrun, Ht, (Hpos k) by lia; reflexivity).
    assert (Htick : tick false st g
                    = (set_timeLeft st (decayed_from t0 (S k)), g))
      by (unfold tick, tickUpdate, timerRunning;
          rewrite Hm, Hrun, Ht, (Hpos k) by lia; reflexivity).
    cbn [ticks]. rewrite Hinj, Htick.
    rewrite (IH (S k)) by (done || lia).
    by replace (S k + n)%nat with (k + S n)%nat by lia.
Qed.

(** X28. In time mode, from a running state whose [timeLeft] is the value
    a reset gives it at some level, [max(5, 10 - floor(level / 2))] seconds,
    written [m]: each of the first [10 m + 1] ticks only subtracts 0.1 and
    injects no row, [timeLeft] being still above 0 after [10 m] of them in
    binary64; with row 0 empty, tick [10 m + 2] is the one that injects the
    row. *)
Theorem forced_row_period st lvl g :
  mode st = time -> isGameOver st = false -> 1 <= lvl ->
  timeLeft st = Some (nextMaxTime lvl) ->
  let n := Z.to_nat (10 * Z.max 5 (10 - lvl / 2)) in
  (∀ k, (k <= n + 1)%nat ->
        ticks k false st g
        = (set_timeLeft st (decayed_from (nextMaxTime lvl) k), 0%nat, g))
  ∧ PrimFloat.ltb PrimFloat.zero (decayed_from (nextMaxTime lvl) n) = true
  ∧ (checkGameOver (grid st) = false ->
     ticks (n + 2) false st g
     = (forced_row st (fst (shiftUp (grid st) g)), 1%nat,
        snd (shiftUp (grid st) g))).
Proof.
  intros Hm Hrun Hlvl Ht n. unfold nextMaxTime in *.
  assert (Hrange : 5 <= Z.max 5 (10 - lvl / 2) <= 10)
    by (assert (0 <= lvl / 2) by (apply Z.div_pos; lia); lia).
  set (m := Z.max 5 (10 - lvl / 2)) in *.
  set (t0 := PrimFloat.of_uint63 (Uint63.of_Z m)) in *.
  pose proof (period_ok_range m Hrange) as Hok. unfold period_ok in Hok.
  fold t0 in Hok. fold n in Hok.
  apply andb_true_iff in Hok as [Hpos Hend].
  rewrite forallb_forall in Hpos.
  assert (Hpos' : ∀ j, (j <= n)%nat ->
            PrimFloat.leb (decayed_from t0 j) PrimFloat.zero = false).
  { intros j Hj. apply negb_true_iff, Hpos, in_seq. lia. }
  assert (Hdecay : ∀ k, (k <= n + 1)%nat ->
            ticks k false st g = (set_timeLeft st (decayed_from t0 k), 0%nat, g)).
  { intros k Hk. by rewrite (ticks_decay_from t0 n k 0 st g). }
  split; [exact Hdecay|]. split.
  - assert (Hall : ∀ m', 5 <= m' <= 10 ->
              PrimFloat.ltb PrimFloat.zero
                (decayed_from (PrimFloat.of_uint63 (Uint63.of_Z m'))
                   (Z.to_nat (10 * m'))) = true).
    { intros m' Hm'.
      assert (Hcases : m' = 5 ∨ m' = 6 ∨ m' = 7 ∨ m' = 8 ∨ m' = 9 ∨ m' = 10)
        by lia.
      destruct Hcases as [->|[->|[->|[->|[->| ->]]]]]; vm_compute; reflexivity. }
    by apply Hall.
  - intros Hfree.
    assert (Hlast : ticks (n + 2) false st g
                    = let '(st2, k2, g2) :=
                        ticks 1 false (set_timeLeft st (decayed_from t0 (n + 1))) g in
                      (st2, k2, g2)).
    { replace (n + 2)%nat with (n + 1 + 1)%nat by lia.
      rewrite ticks_split, Hdecay by lia.
      by destruct (ticks 1 false _ g) as [[st2 k2] g2]. }
    destruct (tick_time_up (set_timeLeft st (decayed_from t0 (n + 1)))
                (decayed_from t0 (n + 1)) g Hm Hrun eq_refl Hend)
      as [Hinj Htick].
    rewrite Hlast. cbn [ticks]. rewrite Hinj, Htick.
    change (grid (set_timeLeft st (decayed_from t0 (n + 1)))) with (grid st).
    rewrite Hfree. reflexivity.
Qed.

Lemma forced_row_period_witness :
  mode Examples.timed_game = time
  ∧ isGameOver Examples.timed_game = false
  ∧ 1 <= 1
  ∧ timeLeft Examples.timed_game = Some (nextMaxTime 1)
  ∧ checkGameOver (grid Examples.timed_game) = false
  ∧ ticks (Z.to_nat (10 * Z.max 5 (10 - 1 / 2)) + 2) false Examples.timed_game
      Examples.oracle
    = (forced_row Examples.timed_game
         (fst (shiftUp (grid Examples.timed_game) Examples.oracle)), 1%nat,
       snd (shiftUp (grid Examples.timed_game) Examples.oracle)).
Proof.
  split; [reflexivity|]. split; [reflexivity|]. split; [lia|].
  split; [reflexivity|]. split; [reflexivity|].
  exact (proj2 (proj2 (forced_row_period Examples.timed_game 1 Examples.oracle
                         eq_refl eq_refl ltac:(lia) eq_refl))
           eq_refl).
Defined.
